(** * PageRank: a shallow embedding of [pagerank.py]

    The functions of [pagerank.py], [crawl], [transition_model],
    [sample_pagerank], [iterate_pagerank] and the computing part of [main],
    are embedded as pure functions in an error monad.

    - A Python [dict] is an association list in insertion order; iteration
      over a dict walks that list.  A Python [set] of pages is a list of
      pages without duplicates.
    - Python floats are read twice.  The main development reads them in
      exact arithmetic: every float is a rational of [Q], compared with
      [==]; what it proves is what the algorithm does with real numbers.
      Module [F64] embeds [iterate_pagerank] once more over the binary64
      numbers of the machine, and shows where rounding makes the program
      leave the exact reading.  Division raises [ZeroDivisionError] on a
      zero divisor in both, as Python's [/] does.
    - [random.choice] and [random.random] take their entropy from an explicit
      argument.
    - [os.listdir], [open] and [read] take their results, a value or an
      exception, from an explicit argument.
    - The [while] loop of [iterate_pagerank] runs on fuel. *)

From Stdlib Require Import List String Bool Arith ZArith QArith Qabs Lia Lqa.
From Stdlib Require Import Setoid Morphisms.
From Stdlib Require Floats.PrimFloat.
Import ListNotations.

Local Open Scope Q_scope.

(** ** Exceptions and the error monad *)

Inductive exn : Type :=
| KeyError
| IndexError
| ZeroDivisionError
| TypeError
| Exception (name : string).

Inductive result (A : Type) : Type :=
| Ok (a : A)
| Raise (e : exn).

Arguments Ok {A} a.
Arguments Raise {A} e.

Definition bind {A B : Type} (m : result A) (k : A -> result B) : result B :=
  match m with
  | Ok a => k a
  | Raise e => Raise e
  end.

Notation "x <- m ;; k" := (bind m (fun x => k))
  (at level 61, m at next level, right associativity).

(** [for x in l: s = body x s], stopping at the first exception. *)
Fixpoint for_each {A S : Type} (l : list A) (body : A -> S -> result S) (s : S)
  : result S :=
  match l with
  | [] => Ok s
  | x :: l' => s' <- body x s ;; for_each l' body s'
  end.

(** ** Pages and dictionaries *)

Definition page : Type := string.

Definition Dict (V : Type) : Type := list (page * V).

Definition dict_keys {V : Type} (d : Dict V) : list page := map fst d.

Definition dict_values {V : Type} (d : Dict V) : list V := map snd d.

(** [d[k]] *)
Fixpoint dict_get {V : Type} (d : Dict V) (k : page) : result V :=
  match d with
  | [] => Raise KeyError
  | (k', v) :: d' => if String.eqb k k' then Ok v else dict_get d' k
  end.

(** [d[k] = v]: an existing key keeps its place, a new key goes last. *)
Fixpoint dict_set {V : Type} (d : Dict V) (k : page) (v : V) : Dict V :=
  match d with
  | [] => [(k, v)]
  | (k', v') :: d' =>
      if String.eqb k k' then (k', v) :: d' else (k', v') :: dict_set d' k v
  end.

(** [p in s] for a set of pages. *)
Definition mem (p : page) (s : list page) : bool := existsb (String.eqb p) s.

(** [len(x)] as a float operand. *)
Definition len {A : Type} (l : list A) : Q := inject_Z (Z.of_nat (List.length l)).

(** [a / b] on floats. *)
Definition pydiv (a b : Q) : result Q :=
  if Qeq_bool b 0 then Raise ZeroDivisionError else Ok (a / b).

(** [d[k] += x] *)
Definition dict_add (d : Dict Q) (k : page) (x : Q) : result (Dict Q) :=
  v <- dict_get d k ;; Ok (dict_set d k (v + x)).

(** The corpus: each page with the set of pages it links to. *)
Definition Corpus : Type := Dict (list page).

(** ** [transition_model] *)

Definition transition_model (corpus : Corpus) (pg : page) (damping_factor : Q)
  : result (Dict Q) :=
  let probability :=
    fold_left (fun pr page_name => dict_set pr page_name 0)
              (dict_keys corpus) [] in
  links <- dict_get corpus pg ;;
  if Nat.eqb (List.length links) 0 then
    for_each (dict_keys probability)
      (fun page_name pr =>
         x <- pydiv 1 (len corpus) ;; dict_add pr page_name x)
      probability
  else
    prob_link <- pydiv damping_factor (len links) ;;
    probability <- for_each links
      (fun page_name pr => dict_add pr page_name prob_link) probability ;;
    prob_random <- pydiv (1 - damping_factor) (len probability) ;;
    for_each (dict_keys probability)
      (fun page_name pr => dict_add pr page_name prob_random) probability.

(** ** [sample_pagerank] *)

(** [random.choice(seq)]: [IndexError] on an empty sequence; otherwise the
    element at an index below [len(seq)] taken from the entropy [c]. *)
Definition random_choice {A : Type} (c : nat) (seq : list A) : result A :=
  match nth_error seq (c mod List.length seq) with
  | Some x => Ok x
  | None => Raise IndexError
  end.

(** The inner [for page_name, probability in weight.items()] loop with its
    [break]: the first page whose running sum reaches [rand_choice], or
    [None] when the loop runs to its end. *)
Fixpoint scan (weight : Dict Q) (rand_choice prob : Q) : option page :=
  match weight with
  | [] => None
  | (page_name, probability) :: weight' =>
      let prob := prob + probability in
      if Qle_bool rand_choice prob then Some page_name
      else scan weight' rand_choice prob
  end.

(** [d[k] += 1] on the visit counters. *)
Definition dict_incr (d : Dict Z) (k : page) : result (Dict Z) :=
  v <- dict_get d k ;; Ok (dict_set d k (v + 1)%Z).

(** One pass through the body of [for i in range(n-1)]. *)
Definition draw_step (corpus : Corpus) (damping_factor : Q) (rand_choice : Q)
    (st : page * Dict Z) : result (page * Dict Z) :=
  let '(curr_page, pagerank) := st in
  weight <- transition_model corpus curr_page damping_factor ;;
  let curr_page :=
    match scan weight rand_choice 0 with
    | Some page_name => page_name
    | None => curr_page
    end in
  pagerank <- dict_incr pagerank curr_page ;;
  Ok (curr_page, pagerank).

(** The state after the sampling loop: the last page and the counters.
    [start] feeds [random.choice], [rnd i] is the value of the [i]-th call
    of [random.random]. *)
Definition sample_counts (corpus : Corpus) (damping_factor : Q) (n : Z)
    (start : nat) (rnd : nat -> Q) : result (page * Dict Z) :=
  let pagerank :=
    fold_left (fun pr page_name => dict_set pr page_name 0%Z)
              (dict_keys corpus) [] in
  curr_page <- random_choice start (dict_keys pagerank) ;;
  pagerank <- dict_incr pagerank curr_page ;;
  for_each (seq 0 (Z.to_nat (n - 1)))
    (fun i st => draw_step corpus damping_factor (rnd i) st)
    (curr_page, pagerank).

(** [for page_name, count in pagerank.items(): pagerank[page_name] = count / n] *)
Fixpoint divide_counts (pagerank : Dict Z) (n : Z) : result (Dict Q) :=
  match pagerank with
  | [] => Ok []
  | (page_name, count) :: rest =>
      r <- pydiv (inject_Z count) (inject_Z n) ;;
      rest' <- divide_counts rest n ;;
      Ok ((page_name, r) :: rest')
  end.

Definition sample_pagerank (corpus : Corpus) (damping_factor : Q) (n : Z)
    (start : nat) (rnd : nat -> Q) : result (Dict Q) :=
  st <- sample_counts corpus damping_factor n start rnd ;;
  divide_counts (snd st) n.

(** ** [iterate_pagerank] *)

(** A slot of [new_pagerank]: a float, or [None] before its first update. *)
Definition as_float (v : option Q) : result Q :=
  match v with
  | Some x => Ok x
  | None => Raise TypeError
  end.

(** [sum(values)] *)
Definition py_sum (values : list (option Q)) : result Q :=
  for_each values (fun v acc => x <- as_float v ;; Ok (acc + x)) 0.

(** [max(a, b)]: the first argument unless the second is larger. *)
Definition py_max (a b : Q) : Q := if Qle_bool b a then a else b.

(** [new_pagerank.copy()], read back as a table of floats. *)
Fixpoint dict_copy (d : Dict (option Q)) : result (Dict Q) :=
  match d with
  | [] => Ok []
  | (k, v) :: d' =>
      x <- as_float v ;; rest <- dict_copy d' ;; Ok ((k, x) :: rest)
  end.

(** Lines 131-135: the two constants and the two tables. *)
Definition iterate_init (corpus : Corpus) (damping_factor : Q)
  : result (Q * Q * Dict Q * Dict (option Q)) :=
  prob_random <- pydiv (1 - damping_factor) (len corpus) ;;
  prob_all <- pydiv 1 (len corpus) ;;
  let '(pagerank, new_pagerank) :=
    fold_left
      (fun '(pr, npr) page_name =>
         (dict_set pr page_name prob_random, dict_set npr page_name None))
      (dict_keys corpus) ([], []) in
  Ok (prob_random, prob_all, pagerank, new_pagerank).

(** Lines 143-148: the inner loop over [other_page]. *)
Definition prob_choice_of (corpus : Corpus) (prob_all : Q) (pagerank : Dict Q)
    (pg : page) : result Q :=
  for_each (dict_keys corpus)
    (fun other_page prob_choice =>
       links <- dict_get corpus other_page ;;
       if Nat.eqb (List.length links) 0 then
         r <- dict_get pagerank other_page ;;
         Ok (prob_choice + r * prob_all)
       else if mem pg links then
         r <- dict_get pagerank other_page ;;
         x <- pydiv r (len links) ;;
         Ok (prob_choice + x)
       else Ok prob_choice)
    0.

(** Lines 142-150: the update pass.  It writes [new_pagerank] and reads
    [pagerank]. *)
Definition update_pass (corpus : Corpus) (damping_factor prob_random prob_all : Q)
    (pagerank : Dict Q) (new_pagerank : Dict (option Q))
  : result (Dict (option Q)) :=
  for_each (dict_keys corpus)
    (fun pg npr =>
       prob_choice <- prob_choice_of corpus prob_all pagerank pg ;;
       Ok (dict_set npr pg (Some (prob_random + damping_factor * prob_choice))))
    new_pagerank.

(** Lines 152-154: renormalisation.  Each slot is read when its turn comes. *)
Definition normalize (new_pagerank : Dict (option Q)) : result (Dict (option Q)) :=
  total_prob <- py_sum (dict_values new_pagerank) ;;
  for_each (dict_keys new_pagerank)
    (fun pg npr =>
       v <- dict_get npr pg ;;
       rank <- as_float v ;;
       x <- pydiv rank total_prob ;;
       Ok (dict_set npr pg (Some x)))
    new_pagerank.

(** Lines 156-158. *)
Definition max_change_of (corpus : Corpus) (pagerank : Dict Q)
    (new_pagerank : Dict (option Q)) : result Q :=
  for_each (dict_keys corpus)
    (fun pg max_change =>
       a <- dict_get pagerank pg ;;
       v <- dict_get new_pagerank pg ;;
       b <- as_float v ;;
       let rank_change := Qabs (a - b) in
       Ok (py_max max_change rank_change))
    0.

(** The state of the loop: [pagerank], [new_pagerank] and [max_change]. *)
Definition loop_state : Type := (Dict Q * Dict (option Q) * Q)%type.

(** Lines 140-160: one pass through the body of the [while]. *)
Definition round (corpus : Corpus) (damping_factor prob_random prob_all : Q)
    (st : loop_state) : result loop_state :=
  let '(pagerank, new_pagerank, _) := st in
  new_pagerank <- update_pass corpus damping_factor prob_random prob_all
                    pagerank new_pagerank ;;
  new_pagerank <- normalize new_pagerank ;;
  max_change <- max_change_of corpus pagerank new_pagerank ;;
  pagerank <- dict_copy new_pagerank ;;
  Ok (pagerank, new_pagerank, max_change).

(** The tolerance [0.001] of line 139. *)
Definition tolerance : Q := 1 # 1000.

(** What a run on fuel ends in. *)
Inductive outcome (A : Type) : Type :=
| Returned (a : A)
| Raised (e : exn)
| OutOfFuel.

Arguments Returned {A} a.
Arguments Raised {A} e.
Arguments OutOfFuel {A}.

(** [while max_change > 0.001: ...; return pagerank].  The only exit is the
    loop test; [fuel] bounds the number of passes of the model. *)
Fixpoint iterate_loop (fuel : nat) (corpus : Corpus)
    (damping_factor prob_random prob_all : Q) (st : loop_state)
  : outcome (Dict Q) :=
  let '(pagerank, _, max_change) := st in
  if Qle_bool max_change tolerance then Returned pagerank
  else
    match fuel with
    | O => OutOfFuel
    | S fuel' =>
        match round corpus damping_factor prob_random prob_all st with
        | Raise e => Raised e
        | Ok st' =>
            iterate_loop fuel' corpus damping_factor prob_random prob_all st'
        end
    end.

Definition iterate_pagerank (fuel : nat) (corpus : Corpus) (damping_factor : Q)
  : outcome (Dict Q) :=
  match iterate_init corpus damping_factor with
  | Raise e => Raised e
  | Ok (prob_random, prob_all, pagerank, new_pagerank) =>
      iterate_loop fuel corpus damping_factor prob_random prob_all
                   (pagerank, new_pagerank, 1)
  end.

(** ** The Graph invariants *)

Record Graph_ok (corpus : Corpus) : Prop := {
  (* a dict has each key once, a set each element once *)
  keys_nodup : NoDup (dict_keys corpus);
  links_nodup : forall q links, In (q, links) corpus -> NoDup links;
  (* (a) every link target is a key *)
  links_closed :
    forall q links p, In (q, links) corpus -> In p links -> In p (dict_keys corpus);
  (* (b) no page links to itself *)
  no_self_link : forall q links, In (q, links) corpus -> ~ In q links;
  (* (c) at least one entry *)
  graph_nonempty : corpus <> []
}.

Fixpoint nodupb (l : list page) : bool :=
  match l with
  | [] => true
  | x :: l' => negb (mem x l') && nodupb l'
  end.

Definition check_graph (corpus : Corpus) : bool :=
  nodupb (dict_keys corpus)
  && forallb (fun e => nodupb (snd e)) corpus
  && forallb (fun e => forallb (fun p => mem p (dict_keys corpus)) (snd e)) corpus
  && forallb (fun e => negb (mem (fst e) (snd e))) corpus
  && negb (Nat.eqb (List.length corpus) 0).

(** ** Test data *)

Definition corpus3 : Corpus :=
  [("A", ["B"]); ("B", ["A"; "C"]); ("C", [])]%string.

Definition corpus2 : Corpus :=
  [("1.html", ["2.html"]); ("2.html", ["1.html"])]%string.

(** ** Vocabulary of the specification *)

(** The sum of a list of rationals. *)
Definition sumQ (l : list Q) : Q := fold_right Qplus 0 l.

(** The sum of a list of counters. *)
Definition sumZ (l : list Z) : Z := fold_right Z.add 0%Z l.

(** [links(q)]: the outbound set of [q] (empty when [q] is no key). *)
Definition links_of (corpus : Corpus) (q : page) : list page :=
  match dict_get corpus q with
  | Ok links => links
  | Raise _ => []
  end.

(** The entry of a table at a page ([0] when the page is no key). *)
Definition rank_of (table : Dict Q) (p : page) : Q :=
  match dict_get table p with
  | Ok v => v
  | Raise _ => 0
  end.

Definition count_of (counters : Dict Z) (p : page) : Z :=
  match dict_get counters p with
  | Ok v => v
  | Raise _ => 0%Z
  end.

(** [contribution(q, p)] of the update equation, over the table [PR]. *)
Definition contribution (corpus : Corpus) (PR : Dict Q) (q p : page) : Q :=
  if mem p (links_of corpus q) then rank_of PR q / len (links_of corpus q)
  else if Nat.eqb (List.length (links_of corpus q)) 0 then rank_of PR q / len corpus
  else 0.

(** The right-hand side of the update equation at page [p]. *)
Definition pagerank_equation (corpus : Corpus) (damping : Q) (PR : Dict Q)
    (p : page) : Q :=
  (1 - damping) / len corpus
  + damping * sumQ (map (fun q => contribution corpus PR q p) (dict_keys corpus)).

(** The value [transition_model] gives to page [k] when the current page
    has the outbound set [links]. *)
Definition transition_value (corpus : Corpus) (links : list page)
    (damping_factor : Q) (k : page) : Q :=
  if Nat.eqb (List.length links) 0 then 0 + 1 / len corpus
  else (if mem k links then 0 + damping_factor / len links else 0)
       + (1 - damping_factor) / len corpus.

(** Every counter is a count. *)
Definition counts_nonneg (pr : Dict Z) : Prop := forall p, (0 <= count_of pr p)%Z.

(** The closed forms of the passes of a round of [iterate_pagerank]. *)

(** One step of the inner loop of lines 144-148. *)
Definition prob_choice_step (corpus : Corpus) (prob_all : Q) (pagerank : Dict Q)
    (pg : page) (prob_choice : Q) (other_page : page) : Q :=
  let links := links_of corpus other_page in
  if Nat.eqb (List.length links) 0 then
    prob_choice + rank_of pagerank other_page * prob_all
  else if mem pg links then
    prob_choice + rank_of pagerank other_page / len links
  else prob_choice.

(** The value line 150 stores for [pg]. *)
Definition new_rank (corpus : Corpus) (damping_factor prob_random prob_all : Q)
    (pagerank : Dict Q) (pg : page) : Q :=
  prob_random
  + damping_factor
    * fold_left (prob_choice_step corpus prob_all pagerank pg) (dict_keys corpus) 0.

(** [total_prob] of line 152. *)
Definition total_prob_of (corpus : Corpus) (damping_factor prob_random prob_all : Q)
    (pagerank : Dict Q) : Q :=
  fold_left Qplus
    (map (new_rank corpus damping_factor prob_random prob_all pagerank)
         (dict_keys corpus)) 0.

(** The table a round leaves in [pagerank]. *)
Definition next_table (corpus : Corpus) (damping_factor prob_random prob_all : Q)
    (pagerank : Dict Q) : Dict Q :=
  map (fun k =>
         (k, new_rank corpus damping_factor prob_random prob_all pagerank k
             / total_prob_of corpus damping_factor prob_random prob_all pagerank))
      (dict_keys corpus).

(** [max_change] after the loop of lines 156-158. *)
Definition max_change_val (keys : list page) (old new : Dict Q) : Q :=
  fold_left (fun m k => py_max m (Qabs (rank_of old k - rank_of new k))) keys 0.

(** The transition weight from [q] to [p]. *)
Definition weight (corpus : Corpus) (q p : page) : Q :=
  if mem p (links_of corpus q) then 1 / len (links_of corpus q)
  else if Nat.eqb (List.length (links_of corpus q)) 0 then 1 / len corpus
  else 0.

(** The distance between two tables: the sum of the per-page differences. *)
Definition dist1 (keys : list page) (a b : Dict Q) : Q :=
  sumQ (map (fun k => Qabs (rank_of a k - rank_of b k)) keys).

(** [k] passes through the body of the [while], whatever the loop test. *)
Fixpoint rounds (k : nat) (corpus : Corpus)
    (damping_factor prob_random prob_all : Q) (st : loop_state)
  : result loop_state :=
  match k with
  | O => Ok st
  | S k' =>
      st' <- round corpus damping_factor prob_random prob_all st ;;
      rounds k' corpus damping_factor prob_random prob_all st'
  end.

(** [d ^ k] *)
Fixpoint qpow (d : Q) (k : nat) : Q :=
  match k with
  | O => 1
  | S k' => d * qpow d k'
  end.

(** A rank table over the pages of the corpus, without negative entries. *)
Definition table_ok (corpus : Corpus) (t : Dict Q) : Prop :=
  dict_keys t = dict_keys corpus
  /\ forall k, In k (dict_keys corpus) -> 0 <= rank_of t k.

(** A rank table that is a probability distribution. *)
Definition stochastic (corpus : Corpus) (t : Dict Q) : Prop :=
  table_ok corpus t /\ sumQ (map (rank_of t) (dict_keys corpus)) == 1.

(** The table in [pagerank] after [k] rounds from the table [t]. *)
Fixpoint table_after (k : nat) (corpus : Corpus)
    (damping_factor prob_random prob_all : Q) (t : Dict Q) : Dict Q :=
  match k with
  | O => t
  | S k' =>
      table_after k' corpus damping_factor prob_random prob_all
        (next_table corpus damping_factor prob_random prob_all t)
  end.

(** ** [crawl] *)

(** [s.endswith(suffix)] *)
Fixpoint endswith (s suffix : string) : bool :=
  if String.eqb s suffix then true
  else
    match s with
    | EmptyString => false
    | String _ s' => endswith s' suffix
    end.

(** [set(l)]: the elements of [l], each once. *)
Definition set_of (l : list page) : list page := nodup string_dec l.

(** [s - {x}] *)
Definition set_remove (x : page) (s : list page) : list page :=
  filter (fun y => negb (String.eqb y x)) s.

(** An entry of the directory: a name, and what [open] and [f.read()] do
    for it, the text of the file or an exception (a sub-directory, a file
    that may not be read, bytes that do not decode). *)
Definition dir_entry : Type := (string * result string)%type.

(** Lines 33-39.  [directory] is what [os.listdir] returned; [findall] is
    [re.findall] at the pattern of line 38.  Only a name that ends in
    [.html] is opened. *)
Definition crawl_extract (findall : string -> list string)
    (directory : list dir_entry) : result Corpus :=
  for_each directory
    (fun entry pages =>
       let '(filename, file) := entry in
       if negb (endswith filename ".html") then Ok pages
       else
         contents <- file ;;
         let links := findall contents in
         Ok (dict_set pages filename (set_remove filename (set_of links))))
    [].

(** Lines 42-46.  The keys are read once; each value is read and replaced
    when its turn comes. *)
Definition crawl_restrict (pages : Corpus) : result Corpus :=
  for_each (dict_keys pages)
    (fun filename pages =>
       links <- dict_get pages filename ;;
       Ok (dict_set pages filename
             (set_of (filter (fun link => mem link (dict_keys pages)) links))))
    pages.

(** [listing] is what [os.listdir(directory)] does: the entries, or an
    exception. *)
Definition crawl (findall : string -> list string)
    (listing : result (list dir_entry)) : result Corpus :=
  directory <- listing ;;
  pages <- crawl_extract findall directory ;;
  crawl_restrict pages.

(** The names of the directory that [crawl] opens. *)
Definition html_files {A : Type} (directory : list (string * A)) : list string :=
  filter (fun filename => endswith filename ".html") (map fst directory).

(** Every name that [crawl] opens can be read. *)
Definition readable (directory : list dir_entry) : Prop :=
  forall f e, In (f, Raise e) directory -> endswith f ".html" = false.

(** The directory with the text of each entry (none for an entry that
    cannot be read). *)
Definition texts (directory : list dir_entry) : list (string * string) :=
  map (fun entry =>
         (fst entry,
          match snd entry with Ok contents => contents | Raise _ => EmptyString end))
      directory.

(** The first loop and the whole of [crawl] on texts, where nothing fails. *)
Definition crawl_fold (findall : string -> list string)
    (directory : list (string * string)) : Corpus :=
  fold_left
    (fun pages entry =>
       let '(filename, contents) := entry in
       if negb (endswith filename ".html") then pages
       else
         let links := findall contents in
         dict_set pages filename (set_remove filename (set_of links)))
    directory [].

Definition crawl_pure (findall : string -> list string)
    (directory : list (string * string)) : result Corpus :=
  crawl_restrict (crawl_fold findall directory).


(** The running sum of the scan after the entries of [w]. *)
Definition cumulative (prob : Q) (w : Dict Q) : Q :=
  fold_left Qplus (dict_values w) prob.

(** What the first loop of [crawl] keeps true of [pages]. *)
Definition extract_ok (pages : Corpus) : Prop :=
  NoDup (dict_keys pages)
  /\ forall f links, In (f, links) pages -> NoDup links /\ ~ In f links.

(** ** [main] *)

Definition DAMPING : Q := 85 # 100.

Definition SAMPLES : Z := 10000.

(** Lines 13, 14 and 18 of [main]: the corpus of the directory and the two
    tables that are printed.  The check of [sys.argv] and the printing are
    left out. *)
Definition main_ranks (fuel : nat) (findall : string -> list string)
    (listing : result (list dir_entry)) (start : nat) (rnd : nat -> Q)
  : outcome (Dict Q * Dict Q) :=
  match crawl findall listing with
  | Raise e => Raised e
  | Ok corpus =>
      match sample_pagerank corpus DAMPING SAMPLES start rnd with
      | Raise e => Raised e
      | Ok sampled =>
          match iterate_pagerank fuel corpus DAMPING with
          | Returned iterated => Returned (sampled, iterated)
          | Raised e => Raised e
          | OutOfFuel => OutOfFuel
          end
      end
  end.

(** ** The walk of [sample_pagerank] *)

(** The page the surfer is on after one pass of the loop of lines 98-110,
    from the page [curr] and with the draw [r]. *)
Definition next_page (corpus : Corpus) (damping_factor : Q) (curr : page)
    (r : Q) : page :=
  match transition_model corpus curr damping_factor with
  | Ok weight =>
      match scan weight r 0 with
      | Some page_name => page_name
      | None => curr
      end
  | Raise _ => curr
  end.

(** The pages of [k] passes, the first with the draw [rnd i]. *)
Fixpoint walk (corpus : Corpus) (damping_factor : Q) (rnd : nat -> Q)
    (i k : nat) (curr : page) : list page :=
  match k with
  | O => []
  | S k' =>
      let p := next_page corpus damping_factor curr (rnd i) in
      p :: walk corpus damping_factor rnd (S i) k' p
  end.

(** The pages visited by a run with [n] samples: the page [random.choice]
    picked, then one page for each pass of the loop. *)
Definition visits (corpus : Corpus) (damping_factor : Q) (n : Z) (start : nat)
    (rnd : nat -> Q) : list page :=
  match random_choice start (dict_keys corpus) with
  | Ok p0 => p0 :: walk corpus damping_factor rnd 0 (Z.to_nat (n - 1)) p0
  | Raise _ => []
  end.

(** ** [iterate_pagerank] on binary64

    The ranks of [iterate_pagerank] are Python floats.  The definitions above
    read them as exact rationals; the module below is the same code, lines
    129-162, over the binary64 numbers of the machine, every operation
    rounded as Python rounds it.  [sum] is a parameter: CPython up to 3.11
    adds from the left, CPython from 3.12 on adds with Neumaier's
    compensation. *)
Module F64.
Import Floats.PrimFloat.
Local Open Scope float_scope.

(** [float(n)] for a length [n]; counting by ones is exact below [2^53]. *)
Fixpoint float_of_nat (n : nat) : float :=
  match n with
  | O => 0
  | S k => float_of_nat k + 1
  end.

Definition flen {A : Type} (l : list A) : float :=
  float_of_nat (List.length l).

(** [a / b] on floats: [ZeroDivisionError] when [b] is [0.0] or [-0.0]. *)
Definition pydiv (a b : float) : result float :=
  if PrimFloat.eqb b 0 then Raise ZeroDivisionError else Ok (a / b).

(** [sum(values)], CPython up to 3.11. *)
Definition sum_left (values : list float) : float :=
  fold_left PrimFloat.add values 0.

Definition neumaier_step (st : float * float) (x : float) : float * float :=
  let '(f_result, c) := st in
  let t := f_result + x in
  let c' := if PrimFloat.leb (abs x) (abs f_result)
            then c + ((f_result - t) + x)
            else c + ((x - t) + f_result) in
  (t, c').

Definition is_finite (x : float) : bool :=
  PrimFloat.ltb (abs x) infinity.

(** [sum(values)], CPython 3.12 and later. *)
Definition sum_neumaier (values : list float) : float :=
  let '(f_result, c) := fold_left neumaier_step values (0, 0) in
  if negb (PrimFloat.eqb c 0) && is_finite c then f_result + c else f_result.

Definition as_float (v : option float) : result float :=
  match v with
  | Some x => Ok x
  | None => Raise TypeError
  end.

Fixpoint all_floats (l : list (option float)) : result (list float) :=
  match l with
  | [] => Ok []
  | v :: l' => x <- as_float v ;; r <- all_floats l' ;; Ok (x :: r)
  end.

(** [max(a, b)]: [b] when [b > a], else [a]. *)
Definition py_max (a b : float) : float :=
  if PrimFloat.ltb a b then b else a.

Fixpoint dict_copy (d : Dict (option float)) : result (Dict float) :=
  match d with
  | [] => Ok []
  | (k, v) :: d' =>
      x <- as_float v ;; rest <- dict_copy d' ;; Ok ((k, x) :: rest)
  end.

(** Lines 129-135. *)
Definition iterate_init (corpus : Corpus) (damping_factor : float)
  : result (float * float * Dict float * Dict (option float)) :=
  prob_random <- pydiv (1 - damping_factor) (flen corpus) ;;
  prob_all <- pydiv 1 (flen corpus) ;;
  let '(pagerank, new_pagerank) :=
    fold_left (fun '(pr, npr) page_name =>
        (dict_set pr page_name prob_random,
         dict_set npr page_name (@None float)))
      (dict_keys corpus) ([], []) in
  Ok (prob_random, prob_all, pagerank, new_pagerank).

(** Lines 143-148. *)
Definition prob_choice_of (corpus : Corpus) (prob_all : float)
    (pagerank : Dict float) (pg : page) : result float :=
  for_each (dict_keys corpus)
    (fun other_page prob_choice =>
       links <- dict_get corpus other_page ;;
       if Nat.eqb (List.length links) 0 then
         r <- dict_get pagerank other_page ;;
         Ok (prob_choice + r * prob_all)
       else if mem pg links then
         r <- dict_get pagerank other_page ;;
         x <- pydiv r (flen links) ;;
         Ok (prob_choice + x)
       else Ok prob_choice) 0.

(** Lines 142-150. *)
Definition update_pass (corpus : Corpus)
    (damping_factor prob_random prob_all : float)
    (pagerank : Dict float) (new_pagerank : Dict (option float))
  : result (Dict (option float)) :=
  for_each (dict_keys corpus)
    (fun pg npr =>
       prob_choice <- prob_choice_of corpus prob_all pagerank pg ;;
       Ok (dict_set npr pg
             (Some (prob_random + damping_factor * prob_choice))))
    new_pagerank.

(** Lines 152-154. *)
Definition normalize (sum : list float -> float)
    (new_pagerank : Dict (option float)) : result (Dict (option float)) :=
  values <- all_floats (dict_values new_pagerank) ;;
  let total_prob := sum values in
  for_each (dict_keys new_pagerank)
    (fun pg npr =>
       v <- dict_get npr pg ;;
       rank <- as_float v ;;
       x <- pydiv rank total_prob ;;
       Ok (dict_set npr pg (Some x)))
    new_pagerank.

(** Lines 156-158. *)
Definition max_change_of (corpus : Corpus) (pagerank : Dict float)
    (new_pagerank : Dict (option float)) : result float :=
  for_each (dict_keys corpus)
    (fun pg max_change =>
       a <- dict_get pagerank pg ;;
       v <- dict_get new_pagerank pg ;;
       b <- as_float v ;;
       Ok (py_max max_change (abs (a - b)))) 0.

Definition loop_state : Type :=
  (Dict float * Dict (option float) * float)%type.

(** One pass of the [while] body, lines 140-160. *)
Definition round (sum : list float -> float) (corpus : Corpus)
    (damping_factor prob_random prob_all : float) (st : loop_state)
  : result loop_state :=
  let '(pagerank, new_pagerank, _) := st in
  new_pagerank <-
    update_pass corpus damping_factor prob_random prob_all
      pagerank new_pagerank ;;
  new_pagerank <- normalize sum new_pagerank ;;
  max_change <- max_change_of corpus pagerank new_pagerank ;;
  pagerank <- dict_copy new_pagerank ;;
  Ok (pagerank, new_pagerank, max_change).

Fixpoint rounds (k : nat) (sum : list float -> float) (corpus : Corpus)
    (damping_factor prob_random prob_all : float) (st : loop_state)
  : result loop_state :=
  match k with
  | O => Ok st
  | S k' =>
      st' <- round sum corpus damping_factor prob_random prob_all st ;;
      rounds k' sum corpus damping_factor prob_random prob_all st'
  end.

(** The float that Python reads [0.001] as. *)
Definition tolerance : float := 0x1.0624dd2f1a9fcp-10.

(** [while max_change > 0.001], with [fuel] passes allowed. *)
Fixpoint iterate_loop (fuel : nat) (sum : list float -> float)
    (corpus : Corpus) (damping_factor prob_random prob_all : float)
    (st : loop_state) : outcome (Dict float) :=
  let '(pagerank, _, max_change) := st in
  if PrimFloat.ltb tolerance max_change then
    match fuel with
    | O => OutOfFuel
    | S fuel' =>
        match round sum corpus damping_factor prob_random prob_all st with
        | Raise e => Raised e
        | Ok st' =>
            iterate_loop fuel' sum corpus damping_factor prob_random
              prob_all st'
        end
    end
  else Returned pagerank.

Definition iterate_pagerank (fuel : nat) (sum : list float -> float)
    (corpus : Corpus) (damping_factor : float) : outcome (Dict float) :=
  match iterate_init corpus damping_factor with
  | Raise e => Raised e
  | Ok (prob_random, prob_all, pagerank, new_pagerank) =>
      iterate_loop fuel sum corpus damping_factor prob_random prob_all
        (pagerank, new_pagerank, 1)
  end.

(** The largest float below 1, [1 - 2**-53] in Python. *)
Definition below_one : float := 1 - 0x1p-53.

(** The float that Python reads [DAMPING = 0.85] as. *)
Definition DAMPING : float := 0x1.b333333333333p-1.

End F64.

(** Four pages in a ring with a tail: a graph. *)
Definition corpus4 : Corpus :=
  [("A", ["B"]); ("B", ["C"]); ("C", ["A"]); ("D", ["A"])]%string.

(** * Proofs *)

(** ** The error monad *)

Lemma for_each_cons {A S : Type} (x : A) (l : list A)
    (body : A -> S -> result S) (s : S) :
  for_each (x :: l) body s = (s' <- body x s ;; for_each l body s').
Proof. reflexivity. Qed.

(** ** Membership *)

Lemma mem_true_iff (p : page) (s : list page) : mem p s = true <-> In p s.
Proof.
  unfold mem. rewrite existsb_exists. split.
  - intros [x [Hx Heq]]. apply String.eqb_eq in Heq. now subst.
  - intros H. exists p. split; [assumption | apply String.eqb_refl].
Qed.

Lemma mem_false_iff (p : page) (s : list page) : mem p s = false <-> ~ In p s.
Proof.
  rewrite <- mem_true_iff. destruct (mem p s); split; intros; congruence.
Qed.

Lemma nodupb_sound (l : list page) : nodupb l = true -> NoDup l.
Proof.
  induction l as [|x l IH]; simpl; intros H.
  - constructor.
  - apply andb_true_iff in H. destruct H as [Hx Hl].
    constructor; [|auto].
    apply mem_false_iff. now destruct (mem x l).
Qed.

Lemma check_graph_sound (corpus : Corpus) :
  check_graph corpus = true -> Graph_ok corpus.
Proof.
  unfold check_graph. intros H.
  apply andb_true_iff in H. destruct H as [H Hne].
  apply andb_true_iff in H. destruct H as [H Hself].
  apply andb_true_iff in H. destruct H as [H Hclosed].
  apply andb_true_iff in H. destruct H as [Hkeys Hlinks].
  rewrite forallb_forall in Hself, Hclosed, Hlinks.
  constructor.
  - now apply nodupb_sound.
  - intros q links Hin. apply nodupb_sound. exact (Hlinks _ Hin).
  - intros q links p Hin Hp. apply mem_true_iff.
    specialize (Hclosed _ Hin). rewrite forallb_forall in Hclosed.
    now apply Hclosed.
  - intros q links Hin. apply mem_false_iff.
    specialize (Hself _ Hin). simpl in Hself. now destruct (mem q links).
  - intros ->. discriminate.
Qed.

(** ** Dictionaries *)

Section DictFacts.
Context {V : Type}.
Implicit Types (d : Dict V) (k : page) (v : V).

Lemma dict_get_set d k k' v :
  dict_get (dict_set d k v) k' = if String.eqb k' k then Ok v else dict_get d k'.
Proof.
  induction d as [|[k0 v0] d IH]; simpl.
  - reflexivity.
  - destruct (String.eqb_spec k k0) as [->|Hk]; simpl.
    + destruct (String.eqb k' k0); reflexivity.
    + rewrite IH. destruct (String.eqb_spec k' k0) as [->|Hk'].
      * destruct (String.eqb_spec k0 k); congruence.
      * reflexivity.
Qed.

Lemma dict_get_set_same d k v : dict_get (dict_set d k v) k = Ok v.
Proof. rewrite dict_get_set, String.eqb_refl. reflexivity. Qed.

Lemma dict_get_set_other d k k' v :
  k' <> k -> dict_get (dict_set d k v) k' = dict_get d k'.
Proof.
  intros H. rewrite dict_get_set.
  destruct (String.eqb_spec k' k); congruence.
Qed.

Lemma dict_set_keys d k v :
  In k (dict_keys d) -> dict_keys (dict_set d k v) = dict_keys d.
Proof.
  induction d as [|[k0 v0] d IH]; simpl; intros H.
  - contradiction.
  - destruct (String.eqb_spec k k0) as [->|Hk]; simpl.
    + reflexivity.
    + f_equal. apply IH. destruct H; congruence.
Qed.

Lemma dict_set_keys_new d k v :
  ~ In k (dict_keys d) -> dict_set d k v = d ++ [(k, v)].
Proof.
  induction d as [|[k0 v0] d IH]; simpl; intros H.
  - reflexivity.
  - destruct (String.eqb_spec k k0) as [->|Hk].
    + tauto.
    + f_equal. apply IH. tauto.
Qed.

Lemma dict_get_key d k :
  In k (dict_keys d) -> exists v, dict_get d k = Ok v /\ In (k, v) d.
Proof.
  induction d as [|[k0 v0] d IH]; simpl; intros H.
  - contradiction.
  - destruct (String.eqb_spec k k0) as [->|Hk].
    + exists v0. auto.
    + destruct H as [H|H]; [congruence|].
      destruct (IH H) as [v [Hv Hin]]. exists v. auto.
Qed.

Lemma dict_get_ok_key d k v : dict_get d k = Ok v -> In k (dict_keys d).
Proof.
  induction d as [|[k0 v0] d IH]; simpl; intros H.
  - discriminate.
  - destruct (String.eqb_spec k k0) as [->|Hk]; auto.
Qed.

Lemma dict_get_ok_in d k v : dict_get d k = Ok v -> In (k, v) d.
Proof.
  induction d as [|[k0 v0] d IH]; simpl; intros H.
  - discriminate.
  - destruct (String.eqb_spec k k0) as [->|Hk]; [left; congruence | auto].
Qed.

Lemma dict_get_in d k v :
  NoDup (dict_keys d) -> In (k, v) d -> dict_get d k = Ok v.
Proof.
  induction d as [|[k0 v0] d IH]; simpl; intros Hnd Hin.
  - contradiction.
  - inversion Hnd as [|? ? Hk0 Hnd']; subst.
    destruct Hin as [Heq|Hin].
    + inversion Heq; subst. now rewrite String.eqb_refl.
    + destruct (String.eqb_spec k k0) as [->|Hk]; [|auto].
      exfalso. apply Hk0. change k0 with (fst (k0, v)). now apply in_map.
Qed.

(** A table is determined by its keys and its lookups. *)
Lemma dict_by_lookup d (f : page -> V) :
  NoDup (dict_keys d) ->
  (forall k, In k (dict_keys d) -> dict_get d k = Ok (f k)) ->
  d = map (fun k => (k, f k)) (dict_keys d).
Proof.
  induction d as [|[k0 v0] d IH]; simpl; intros Hnd Hget.
  - reflexivity.
  - inversion Hnd as [|? ? Hk0 Hnd']; subst.
    pose proof (Hget k0 (or_introl eq_refl)) as H0.
    rewrite String.eqb_refl in H0. inversion H0 as [Hv].
    rewrite <- Hv. f_equal. apply IH; [assumption|].
    intros k Hk. specialize (Hget k (or_intror Hk)).
    destruct (String.eqb_spec k k0) as [Heq|Hne]; [|assumption].
    rewrite Heq in Hk. contradiction.
Qed.

(** The initialisation loop [for k in ks: d[k] = c]. *)
Lemma init_loop (ks : list page) (c : V) (acc : Dict V) :
  NoDup (dict_keys acc ++ ks) ->
  fold_left (fun pr page_name => dict_set pr page_name c) ks acc
  = acc ++ map (fun k => (k, c)) ks.
Proof.
  revert acc. induction ks as [|k ks IH]; intros acc Hnd; simpl.
  - now rewrite app_nil_r.
  - rewrite dict_set_keys_new.
    + rewrite IH.
      * now rewrite <- app_assoc.
      * unfold dict_keys. rewrite map_app. simpl. now rewrite <- app_assoc.
    + apply NoDup_remove_2 in Hnd. intros H. apply Hnd.
      apply in_or_app. now left.
Qed.
End DictFacts.

Lemma keys_of_const {V : Type} (ks : list page) (c : V) :
  dict_keys (map (fun k => (k, c)) ks) = ks.
Proof.
  unfold dict_keys. rewrite map_map. simpl. apply map_id.
Qed.

Lemma keys_of_map {V : Type} (ks : list page) (f : page -> V) :
  dict_keys (map (fun k => (k, f k)) ks) = ks.
Proof.
  unfold dict_keys. rewrite map_map. simpl. apply map_id.
Qed.

Lemma values_of_map {V : Type} (ks : list page) (f : page -> V) :
  dict_values (map (fun k => (k, f k)) ks) = map f ks.
Proof.
  unfold dict_values. rewrite map_map. reflexivity.
Qed.

Lemma get_of_map {V : Type} (ks : list page) (f : page -> V) (k : page) :
  In k ks -> dict_get (map (fun k => (k, f k)) ks) k = Ok (f k).
Proof.
  induction ks as [|k0 ks IH]; simpl; intros H.
  - contradiction.
  - destruct (String.eqb_spec k k0) as [->|Hne]; [reflexivity|].
    apply IH. destruct H; congruence.
Qed.

(** ** Arithmetic on lengths and division *)

Lemma len_pos {A : Type} (l : list A) : l <> [] -> 0 < len l.
Proof.
  intros H. unfold len. destruct l as [|x l]; [congruence|].
  change 0 with (inject_Z 0). rewrite <- Zlt_Qlt. simpl List.length. lia.
Qed.

Lemma len_nonneg {A : Type} (l : list A) : 0 <= len l.
Proof.
  unfold len. change 0 with (inject_Z 0). rewrite <- Zle_Qle. lia.
Qed.

Lemma len_map {A B : Type} (f : A -> B) (l : list A) : len (map f l) = len l.
Proof. unfold len. now rewrite length_map. Qed.

Lemma len_cons {A : Type} (x : A) (l : list A) : len (x :: l) == 1 + len l.
Proof.
  unfold len. simpl List.length. rewrite Nat2Z.inj_succ, <- Z.add_1_l.
  rewrite inject_Z_plus. reflexivity.
Qed.

Lemma Qmult_le_nonneg_l (c x y : Q) : 0 <= c -> x <= y -> c * x <= c * y.
Proof.
  intros Hc Hxy. rewrite (Qmult_comm c x), (Qmult_comm c y).
  now apply Qmult_le_compat_r.
Qed.

Lemma pydiv_ok (a b : Q) : ~ b == 0 -> pydiv a b = Ok (a / b).
Proof.
  intros H. unfold pydiv. destruct (Qeq_bool b 0) eqn:E; [|reflexivity].
  apply Qeq_bool_eq in E. contradiction.
Qed.

Lemma pydiv_zero (a b : Q) : b == 0 -> pydiv a b = Raise ZeroDivisionError.
Proof.
  intros H. unfold pydiv. apply Qeq_bool_iff in H. now rewrite H.
Qed.

Lemma pydiv_len {A : Type} (a : Q) (l : list A) :
  l <> [] -> pydiv a (len l) = Ok (a / len l).
Proof.
  intros H. apply pydiv_ok. pose proof (len_pos l H). lra.
Qed.

Lemma length_eqb_nil {A : Type} (l : list A) :
  Nat.eqb (List.length l) 0 = true <-> l = [].
Proof.
  destruct l; simpl; split; intros; congruence.
Qed.

(** ** Loops that add to the slots of a table *)

Lemma for_each_ext {A S : Type} (l : list A) (f g : A -> S -> result S) (s : S) :
  (forall x s', In x l -> f x s' = g x s') ->
  for_each l f s = for_each l g s.
Proof.
  revert s. induction l as [|x l IH]; intros s H; simpl.
  - reflexivity.
  - rewrite (H x s (or_introl eq_refl)).
    destruct (g x s); simpl; [|reflexivity].
    apply IH. intros y s' Hy. apply H. now right.
Qed.

Lemma rank_of_get (pr : Dict Q) (k : page) :
  In k (dict_keys pr) -> dict_get pr k = Ok (rank_of pr k).
Proof.
  intros H. unfold rank_of.
  destruct (dict_get_key pr k H) as [v [Hv _]]. now rewrite Hv.
Qed.

Lemma add_loop_get (l : list page) (c : Q) (pr : Dict Q) :
  incl l (dict_keys pr) -> NoDup l ->
  exists pr',
    for_each l (fun page_name pr => dict_add pr page_name c) pr = Ok pr'
    /\ dict_keys pr' = dict_keys pr
    /\ forall k, In k (dict_keys pr) ->
         dict_get pr' k = Ok (if mem k l then rank_of pr k + c else rank_of pr k).
Proof.
  revert pr. induction l as [|x l IH]; intros pr Hincl Hnd; simpl.
  - exists pr. repeat split. intros k Hk. now apply rank_of_get.
  - inversion Hnd as [|? ? Hx Hnd']; subst.
    assert (Hxk : In x (dict_keys pr)) by (apply Hincl; now left).
    unfold dict_add at 1. rewrite (rank_of_get pr x Hxk). simpl.
    set (pr1 := dict_set pr x (rank_of pr x + c)).
    assert (Hk1 : dict_keys pr1 = dict_keys pr) by now apply dict_set_keys.
    destruct (IH pr1) as [pr' [Hrun [Hkeys Hget]]].
    + rewrite Hk1. intros y Hy. apply Hincl. now right.
    + assumption.
    + exists pr'. split; [exact Hrun|]. split; [congruence|].
      intros k Hk. rewrite Hget by now rewrite Hk1.
      unfold rank_of at 1 2. unfold pr1. rewrite dict_get_set.
      destruct (String.eqb_spec k x) as [->|Hne]; simpl.
      * apply mem_false_iff in Hx. now rewrite Hx.
      * fold (rank_of pr k). reflexivity.
Qed.

(** The same loop in closed form. *)
Lemma add_loop (l : list page) (c : Q) (pr : Dict Q) :
  incl l (dict_keys pr) -> NoDup l -> NoDup (dict_keys pr) ->
  for_each l (fun page_name pr => dict_add pr page_name c) pr
  = Ok (map (fun k => (k, if mem k l then rank_of pr k + c else rank_of pr k))
            (dict_keys pr)).
Proof.
  intros Hincl Hnd Hkeys.
  destruct (add_loop_get l c pr Hincl Hnd) as [pr' [Hrun [Hk Hget]]].
  rewrite Hrun. f_equal. rewrite <- Hk.
  apply dict_by_lookup.
  - now rewrite Hk.
  - intros k Hin. apply Hget. now rewrite <- Hk.
Qed.

(** ** [transition_model] in closed form *)

Lemma rank_of_map (ks : list page) (f : page -> Q) (k : page) :
  In k ks -> rank_of (map (fun k => (k, f k)) ks) k = f k.
Proof.
  intros H. unfold rank_of. now rewrite get_of_map.
Qed.

Lemma map_pair_ext {V : Type} (ks : list page) (f g : page -> V) :
  (forall k, In k ks -> f k = g k) ->
  map (fun k => (k, f k)) ks = map (fun k => (k, g k)) ks.
Proof.
  intros H. apply map_ext_in. intros k Hk. now rewrite H.
Qed.

Lemma transition_model_closed_form (corpus : Corpus) (pg : page)
    (links : list page) (damping_factor : Q) :
  Graph_ok corpus ->
  dict_get corpus pg = Ok links ->
  transition_model corpus pg damping_factor
  = Ok (map (fun k => (k, transition_value corpus links damping_factor k))
            (dict_keys corpus)).
Proof.
  intros G Hget. unfold transition_model.
  pose proof (keys_nodup corpus G) as Hnd.
  assert (Hne : corpus <> []) by apply (graph_nonempty corpus G).
  rewrite init_loop by (simpl; assumption). simpl app.
  rewrite Hget. simpl bind.
  set (ks := dict_keys corpus).
  set (p0 := map (fun k : page => (k, 0)) ks).
  assert (Hk0 : dict_keys p0 = ks) by apply keys_of_const.
  unfold transition_value.
  destruct (Nat.eqb (List.length links) 0) eqn:Hsink.
  - rewrite (for_each_ext _ _ (fun page_name pr => dict_add pr page_name (1 / len corpus))).
    + rewrite add_loop; rewrite ?Hk0; auto using incl_refl.
      f_equal. apply map_pair_ext. intros k Hk.
      assert (Hm : mem k ks = true) by now apply mem_true_iff.
      rewrite Hm. unfold p0. now rewrite (rank_of_map ks (fun _ => 0)).
    + intros x s' _. now rewrite pydiv_len.
  - assert (Hl : links <> []).
    { intros ->. discriminate. }
    rewrite pydiv_len by assumption. simpl bind.
    assert (Hincl : incl links ks).
    { intros p Hp. apply dict_get_ok_in in Hget.
      exact (links_closed corpus G pg links p Hget Hp). }
    rewrite add_loop; rewrite ?Hk0; auto.
    2:{ apply dict_get_ok_in in Hget. exact (links_nodup corpus G pg links Hget). }
    simpl bind. rewrite len_map.
    fold (len corpus).
    replace (len ks) with (len corpus) by (unfold ks, dict_keys; now rewrite len_map).
    rewrite pydiv_len by assumption. simpl bind.
    rewrite keys_of_map.
    rewrite add_loop; rewrite ?keys_of_map; auto using incl_refl.
    f_equal. apply map_pair_ext. intros k Hk.
    assert (Hm : mem k ks = true) by now apply mem_true_iff.
    rewrite Hm.
    rewrite (rank_of_map ks
      (fun k => if mem k links then rank_of p0 k + damping_factor / len links
                else rank_of p0 k)) by assumption.
    unfold p0. rewrite (rank_of_map ks (fun _ => 0)) by assumption.
    destruct (mem k links); reflexivity.
Qed.

(** ** Finite sums of rationals *)

Section Sums.
Context {A : Type}.
Implicit Types (f g : A -> Q) (l : list A).

Lemma sumQ_map_ext f g l :
  (forall x, In x l -> f x == g x) -> sumQ (map f l) == sumQ (map g l).
Proof.
  induction l as [|x l IH]; simpl; intros H.
  - reflexivity.
  - rewrite (H x (or_introl eq_refl)), IH; [reflexivity|].
    intros y Hy. apply H. now right.
Qed.

Lemma sumQ_map_plus f g l :
  sumQ (map (fun x => f x + g x) l) == sumQ (map f l) + sumQ (map g l).
Proof.
  induction l as [|x l IH]; simpl; [|rewrite IH]; ring.
Qed.

Lemma sumQ_map_minus f g l :
  sumQ (map (fun x => f x - g x) l) == sumQ (map f l) - sumQ (map g l).
Proof.
  induction l as [|x l IH]; simpl; [|rewrite IH]; ring.
Qed.

Lemma sumQ_map_scal (c : Q) f l :
  sumQ (map (fun x => c * f x) l) == c * sumQ (map f l).
Proof.
  induction l as [|x l IH]; simpl; [|rewrite IH]; ring.
Qed.

Lemma sumQ_map_const (c : Q) l : sumQ (map (fun _ => c) l) == len l * c.
Proof.
  induction l as [|x l IH].
  - simpl. unfold len. simpl. ring.
  - simpl map. simpl sumQ. rewrite IH, len_cons. ring.
Qed.

Lemma sumQ_map_le f g l :
  (forall x, In x l -> f x <= g x) -> sumQ (map f l) <= sumQ (map g l).
Proof.
  induction l as [|x l IH]; simpl; intros H.
  - apply Qle_refl.
  - apply Qplus_le_compat; [apply H; now left|].
    apply IH. intros y Hy. apply H. now right.
Qed.

Lemma sumQ_map_nonneg f l :
  (forall x, In x l -> 0 <= f x) -> 0 <= sumQ (map f l).
Proof.
  induction l as [|x l IH]; simpl; intros H.
  - apply Qle_refl.
  - assert (0 <= f x) by (apply H; now left).
    assert (0 <= sumQ (map f l)) by (apply IH; intros; apply H; now right).
    lra.
Qed.

Lemma sumQ_map_abs f l :
  Qabs (sumQ (map f l)) <= sumQ (map (fun x => Qabs (f x)) l).
Proof.
  induction l as [|x l IH]; simpl.
  - apply Qle_refl.
  - eapply Qle_trans; [apply Qabs_triangle|].
    apply Qplus_le_compat; [apply Qle_refl | exact IH].
Qed.

End Sums.

Lemma sumQ_exchange {A B : Type} (f : A -> B -> Q) (la : list A) (lb : list B) :
  sumQ (map (fun a => sumQ (map (fun b => f a b) lb)) la)
  == sumQ (map (fun b => sumQ (map (fun a => f a b) la)) lb).
Proof.
  induction la as [|a la IH]; simpl.
  - induction lb as [|b lb IHb]; simpl; [reflexivity|].
    rewrite <- IHb. ring.
  - rewrite IH. rewrite <- sumQ_map_plus. reflexivity.
Qed.

(** The sum of [x] over the keys that belong to a set. *)
Lemma sumQ_single (ks : list page) (a : page) (x : Q) :
  NoDup ks -> In a ks ->
  sumQ (map (fun k => if String.eqb k a then x else 0) ks) == x.
Proof.
  induction ks as [|k ks IH]; simpl; intros Hnd Hin.
  - contradiction.
  - inversion Hnd as [|? ? Hk Hnd']; subst.
    destruct (String.eqb_spec k a) as [->|Hne].
    + rewrite (sumQ_map_ext _ (fun _ => 0)).
      * rewrite sumQ_map_const. ring.
      * intros y Hy. destruct (String.eqb_spec y a) as [->|_];
          [contradiction | reflexivity].
    + rewrite IH; [ring | assumption | destruct Hin; congruence].
Qed.

Lemma sumQ_indicator (ks links : list page) (x : Q) :
  NoDup ks -> NoDup links -> incl links ks ->
  sumQ (map (fun k => if mem k links then x else 0) ks) == len links * x.
Proof.
  intros Hks. induction links as [|a links IH]; intros Hnd Hincl.
  - simpl. rewrite sumQ_map_const. unfold len. simpl. ring.
  - inversion Hnd as [|? ? Ha Hnd']; subst.
    rewrite (sumQ_map_ext _
      (fun k => (if String.eqb k a then x else 0)
                + (if mem k links then x else 0))).
    + rewrite sumQ_map_plus, sumQ_single, IH, len_cons; auto.
      * ring.
      * intros y Hy. apply Hincl. now right.
      * apply Hincl. now left.
    + intros k _. simpl. destruct (String.eqb_spec k a) as [->|Hne]; simpl.
      * apply mem_false_iff in Ha. rewrite Ha. ring.
      * ring.
Qed.

Lemma len_keys {V : Type} (d : Dict V) : len (dict_keys d) = len d.
Proof. unfold dict_keys. apply len_map. Qed.

(** ** The claims on [transition_model] *)

(** C2. For a page with at least one outbound link, [transition_model]
    gives every page [p] of the graph the sum of [damping / |links(page)|]
    if [page] links to [p] (else [0]) and of [(1 - damping) / |graph|]. *)
Theorem transition_model_mixture (corpus : Corpus) (pg : page)
    (links : list page) (damping : Q) :
  Graph_ok corpus ->
  dict_get corpus pg = Ok links ->
  links <> [] ->
  0 <= damping <= 1 ->
  exists dist,
    transition_model corpus pg damping = Ok dist
    /\ dict_keys dist = dict_keys corpus
    /\ forall p, In p (dict_keys corpus) ->
         exists v, dict_get dist p = Ok v
           /\ v == (if mem p links then damping / len links else 0)
                   + (1 - damping) / len corpus.
Proof.
  intros G Hget Hl _.
  rewrite (transition_model_closed_form corpus pg links damping G Hget).
  eexists. split; [reflexivity|]. split; [apply keys_of_map|].
  intros p Hp. rewrite get_of_map by assumption.
  eexists. split; [reflexivity|].
  unfold transition_value.
  destruct (Nat.eqb (List.length links) 0) eqn:E.
  - apply length_eqb_nil in E. contradiction.
  - destruct (mem p links); ring.
Qed.

Lemma transition_model_mixture_witness :
  exists dist,
    transition_model corpus3 "B"%string (85 # 100) = Ok dist
    /\ dict_keys dist = dict_keys corpus3
    /\ forall p, In p (dict_keys corpus3) ->
         exists v, dict_get dist p = Ok v
           /\ v == (if mem p ["A"; "C"]%string
                    then (85 # 100) / len ["A"; "C"]%string else 0)
                   + (1 - (85 # 100)) / len corpus3.
Proof.
  apply (transition_model_mixture corpus3 "B"%string ["A"; "C"]%string (85 # 100)).
  - apply check_graph_sound. reflexivity.
  - reflexivity.
  - discriminate.
  - split; vm_compute; discriminate.
Defined.

(** C3. For a sink, [transition_model] returns the uniform distribution:
    [1 / |graph|] for every page of the graph, the sink included, whatever
    the damping factor. *)
Theorem transition_model_sink (corpus : Corpus) (pg : page) (damping : Q) :
  Graph_ok corpus ->
  0 <= damping <= 1 ->
  dict_get corpus pg = Ok [] ->
  exists dist,
    transition_model corpus pg damping = Ok dist
    /\ dict_keys dist = dict_keys corpus
    /\ (forall p, In p (dict_keys corpus) ->
          exists v, dict_get dist p = Ok v /\ v == 1 / len corpus)
    /\ (exists v, dict_get dist pg = Ok v /\ v == 1 / len corpus).
Proof.
  intros G _ Hget.
  rewrite (transition_model_closed_form corpus pg [] damping G Hget).
  eexists. split; [reflexivity|]. split; [apply keys_of_map|].
  assert (Hall : forall p, In p (dict_keys corpus) ->
    exists v,
      dict_get (map (fun k => (k, transition_value corpus [] damping k))
                    (dict_keys corpus)) p = Ok v
      /\ v == 1 / len corpus).
  { intros p Hp. rewrite get_of_map by assumption.
    eexists. split; [reflexivity|]. unfold transition_value. simpl. ring. }
  split; [exact Hall|].
  apply Hall. eapply dict_get_ok_key. exact Hget.
Qed.

Lemma transition_model_sink_witness :
  exists dist,
    transition_model corpus3 "C"%string (85 # 100) = Ok dist
    /\ dict_keys dist = dict_keys corpus3
    /\ (forall p, In p (dict_keys corpus3) ->
          exists v, dict_get dist p = Ok v /\ v == 1 / len corpus3)
    /\ (exists v, dict_get dist "C"%string = Ok v /\ v == 1 / len corpus3).
Proof.
  apply (transition_model_sink corpus3 "C"%string (85 # 100)).
  - apply check_graph_sound. reflexivity.
  - split; vm_compute; discriminate.
  - reflexivity.
Defined.

(** C8. For every page of the graph, the distribution returned by
    [transition_model] sums to [1] and has no negative value. *)
Theorem transition_model_distribution (corpus : Corpus) (pg : page)
    (damping : Q) :
  Graph_ok corpus ->
  In pg (dict_keys corpus) ->
  0 <= damping <= 1 ->
  exists dist,
    transition_model corpus pg damping = Ok dist
    /\ sumQ (dict_values dist) == 1
    /\ forall p v, In (p, v) dist -> 0 <= v.
Proof.
  intros G Hpg [Hd0 Hd1].
  destruct (dict_get_key corpus pg Hpg) as [links [Hget Hin]].
  rewrite (transition_model_closed_form corpus pg links damping G Hget).
  eexists. split; [reflexivity|].
  assert (Hne : corpus <> []) by apply (graph_nonempty corpus G).
  pose proof (len_pos corpus Hne) as HN.
  split.
  - rewrite values_of_map. unfold transition_value.
    destruct (Nat.eqb (List.length links) 0) eqn:E.
    + rewrite sumQ_map_const, len_keys. field. lra.
    + assert (Hl : links <> []) by (intros ->; discriminate).
      pose proof (len_pos links Hl) as HL.
      rewrite sumQ_map_plus, sumQ_map_const, len_keys.
      rewrite (sumQ_indicator (dict_keys corpus) links).
      * field. split; lra.
      * apply (keys_nodup corpus G).
      * apply (links_nodup corpus G pg links Hin).
      * intros p Hp. apply (links_closed corpus G pg links p Hin Hp).
  - intros p v Hv. apply in_map_iff in Hv. destruct Hv as [k [Heq _]].
    inversion Heq; subst. unfold transition_value.
    assert (0 <= 1 / len corpus).
    { apply Qle_shift_div_l; lra. }
    assert (0 <= (1 - damping) / len corpus).
    { apply Qle_shift_div_l; lra. }
    destruct (Nat.eqb (List.length links) 0) eqn:E; [lra|].
    assert (Hl : links <> []) by (intros ->; discriminate).
    pose proof (len_pos links Hl) as HL.
    assert (0 <= damping / len links).
    { apply Qle_shift_div_l; lra. }
    destruct (mem p links); lra.
Qed.

Lemma transition_model_distribution_witness :
  exists dist,
    transition_model corpus3 "A"%string (85 # 100) = Ok dist
    /\ sumQ (dict_values dist) == 1
    /\ forall p v, In (p, v) dist -> 0 <= v.
Proof.
  apply (transition_model_distribution corpus3 "A"%string (85 # 100)).
  - apply check_graph_sound. reflexivity.
  - simpl. auto.
  - split; vm_compute; discriminate.
Defined.

(** ** The sampling loop *)

Lemma random_choice_in {A : Type} (c : nat) (l : list A) :
  l <> [] -> exists x, random_choice c l = Ok x /\ In x l.
Proof.
  intros H. unfold random_choice.
  assert (Hlt : (c mod List.length l < List.length l)%nat).
  { apply Nat.mod_upper_bound. destruct l; simpl; congruence. }
  destruct (nth_error l (c mod List.length l)) as [x|] eqn:E.
  - exists x. split; [reflexivity|]. eapply nth_error_In. exact E.
  - apply nth_error_None in E. lia.
Qed.

Lemma random_choice_empty {A : Type} (c : nat) :
  random_choice c (@nil A) = Raise IndexError.
Proof.
  unfold random_choice. simpl. destruct c; reflexivity.
Qed.

Lemma scan_in (weight : Dict Q) (r prob : Q) (p : page) :
  scan weight r prob = Some p -> In p (dict_keys weight).
Proof.
  revert prob. induction weight as [|[k v] w IH]; simpl; intros prob H.
  - discriminate.
  - destruct (Qle_bool r (prob + v)).
    + inversion H. now left.
    + right. eapply IH. exact H.
Qed.

Lemma count_of_get (pr : Dict Z) (k : page) :
  In k (dict_keys pr) -> dict_get pr k = Ok (count_of pr k).
Proof.
  intros H. unfold count_of.
  destruct (dict_get_key pr k H) as [v [Hv _]]. now rewrite Hv.
Qed.

Lemma sumZ_set (pr : Dict Z) (k : page) (v v' : Z) :
  dict_get pr k = Ok v ->
  sumZ (dict_values (dict_set pr k v')) = (sumZ (dict_values pr) - v + v')%Z.
Proof.
  induction pr as [|[k0 v0] pr IH]; simpl; intros H.
  - discriminate.
  - destruct (String.eqb_spec k k0) as [->|Hne]; simpl.
    + inversion H; subst. lia.
    + rewrite IH by assumption. lia.
Qed.

(** [pagerank[k] += 1] on a key: one counter moves, by one. *)
Lemma dict_incr_spec (pr : Dict Z) (k : page) :
  In k (dict_keys pr) ->
  exists pr',
    dict_incr pr k = Ok pr'
    /\ dict_keys pr' = dict_keys pr
    /\ count_of pr' k = (count_of pr k + 1)%Z
    /\ (forall p, p <> k -> count_of pr' p = count_of pr p)
    /\ sumZ (dict_values pr') = (sumZ (dict_values pr) + 1)%Z.
Proof.
  intros Hk. unfold dict_incr. rewrite (count_of_get pr k Hk). simpl.
  eexists. split; [reflexivity|].
  split; [now apply dict_set_keys|].
  split; [unfold count_of at 1; now rewrite dict_get_set_same|].
  split.
  - intros p Hp. unfold count_of. now rewrite dict_get_set_other.
  - rewrite (sumZ_set pr k (count_of pr k)) by now apply count_of_get.
    lia.
Qed.

Lemma draw_step_spec (corpus : Corpus) (damping : Q) (r : Q) (curr : page)
    (counters : Dict Z) :
  Graph_ok corpus ->
  In curr (dict_keys corpus) ->
  dict_keys counters = dict_keys corpus ->
  exists weight next counters',
    transition_model corpus curr damping = Ok weight
    /\ draw_step corpus damping r (curr, counters) = Ok (next, counters')
    /\ next = match scan weight r 0 with Some p => p | None => curr end
    /\ In next (dict_keys corpus)
    /\ dict_keys counters' = dict_keys corpus
    /\ count_of counters' next = (count_of counters next + 1)%Z
    /\ (forall p, p <> next -> count_of counters' p = count_of counters p)
    /\ sumZ (dict_values counters') = (sumZ (dict_values counters) + 1)%Z.
Proof.
  intros G Hcurr Hkeys.
  destruct (dict_get_key corpus curr Hcurr) as [links [Hget _]].
  pose proof (transition_model_closed_form corpus curr links damping G Hget) as Htm.
  set (weight := map (fun k => (k, transition_value corpus links damping k))
                     (dict_keys corpus)) in *.
  set (next := match scan weight r 0 with Some p => p | None => curr end).
  assert (Hnext : In next (dict_keys corpus)).
  { unfold next. destruct (scan weight r 0) as [p|] eqn:E; [|assumption].
    apply scan_in in E. unfold weight in E. now rewrite keys_of_map in E. }
  destruct (dict_incr_spec counters next) as [c' [Hinc [Hk' [Hc1 [Hc2 Hsum]]]]].
  { now rewrite Hkeys. }
  exists weight, next, c'.
  split; [exact Htm|].
  split.
  { unfold draw_step. rewrite Htm. simpl bind. fold next. now rewrite Hinc. }
  repeat split; try assumption. congruence.
Qed.

(** The state after any number of passes of the sampling loop. *)
Lemma draw_loop_spec (corpus : Corpus) (damping : Q) (rnd : nat -> Q)
    (idx : list nat) (curr : page) (counters : Dict Z) :
  Graph_ok corpus ->
  In curr (dict_keys corpus) ->
  dict_keys counters = dict_keys corpus ->
  exists last counters',
    for_each idx (fun i st => draw_step corpus damping (rnd i) st)
             (curr, counters) = Ok (last, counters')
    /\ In last (dict_keys corpus)
    /\ dict_keys counters' = dict_keys corpus
    /\ (counts_nonneg counters -> counts_nonneg counters')
    /\ sumZ (dict_values counters')
       = (sumZ (dict_values counters) + Z.of_nat (List.length idx))%Z.
Proof.
  intros G. revert curr counters.
  induction idx as [|i idx IH]; intros curr counters Hcurr Hkeys.
  - exists curr, counters. simpl. repeat split; auto. lia.
  - destruct (draw_step_spec corpus damping (rnd i) curr counters G Hcurr Hkeys)
      as [w [next [c1 [_ [Hstep [_ [Hnext [Hk1 [Hc1 [Hc2 Hsum]]]]]]]]]].
    assert (Hpos1 : counts_nonneg counters -> counts_nonneg c1).
    { intros Hpos p. destruct (string_dec p next) as [->|Hne].
      - rewrite Hc1. specialize (Hpos next). lia.
      - rewrite Hc2 by assumption. apply Hpos. }
    destruct (IH next c1 Hnext Hk1) as [last [c' [Hrun [Hl [Hk' [Hp' Hs']]]]]].
    exists last, c'. rewrite for_each_cons. cbn beta. rewrite Hstep. simpl bind.
    repeat split; try assumption.
    + intros Hpos. apply Hp', Hpos1, Hpos.
    + rewrite Hs', Hsum. simpl List.length. lia.
Qed.

Lemma sumZ_zero (ks : list page) :
  sumZ (dict_values (map (fun k => (k, 0%Z)) ks)) = 0%Z.
Proof.
  induction ks as [|k ks IH]; simpl; [reflexivity | exact IH].
Qed.

Lemma count_of_zero (ks : list page) (p : page) :
  count_of (map (fun k => (k, 0%Z)) ks) p = 0%Z.
Proof.
  unfold count_of. induction ks as [|k ks IH]; simpl; [reflexivity|].
  destruct (String.eqb p k); [reflexivity | exact IH].
Qed.

(** [sample_counts]: the walk never raises on a graph, and it makes
    [max n 1] visits. *)
Lemma sample_counts_spec (corpus : Corpus) (damping : Q) (n : Z) (start : nat)
    (rnd : nat -> Q) :
  Graph_ok corpus ->
  exists last counters,
    sample_counts corpus damping n start rnd = Ok (last, counters)
    /\ dict_keys counters = dict_keys corpus
    /\ counts_nonneg counters
    /\ sumZ (dict_values counters) = Z.max n 1.
Proof.
  intros G. unfold sample_counts.
  pose proof (keys_nodup corpus G) as Hnd.
  rewrite init_loop by (simpl; assumption). simpl app.
  rewrite keys_of_const.
  destruct (random_choice_in start (dict_keys corpus)) as [c0 [Hc0 Hin0]].
  { pose proof (graph_nonempty corpus G). destruct corpus; simpl; congruence. }
  rewrite Hc0. simpl bind.
  set (p0 := map (fun k => (k, 0%Z)) (dict_keys corpus)).
  destruct (dict_incr_spec p0 c0) as [p1 [Hinc [Hk1 [Hc1 [Hc2 Hsum]]]]].
  { unfold p0. now rewrite keys_of_const. }
  rewrite Hinc. simpl bind.
  assert (Hkeys1 : dict_keys p1 = dict_keys corpus).
  { rewrite Hk1. apply keys_of_const. }
  assert (Hpos1 : counts_nonneg p1).
  { intros p. destruct (string_dec p c0) as [->|Hne].
    - rewrite Hc1. unfold p0. rewrite count_of_zero. lia.
    - rewrite Hc2 by assumption. unfold p0. rewrite count_of_zero. lia. }
  destruct (draw_loop_spec corpus damping rnd (seq 0 (Z.to_nat (n - 1))) c0 p1
              G Hin0 Hkeys1) as [last [c' [Hrun [_ [Hk' [Hp' Hs']]]]]].
  exists last, c'. rewrite Hrun. repeat split; try assumption.
  { apply Hp', Hpos1. }
  rewrite Hs', Hsum. unfold p0. rewrite sumZ_zero, length_seq. lia.
Qed.

Lemma divide_counts_ok (pr : Dict Z) (n : Z) :
  n <> 0%Z ->
  divide_counts pr n
  = Ok (map (fun e => (fst e, inject_Z (snd e) / inject_Z n)) pr).
Proof.
  intros Hn. induction pr as [|[k c] pr IH]; simpl.
  - reflexivity.
  - rewrite pydiv_ok, IH; [reflexivity|].
    change 0 with (inject_Z 0). rewrite inject_Z_injective. exact Hn.
Qed.

Lemma divide_counts_zero (pr : Dict Z) :
  pr <> [] -> divide_counts pr 0 = Raise ZeroDivisionError.
Proof.
  destruct pr as [|[k c] pr]; [congruence|]. intros _. reflexivity.
Qed.

Lemma sumQ_divided (pr : Dict Z) (n : Z) :
  sumQ (dict_values (map (fun e => (fst e, inject_Z (snd e) / inject_Z n)) pr))
  == inject_Z (sumZ (dict_values pr)) / inject_Z n.
Proof.
  induction pr as [|[k c] pr IH]; simpl.
  - reflexivity.
  - unfold dict_values in *. rewrite IH, inject_Z_plus.
    unfold Qdiv. ring.
Qed.

Lemma dict_get_map_values {V W : Type} (f : V -> W) (d : Dict V) (k : page) :
  dict_get (map (fun e => (fst e, f (snd e))) d) k
  = (v <- dict_get d k ;; Ok (f v)).
Proof.
  induction d as [|[k0 v0] d IH]; simpl.
  - reflexivity.
  - destruct (String.eqb k k0); [reflexivity | exact IH].
Qed.

Lemma keys_map_values {V W : Type} (f : V -> W) (d : Dict V) :
  dict_keys (map (fun e => (fst e, f (snd e))) d) = dict_keys d.
Proof.
  unfold dict_keys. rewrite map_map. reflexivity.
Qed.

(** ** The claims on [sample_pagerank] *)

Lemma last_cons {A : Type} (a d : A) (l : list A) :
  List.last (a :: l) d = List.last l a.
Proof.
  revert a d. induction l as [|b l IH]; intros a d.
  - reflexivity.
  - change (List.last (a :: b :: l) d) with (List.last (b :: l) d).
    now rewrite (IH b d), (IH b a).
Qed.

Lemma walk_length (corpus : Corpus) (damping : Q) (rnd : nat -> Q)
    (k i : nat) (curr : page) :
  List.length (walk corpus damping rnd i k curr) = k.
Proof.
  revert i curr. induction k as [|k IH]; intros i curr; simpl;
    [reflexivity | now rewrite IH].
Qed.

(** The loop of lines 98-110 counts the pages of the walk. *)
Lemma draw_loop_visits (corpus : Corpus) (damping : Q) (rnd : nat -> Q) :
  Graph_ok corpus ->
  forall (k i : nat) (curr : page) (counters : Dict Z),
  In curr (dict_keys corpus) ->
  dict_keys counters = dict_keys corpus ->
  exists last counters',
    for_each (seq i k) (fun i st => draw_step corpus damping (rnd i) st)
             (curr, counters) = Ok (last, counters')
    /\ last = List.last (walk corpus damping rnd i k curr) curr
    /\ forall p,
         count_of counters' p
         = (count_of counters p
            + Z.of_nat (count_occ string_dec (walk corpus damping rnd i k curr) p))%Z.
Proof.
  intros G. induction k as [|k IH]; intros i curr counters Hcurr Hkeys.
  - exists curr, counters. simpl. repeat split. intros p.
    now rewrite Z.add_0_r.
  - destruct (draw_step_spec corpus damping (rnd i) curr counters G Hcurr Hkeys)
      as [w [next [c1 [Htm [Hstep [Hnext [Hin [Hk1 [Hc1 [Hc2 _]]]]]]]]]].
    assert (Hnp : next_page corpus damping curr (rnd i) = next).
    { unfold next_page. now rewrite Htm. }
    destruct (IH (S i) next c1 Hin Hk1) as [last [c' [Hrun [Hlast Hcount]]]].
    exists last, c'.
    change (seq i (S k)) with (i :: seq (S i) k).
    rewrite for_each_cons. cbn beta. rewrite Hstep. simpl bind.
    split; [exact Hrun|].
    change (walk corpus damping rnd i (S k) curr)
      with (next_page corpus damping curr (rnd i)
            :: walk corpus damping rnd (S i) k
                 (next_page corpus damping curr (rnd i))).
    rewrite Hnp. split.
    + rewrite last_cons. exact Hlast.
    + intros p. rewrite Hcount.
      destruct (string_dec next p) as [->|Hne].
      * rewrite count_occ_cons_eq by reflexivity. rewrite Hc1.
        unfold page in *. lia.
      * rewrite count_occ_cons_neq by assumption.
        rewrite Hc2 by congruence. reflexivity.
Qed.

(** [sample_counts] counts the visits of the run. *)
Lemma sample_counts_visits (corpus : Corpus) (damping : Q) (n : Z) (start : nat)
    (rnd : nat -> Q) :
  Graph_ok corpus ->
  exists last counters,
    sample_counts corpus damping n start rnd = Ok (last, counters)
    /\ List.length (visits corpus damping n start rnd) = S (Z.to_nat (n - 1))
    /\ last = List.last (visits corpus damping n start rnd) last
    /\ forall p,
         count_of counters p
         = Z.of_nat (count_occ string_dec (visits corpus damping n start rnd) p).
Proof.
  intros G. unfold sample_counts, visits.
  pose proof (keys_nodup corpus G) as Hnd.
  rewrite init_loop by (simpl; assumption). simpl app.
  rewrite keys_of_const.
  destruct (random_choice_in start (dict_keys corpus)) as [c0 [Hc0 Hin0]].
  { pose proof (graph_nonempty corpus G). destruct corpus; simpl; congruence. }
  rewrite Hc0. simpl bind.
  set (p0 := map (fun k => (k, 0%Z)) (dict_keys corpus)).
  destruct (dict_incr_spec p0 c0) as [p1 [Hinc [Hk1 [Hc1 [Hc2 _]]]]].
  { unfold p0. now rewrite keys_of_const. }
  rewrite Hinc. simpl bind.
  assert (Hkeys1 : dict_keys p1 = dict_keys corpus).
  { rewrite Hk1. apply keys_of_const. }
  destruct (draw_loop_visits corpus damping rnd G (Z.to_nat (n - 1)) 0%nat c0 p1
              Hin0 Hkeys1) as [last [c' [Hrun [Hlast Hcount]]]].
  exists last, c'. split; [exact Hrun|]. split.
  { simpl. now rewrite walk_length. }
  split.
  { rewrite last_cons. rewrite Hlast at 1.
    destruct (walk corpus damping rnd 0 (Z.to_nat (n - 1)) c0) as [|a l];
      [reflexivity|].
    rewrite !last_cons. reflexivity. }
  intros p. rewrite Hcount.
  destruct (string_dec c0 p) as [->|Hne].
  - rewrite count_occ_cons_eq by reflexivity. rewrite Hc1.
    unfold p0. rewrite count_of_zero. unfold page in *. lia.
  - rewrite count_occ_cons_neq by assumption.
    rewrite Hc2 by congruence. unfold p0. rewrite count_of_zero. reflexivity.
Qed.

(** C7. On a graph, for a damping factor in [0,1] and [n >= 1], whatever
    the random draws: every draw increments exactly one counter, that of
    the page the draw leads to; the run makes [n] visits, the counter of a
    page is the number of its visits, and the counters add up to [n]; each
    returned rank is the page's count divided by [n], and the returned
    table sums to [1]. *)
Theorem sample_pagerank_partition (corpus : Corpus) (damping : Q) (n : Z)
    (start : nat) (rnd : nat -> Q) :
  Graph_ok corpus ->
  0 <= damping <= 1 ->
  (1 <= n)%Z ->
  (forall r curr counters,
      In curr (dict_keys corpus) ->
      dict_keys counters = dict_keys corpus ->
      exists next counters',
        draw_step corpus damping r (curr, counters) = Ok (next, counters')
        /\ next = next_page corpus damping curr r
        /\ count_of counters' next = (count_of counters next + 1)%Z
        /\ forall p, p <> next -> count_of counters' p = count_of counters p)
  /\ exists last counters ranks,
      sample_counts corpus damping n start rnd = Ok (last, counters)
      /\ dict_keys counters = dict_keys corpus
      /\ counts_nonneg counters
      /\ Z.of_nat (List.length (visits corpus damping n start rnd)) = n
      /\ last = List.last (visits corpus damping n start rnd) last
      /\ (forall p,
            count_of counters p
            = Z.of_nat (count_occ string_dec
                          (visits corpus damping n start rnd) p))
      /\ sumZ (dict_values counters) = n
      /\ sample_pagerank corpus damping n start rnd = Ok ranks
      /\ dict_keys ranks = dict_keys corpus
      /\ (forall p, In p (dict_keys corpus) ->
            dict_get ranks p = Ok (inject_Z (count_of counters p) / inject_Z n))
      /\ sumQ (dict_values ranks) == 1.
Proof.
  intros G _ Hn. split.
  - intros r curr counters Hcurr Hkeys.
    destruct (draw_step_spec corpus damping r curr counters G Hcurr Hkeys)
      as [w [next [c' [Htm [Hstep [Hnext [_ [_ [Hc1 [Hc2 _]]]]]]]]]].
    exists next, c'. split; [exact Hstep|]. split; [|auto].
    unfold next_page. now rewrite Htm.
  - destruct (sample_counts_spec corpus damping n start rnd G)
      as [last [counters [Hrun [Hkeys [Hpos Hsum]]]]].
    destruct (sample_counts_visits corpus damping n start rnd G)
      as [last' [counters' [Hrun' [Hlen [Hlast Hvis]]]]].
    rewrite Hrun in Hrun'. inversion Hrun'; subst last' counters'.
    rewrite Z.max_l in Hsum by lia.
    exists last, counters. eexists.
    split; [exact Hrun|]. split; [exact Hkeys|]. split; [exact Hpos|].
    split; [rewrite Hlen; lia|].
    split; [exact Hlast|]. split; [exact Hvis|].
    split; [exact Hsum|].
    unfold sample_pagerank. rewrite Hrun. simpl bind.
    rewrite divide_counts_ok by lia.
    split; [reflexivity|].
    split; [now rewrite (keys_map_values (fun c => inject_Z c / inject_Z n))|].
    split.
    + intros p Hp.
      rewrite (dict_get_map_values (fun c => inject_Z c / inject_Z n)).
      rewrite count_of_get by now rewrite Hkeys. reflexivity.
    + rewrite sumQ_divided, Hsum. field.
      change 0 with (inject_Z 0). rewrite inject_Z_injective. lia.
Qed.

Lemma sample_pagerank_partition_witness :
  (forall r curr counters,
      In curr (dict_keys corpus3) ->
      dict_keys counters = dict_keys corpus3 ->
      exists next counters',
        draw_step corpus3 (85 # 100) r (curr, counters) = Ok (next, counters')
        /\ next = next_page corpus3 (85 # 100) curr r
        /\ count_of counters' next = (count_of counters next + 1)%Z
        /\ forall p, p <> next -> count_of counters' p = count_of counters p)
  /\ exists last counters ranks,
      sample_counts corpus3 (85 # 100) 4 1 (fun i => inject_Z (Z.of_nat i) / 4)
        = Ok (last, counters)
      /\ dict_keys counters = dict_keys corpus3
      /\ counts_nonneg counters
      /\ Z.of_nat (List.length
                     (visits corpus3 (85 # 100) 4 1
                        (fun i => inject_Z (Z.of_nat i) / 4))) = 4%Z
      /\ last = List.last (visits corpus3 (85 # 100) 4 1
                             (fun i => inject_Z (Z.of_nat i) / 4)) last
      /\ (forall p,
            count_of counters p
            = Z.of_nat (count_occ string_dec
                          (visits corpus3 (85 # 100) 4 1
                             (fun i => inject_Z (Z.of_nat i) / 4)) p))
      /\ sumZ (dict_values counters) = 4%Z
      /\ sample_pagerank corpus3 (85 # 100) 4 1 (fun i => inject_Z (Z.of_nat i) / 4)
         = Ok ranks
      /\ dict_keys ranks = dict_keys corpus3
      /\ (forall p, In p (dict_keys corpus3) ->
            dict_get ranks p = Ok (inject_Z (count_of counters p) / inject_Z 4))
      /\ sumQ (dict_values ranks) == 1.
Proof.
  apply (sample_pagerank_partition corpus3 (85 # 100) 4 1
           (fun i => inject_Z (Z.of_nat i) / 4)).
  - apply check_graph_sound. reflexivity.
  - split; vm_compute; discriminate.
  - lia.
Defined.

(** The run of the witness of C7: the walk is B, A, B, B. *)
Example sample_pagerank_walk :
  visits corpus3 (85 # 100) 4 1 (fun i => inject_Z (Z.of_nat i) / 4)
  = ["B"; "A"; "B"; "B"]%string
  /\ sample_counts corpus3 (85 # 100) 4 1 (fun i => inject_Z (Z.of_nat i) / 4)
     = Ok ("B", [("A", 1); ("B", 3); ("C", 0)])%string%Z.
Proof. split; vm_compute; reflexivity. Qed.

(** C10. One pass of the sampling loop on a graph never raises.  When the
    scan over the transition distribution ends without a page reaching the
    draw, the current page stays.  In every case exactly one counter goes up
    by one, so after any number of passes the total count has grown by the
    number of passes. *)
Theorem draw_step_always_counts (corpus : Corpus) (damping : Q) (curr : page)
    (counters : Dict Z) :
  Graph_ok corpus ->
  In curr (dict_keys corpus) ->
  dict_keys counters = dict_keys corpus ->
  (forall r, exists weight next counters',
      transition_model corpus curr damping = Ok weight
      /\ draw_step corpus damping r (curr, counters) = Ok (next, counters')
      /\ (scan weight r 0 = None -> next = curr)
      /\ count_of counters' next = (count_of counters next + 1)%Z
      /\ (forall p, p <> next -> count_of counters' p = count_of counters p)
      /\ sumZ (dict_values counters') = (sumZ (dict_values counters) + 1)%Z)
  /\ (forall (rnd : nat -> Q) (idx : list nat), exists last counters',
        for_each idx (fun i st => draw_step corpus damping (rnd i) st)
                 (curr, counters) = Ok (last, counters')
        /\ sumZ (dict_values counters')
           = (sumZ (dict_values counters) + Z.of_nat (List.length idx))%Z).
Proof.
  intros G Hcurr Hkeys. split.
  - intros r.
    destruct (draw_step_spec corpus damping r curr counters G Hcurr Hkeys)
      as [w [next [c' [Htm [Hstep [Hnext [_ [_ [Hc1 [Hc2 Hsum]]]]]]]]]].
    exists w, next, c'. repeat split; try assumption.
    intros Hnone. now rewrite Hnone in Hnext.
  - intros rnd idx.
    destruct (draw_loop_spec corpus damping rnd idx curr counters
                G Hcurr Hkeys) as [last [c' [Hrun [_ [_ [_ Hs]]]]]].
    exists last, c'. auto.
Qed.

Lemma draw_step_always_counts_witness :
  (forall r, exists weight next counters',
      transition_model corpus3 "A"%string (85 # 100) = Ok weight
      /\ draw_step corpus3 (85 # 100) r
           ("A", [("A", 1); ("B", 0); ("C", 0)])%string%Z = Ok (next, counters')
      /\ (scan weight r 0 = None -> next = "A"%string)
      /\ count_of counters' next
         = (count_of [("A", 1); ("B", 0); ("C", 0)]%string%Z next + 1)%Z
      /\ (forall p, p <> next ->
            count_of counters' p
            = count_of [("A", 1); ("B", 0); ("C", 0)]%string%Z p)
      /\ sumZ (dict_values counters')
         = (sumZ (dict_values [("A", 1); ("B", 0); ("C", 0)]%string%Z) + 1)%Z)
  /\ (forall (rnd : nat -> Q) (idx : list nat), exists last counters',
        for_each idx (fun i st => draw_step corpus3 (85 # 100) (rnd i) st)
                 ("A", [("A", 1); ("B", 0); ("C", 0)])%string%Z
          = Ok (last, counters')
        /\ sumZ (dict_values counters')
           = (sumZ (dict_values [("A", 1); ("B", 0); ("C", 0)]%string%Z)
              + Z.of_nat (List.length idx))%Z).
Proof.
  apply (draw_step_always_counts corpus3 (85 # 100) "A"%string
           [("A", 1); ("B", 0); ("C", 0)]%string%Z).
  - apply check_graph_sound. reflexivity.
  - simpl. auto.
  - reflexivity.
Defined.

(** The fall-through of C10 happens in the model: a draw above the total
    weight leaves the surfer on its page, whose counter goes up. *)
Example draw_step_fall_through :
  draw_step corpus3 (85 # 100) 2 ("A", [("A", 1); ("B", 0); ("C", 0)])%string%Z
  = Ok ("A", [("A", 2); ("B", 0); ("C", 0)])%string%Z.
Proof. reflexivity. Qed.

(** C5, as the code has it.  Nothing validates the arguments.  An empty
    graph makes [sample_pagerank] raise [IndexError] and [iterate_pagerank]
    raise [ZeroDivisionError]; [n = 0] makes [sample_pagerank] raise
    [ZeroDivisionError]; any other [n] and any damping factor are accepted:
    on a graph [sample_pagerank] returns a table whose values sum to
    [max(n, 1) / n]. *)
Theorem malformed_input_behaviour :
  (forall damping n start rnd,
      sample_pagerank [] damping n start rnd = Raise IndexError)
  /\ (forall fuel damping,
        iterate_pagerank fuel [] damping = Raised ZeroDivisionError)
  /\ (forall corpus damping start rnd,
        Graph_ok corpus ->
        sample_pagerank corpus damping 0 start rnd = Raise ZeroDivisionError)
  /\ (forall corpus damping n start rnd,
        Graph_ok corpus -> n <> 0%Z ->
        exists ranks,
          sample_pagerank corpus damping n start rnd = Ok ranks
          /\ sumQ (dict_values ranks) == inject_Z (Z.max n 1) / inject_Z n).
Proof.
  split; [|split; [|split]].
  - intros damping n start rnd. unfold sample_pagerank, sample_counts. simpl.
    now rewrite random_choice_empty.
  - intros fuel damping. reflexivity.
  - intros corpus damping start rnd G.
    destruct (sample_counts_spec corpus damping 0 start rnd G)
      as [last [counters [Hrun [Hkeys _]]]].
    unfold sample_pagerank. rewrite Hrun. simpl bind.
    apply divide_counts_zero. intros ->.
    pose proof (graph_nonempty corpus G). destruct corpus; [congruence|].
    discriminate.
  - intros corpus damping n start rnd G Hn.
    destruct (sample_counts_spec corpus damping n start rnd G)
      as [last [counters [Hrun [Hkeys [_ Hsum]]]]].
    unfold sample_pagerank. rewrite Hrun. simpl bind.
    rewrite divide_counts_ok by assumption.
    eexists. split; [reflexivity|].
    now rewrite sumQ_divided, Hsum.
Qed.

Lemma malformed_input_behaviour_witness :
  sample_pagerank [] (85 # 100) 3 0 (fun _ => 0) = Raise IndexError
  /\ iterate_pagerank 1 [] (85 # 100) = Raised ZeroDivisionError
  /\ sample_pagerank corpus3 (85 # 100) 0 0 (fun _ => 0) = Raise ZeroDivisionError
  /\ exists ranks,
       sample_pagerank corpus3 2 (-1) 0 (fun _ => 0) = Ok ranks
       /\ sumQ (dict_values ranks) == inject_Z (Z.max (-1) 1) / inject_Z (-1).
Proof.
  destruct malformed_input_behaviour as [H1 [H2 [H3 H4]]].
  split; [apply H1|]. split; [apply H2|]. split.
  - apply H3. apply check_graph_sound. reflexivity.
  - apply H4; [apply check_graph_sound; reflexivity | discriminate].
Defined.

(** C5 as stated fails: a negative [n] and a damping factor outside [0,1]
    raise nothing, and a table with a negative entry comes back. *)
Lemma sample_pagerank_accepts_malformed :
  (-1 < 1)%Z /\ ~ (0 <= 2 <= 1)
  /\ sample_pagerank corpus3 2 (-1) 1 (fun _ => 0)
     = Ok [("A", 0); ("B", -1 # 1); ("C", 0)]%string.
Proof.
  split; [lia|]. split.
  - intros [_ H]. vm_compute in H. apply H. reflexivity.
  - vm_compute. reflexivity.
Qed.

(** ** The passes of a round, in closed form *)

Lemma for_each_pure {A S : Type} (l : list A) (body : A -> S -> result S)
    (f : S -> A -> S) (s : S) :
  (forall x s', In x l -> body x s' = Ok (f s' x)) ->
  for_each l body s = Ok (fold_left f l s).
Proof.
  revert s. induction l as [|x l IH]; intros s H; simpl.
  - reflexivity.
  - rewrite (H x s (or_introl eq_refl)). simpl.
    apply IH. intros y s' Hy. apply H. now right.
Qed.

Lemma links_of_get (corpus : Corpus) (q : page) :
  In q (dict_keys corpus) -> dict_get corpus q = Ok (links_of corpus q).
Proof.
  intros H. unfold links_of.
  destruct (dict_get_key corpus q H) as [v [Hv _]]. now rewrite Hv.
Qed.

Lemma links_of_in (corpus : Corpus) (q : page) :
  In q (dict_keys corpus) -> In (q, links_of corpus q) corpus.
Proof.
  intros H. apply dict_get_ok_in. now apply links_of_get.
Qed.

Lemma prob_choice_of_closed (corpus : Corpus) (prob_all : Q) (pagerank : Dict Q)
    (pg : page) :
  dict_keys pagerank = dict_keys corpus ->
  prob_choice_of corpus prob_all pagerank pg
  = Ok (fold_left (prob_choice_step corpus prob_all pagerank pg)
                  (dict_keys corpus) 0).
Proof.
  intros Hkeys. unfold prob_choice_of. apply for_each_pure.
  intros q acc Hq. unfold prob_choice_step.
  rewrite (links_of_get corpus q Hq). simpl bind.
  rewrite (rank_of_get pagerank q) by now rewrite Hkeys.
  destruct (Nat.eqb (List.length (links_of corpus q)) 0) eqn:E.
  - reflexivity.
  - destruct (mem pg (links_of corpus q)); [|reflexivity].
    simpl bind. rewrite pydiv_len; [reflexivity|].
    intros Hnil. rewrite Hnil in E. discriminate.
Qed.

Lemma set_loop_get {V : Type} (g : page -> V) (l : list page) (d : Dict V)
    (p : page) :
  dict_get (fold_left (fun d k => dict_set d k (g k)) l d) p
  = if mem p l then Ok (g p) else dict_get d p.
Proof.
  revert d. induction l as [|x l IH]; intros d; simpl.
  - reflexivity.
  - rewrite IH, dict_get_set.
    destruct (String.eqb_spec p x) as [->|Hne]; simpl.
    + destruct (mem x l); reflexivity.
    + reflexivity.
Qed.

Lemma set_loop_keys {V : Type} (g : page -> V) (l : list page) (d : Dict V) :
  incl l (dict_keys d) ->
  dict_keys (fold_left (fun d k => dict_set d k (g k)) l d) = dict_keys d.
Proof.
  revert d. induction l as [|x l IH]; intros d H; simpl.
  - reflexivity.
  - assert (Hx : In x (dict_keys d)) by (apply H; now left).
    rewrite IH; rewrite dict_set_keys; auto.
    intros y Hy. apply H. now right.
Qed.

Lemma update_pass_fold (corpus : Corpus) (damping prob_random prob_all : Q)
    (pagerank : Dict Q) (new_pagerank : Dict (option Q)) :
  dict_keys pagerank = dict_keys corpus ->
  update_pass corpus damping prob_random prob_all pagerank new_pagerank
  = Ok (fold_left
          (fun npr k =>
             dict_set npr k
               (Some (new_rank corpus damping prob_random prob_all pagerank k)))
          (dict_keys corpus) new_pagerank).
Proof.
  intros Hkeys. unfold update_pass. apply for_each_pure.
  intros pg npr _. now rewrite prob_choice_of_closed.
Qed.

Lemma update_pass_closed (corpus : Corpus) (damping prob_random prob_all : Q)
    (pagerank : Dict Q) (new_pagerank : Dict (option Q)) :
  NoDup (dict_keys corpus) ->
  dict_keys pagerank = dict_keys corpus ->
  dict_keys new_pagerank = dict_keys corpus ->
  update_pass corpus damping prob_random prob_all pagerank new_pagerank
  = Ok (map (fun k =>
               (k, Some (new_rank corpus damping prob_random prob_all pagerank k)))
            (dict_keys corpus)).
Proof.
  intros Hnd Hkeys Hnkeys. rewrite update_pass_fold by assumption. f_equal.
  set (g := fun k => Some (new_rank corpus damping prob_random prob_all pagerank k)).
  set (d' := fold_left _ _ _).
  assert (Hk : dict_keys d' = dict_keys corpus).
  { unfold d'. rewrite (set_loop_keys g); [assumption|].
    rewrite Hnkeys. apply incl_refl. }
  rewrite <- Hk.
  apply (dict_by_lookup d' g).
  - now rewrite Hk.
  - intros k Hin. rewrite Hk in Hin. unfold d'. rewrite (set_loop_get g).
    apply mem_true_iff in Hin. now rewrite Hin.
Qed.

Lemma py_sum_closed (l : list Q) :
  py_sum (map Some l) = Ok (fold_left Qplus l 0).
Proof.
  unfold py_sum. generalize 0 as acc.
  induction l as [|x l IH]; intros acc; simpl; [reflexivity | apply IH].
Qed.

Lemma normalize_loop (total : Q) (f : page -> Q) (l : list page)
    (d : Dict (option Q)) :
  ~ total == 0 ->
  NoDup l ->
  (forall k, In k l -> dict_get d k = Ok (Some (f k))) ->
  exists d',
    for_each l
      (fun pg npr =>
         v <- dict_get npr pg ;;
         rank <- as_float v ;;
         x <- pydiv rank total ;;
         Ok (dict_set npr pg (Some x))) d = Ok d'
    /\ dict_keys d' = dict_keys d
    /\ (forall k, In k l -> dict_get d' k = Ok (Some (f k / total)))
    /\ (forall k, ~ In k l -> dict_get d' k = dict_get d k).
Proof.
  intros Ht. revert d. induction l as [|x l IH]; intros d Hnd Hget.
  - exists d. simpl. repeat split; auto. intros k [].
  - inversion Hnd as [|? ? Hx Hnd']; subst.
    rewrite for_each_cons. rewrite (Hget x (or_introl eq_refl)). simpl bind.
    rewrite pydiv_ok by assumption. simpl bind.
    set (d1 := dict_set d x (Some (f x / total))).
    destruct (IH d1 Hnd') as [d' [Hrun [Hkeys [Hin Hout]]]].
    { intros k Hk. unfold d1. rewrite dict_get_set_other.
      - apply Hget. now right.
      - intros ->. contradiction. }
    exists d'. split; [exact Hrun|]. split.
    { rewrite Hkeys. unfold d1. apply dict_set_keys.
      eapply dict_get_ok_key. apply (Hget x). now left. }
    split.
    + intros k [->|Hk]; [|now apply Hin].
      rewrite Hout by assumption. unfold d1. apply dict_get_set_same.
    + intros k Hk. rewrite Hout by (intros H; apply Hk; now right).
      unfold d1. apply dict_get_set_other. intros ->. apply Hk. now left.
Qed.

Lemma normalize_closed (ks : list page) (f : page -> Q) :
  NoDup ks ->
  ~ fold_left Qplus (map f ks) 0 == 0 ->
  normalize (map (fun k => (k, Some (f k))) ks)
  = Ok (map (fun k => (k, Some (f k / fold_left Qplus (map f ks) 0))) ks).
Proof.
  intros Hnd Ht. unfold normalize.
  rewrite (values_of_map ks (fun k => Some (f k))).
  rewrite <- (map_map f Some), py_sum_closed. simpl bind.
  rewrite (keys_of_map ks (fun k => Some (f k))).
  set (total := fold_left Qplus (map f ks) 0) in *.
  destruct (normalize_loop total f ks (map (fun k => (k, Some (f k))) ks) Ht Hnd)
    as [d' [Hrun [Hkeys [Hin _]]]].
  { intros k Hk. now rewrite (get_of_map ks (fun k => Some (f k))). }
  rewrite Hrun. f_equal.
  rewrite (keys_of_map ks (fun k => Some (f k))) in Hkeys.
  rewrite <- Hkeys.
  apply (dict_by_lookup d' (fun k => Some (f k / total))).
  - now rewrite Hkeys.
  - intros k Hk. apply Hin. now rewrite <- Hkeys.
Qed.

Lemma normalize_zero (ks : list page) (f : page -> Q) :
  ks <> [] ->
  fold_left Qplus (map f ks) 0 == 0 ->
  normalize (map (fun k => (k, Some (f k))) ks) = Raise ZeroDivisionError.
Proof.
  intros Hne Ht. unfold normalize.
  rewrite (values_of_map ks (fun k => Some (f k))).
  rewrite <- (map_map f Some), py_sum_closed. simpl bind.
  destruct ks as [|k ks]; [congruence|].
  simpl. rewrite String.eqb_refl. simpl.
  now rewrite pydiv_zero.
Qed.

Lemma dict_copy_closed (ks : list page) (f : page -> Q) :
  dict_copy (map (fun k => (k, Some (f k))) ks) = Ok (map (fun k => (k, f k)) ks).
Proof.
  induction ks as [|k ks IH]; simpl; [reflexivity|]. now rewrite IH.
Qed.

Lemma max_change_of_closed (corpus : Corpus) (pagerank : Dict Q)
    (f : page -> Q) :
  dict_keys pagerank = dict_keys corpus ->
  max_change_of corpus pagerank (map (fun k => (k, Some (f k))) (dict_keys corpus))
  = Ok (max_change_val (dict_keys corpus) pagerank
          (map (fun k => (k, f k)) (dict_keys corpus))).
Proof.
  intros Hkeys. unfold max_change_of, max_change_val. apply for_each_pure.
  intros k m Hk.
  rewrite (rank_of_get pagerank k) by now rewrite Hkeys.
  simpl bind. rewrite (get_of_map _ (fun k => Some (f k))) by assumption.
  simpl. now rewrite rank_of_map.
Qed.

(** A round on a graph: it raises exactly when [total_prob] is zero. *)
Lemma round_closed (corpus : Corpus) (damping prob_random prob_all : Q)
    (pagerank : Dict Q) (new_pagerank : Dict (option Q)) (mc : Q) :
  Graph_ok corpus ->
  dict_keys pagerank = dict_keys corpus ->
  dict_keys new_pagerank = dict_keys corpus ->
  round corpus damping prob_random prob_all (pagerank, new_pagerank, mc)
  = if Qeq_bool (total_prob_of corpus damping prob_random prob_all pagerank) 0
    then Raise ZeroDivisionError
    else
      let table := next_table corpus damping prob_random prob_all pagerank in
      Ok (table,
          map (fun e => (fst e, Some (snd e))) table,
          max_change_val (dict_keys corpus) pagerank table).
Proof.
  intros G Hkeys Hnkeys.
  pose proof (keys_nodup corpus G) as Hnd.
  unfold round. rewrite update_pass_closed by assumption. simpl bind.
  unfold total_prob_of, next_table.
  set (f := new_rank corpus damping prob_random prob_all pagerank).
  destruct (Qeq_bool (fold_left Qplus (map f (dict_keys corpus)) 0) 0) eqn:E.
  - apply Qeq_bool_eq in E. rewrite normalize_zero; auto.
    pose proof (graph_nonempty corpus G). destruct corpus; simpl; congruence.
  - apply Qeq_bool_neq in E. rewrite normalize_closed by assumption.
    simpl bind.
    pose proof (max_change_of_closed corpus pagerank
      (fun k => f k / fold_left Qplus (map f (dict_keys corpus)) 0) Hkeys) as Hmc.
    pose proof (dict_copy_closed (dict_keys corpus)
      (fun k => f k / fold_left Qplus (map f (dict_keys corpus)) 0)) as Hcp.
    cbv beta in Hmc, Hcp. rewrite Hmc. simpl bind. rewrite Hcp. simpl.
    rewrite map_map. reflexivity.
Qed.

(** ** The update equation *)

Lemma fold_left_Qplus (l : list Q) (a : Q) : fold_left Qplus l a == a + sumQ l.
Proof.
  revert a. induction l as [|x l IH]; intros a; simpl.
  - ring.
  - rewrite IH. ring.
Qed.

Lemma fold_left_sum {A : Type} (step : Q -> A -> Q) (c : A -> Q) (l : list A)
    (a : Q) :
  (forall acc x, In x l -> step acc x == acc + c x) ->
  fold_left step l a == a + sumQ (map c l).
Proof.
  revert a. induction l as [|x l IH]; intros a H; simpl.
  - ring.
  - rewrite IH by (intros; apply H; now right).
    rewrite (H a x (or_introl eq_refl)). ring.
Qed.

Lemma mem_nil (p : page) (l : list page) :
  Nat.eqb (List.length l) 0 = true -> mem p l = false.
Proof.
  intros H. apply length_eqb_nil in H. now subst.
Qed.

Lemma contribution_weight (corpus : Corpus) (PR : Dict Q) (q p : page) :
  corpus <> [] ->
  contribution corpus PR q p == rank_of PR q * weight corpus q p.
Proof.
  intros Hne. pose proof (len_pos corpus Hne) as HN.
  unfold contribution, weight.
  destruct (mem p (links_of corpus q)) eqn:Hm.
  - assert (Hl : links_of corpus q <> []).
    { intros Hnil. rewrite Hnil in Hm. discriminate. }
    pose proof (len_pos _ Hl). field. lra.
  - destruct (Nat.eqb (List.length (links_of corpus q)) 0); [field; lra | ring].
Qed.

Lemma prob_choice_step_contribution (corpus : Corpus) (PR : Dict Q)
    (p : page) (acc : Q) (q : page) :
  corpus <> [] ->
  prob_choice_step corpus (1 / len corpus) PR p acc q
  == acc + contribution corpus PR q p.
Proof.
  intros Hne. pose proof (len_pos corpus Hne) as HN.
  unfold prob_choice_step, contribution. cbv zeta.
  destruct (Nat.eqb (List.length (links_of corpus q)) 0) eqn:E.
  - rewrite (mem_nil p _ E). field. lra.
  - destruct (mem p (links_of corpus q)); ring.
Qed.

Lemma new_rank_equation (corpus : Corpus) (damping : Q) (PR : Dict Q) (p : page) :
  corpus <> [] ->
  new_rank corpus damping ((1 - damping) / len corpus) (1 / len corpus) PR p
  == pagerank_equation corpus damping PR p.
Proof.
  intros Hne. unfold new_rank, pagerank_equation.
  rewrite (fold_left_sum _ (fun q => contribution corpus PR q p)).
  - ring.
  - intros acc q _. now apply prob_choice_step_contribution.
Qed.

(** Each page hands out its whole rank. *)
Lemma weight_sum (corpus : Corpus) (q : page) :
  Graph_ok corpus ->
  In q (dict_keys corpus) ->
  sumQ (map (weight corpus q) (dict_keys corpus)) == 1.
Proof.
  intros G Hq. unfold weight.
  pose proof (len_pos corpus (graph_nonempty corpus G)) as HN.
  pose proof (links_of_in corpus q Hq) as Hin.
  destruct (Nat.eqb (List.length (links_of corpus q)) 0) eqn:E.
  - rewrite (sumQ_map_ext _ (fun _ => 1 / len corpus)).
    + rewrite sumQ_map_const, len_keys. field. lra.
    + intros p _. now rewrite (mem_nil p _ E).
  - assert (Hl : links_of corpus q <> []).
    { intros Hnil. rewrite Hnil in E. discriminate. }
    pose proof (len_pos _ Hl) as HL.
    rewrite (sumQ_indicator (dict_keys corpus) (links_of corpus q)).
    + field. lra.
    + apply (keys_nodup corpus G).
    + apply (links_nodup corpus G q _ Hin).
    + intros p Hp. apply (links_closed corpus G q _ p Hin Hp).
Qed.

Lemma weight_nonneg (corpus : Corpus) (q p : page) : 0 <= weight corpus q p.
Proof.
  unfold weight.
  assert (H : forall A (l : list A), 0 <= 1 / len l).
  { intros A l. pose proof (len_nonneg l) as Hl. unfold Qdiv.
    apply Qmult_le_0_compat; [lra|]. apply Qinv_le_0_compat. exact Hl. }
  destruct (mem p (links_of corpus q)); [apply H|].
  destruct (Nat.eqb _ 0); [apply H | apply Qle_refl].
Qed.

(** What flows out of a table flows into the pages: the sum over the pages
    of the weighted sums is the sum of the table. *)
Lemma flow_sum (corpus : Corpus) (x : page -> Q) :
  Graph_ok corpus ->
  sumQ (map (fun p => sumQ (map (fun q => x q * weight corpus q p)
                                (dict_keys corpus)))
            (dict_keys corpus))
  == sumQ (map x (dict_keys corpus)).
Proof.
  intros G. rewrite sumQ_exchange.
  apply sumQ_map_ext. intros q Hq.
  rewrite sumQ_map_scal, weight_sum by assumption. ring.
Qed.

Lemma pagerank_equation_flow (corpus : Corpus) (damping : Q) (PR : Dict Q)
    (p : page) :
  corpus <> [] ->
  pagerank_equation corpus damping PR p
  == (1 - damping) / len corpus
     + damping * sumQ (map (fun q => rank_of PR q * weight corpus q p)
                           (dict_keys corpus)).
Proof.
  intros Hne. unfold pagerank_equation.
  rewrite (sumQ_map_ext (fun q => contribution corpus PR q p)
             (fun q => rank_of PR q * weight corpus q p)); [reflexivity|].
  intros q _. now apply contribution_weight.
Qed.

(** [total_prob] of a round, from the sum of the table it starts from. *)
Lemma total_prob_value (corpus : Corpus) (damping : Q) (PR : Dict Q) :
  Graph_ok corpus ->
  total_prob_of corpus damping ((1 - damping) / len corpus) (1 / len corpus) PR
  == (1 - damping) + damping * sumQ (map (rank_of PR) (dict_keys corpus)).
Proof.
  intros G. pose proof (graph_nonempty corpus G) as Hne.
  pose proof (len_pos corpus Hne) as HN.
  unfold total_prob_of. rewrite fold_left_Qplus.
  rewrite (sumQ_map_ext _
    (fun p => (1 - damping) / len corpus
              + damping * sumQ (map (fun q => rank_of PR q * weight corpus q p)
                                    (dict_keys corpus)))).
  - rewrite sumQ_map_plus, sumQ_map_const, sumQ_map_scal, flow_sum, len_keys
      by assumption.
    field. lra.
  - intros p _. rewrite new_rank_equation by assumption.
    now apply pagerank_equation_flow.
Qed.

(** ** The start of [iterate_pagerank] *)

Lemma pair_fold {V W : Type} (a : V) (b : W) (l : list page) (x : Dict V)
    (y : Dict W) :
  fold_left (fun '(pr, npr) page_name =>
               (dict_set pr page_name a, dict_set npr page_name b)) l (x, y)
  = (fold_left (fun pr page_name => dict_set pr page_name a) l x,
     fold_left (fun pr page_name => dict_set pr page_name b) l y).
Proof.
  revert x y. induction l as [|k l IH]; intros x y; simpl;
    [reflexivity | apply IH].
Qed.

Lemma iterate_init_closed (corpus : Corpus) (damping : Q) :
  Graph_ok corpus ->
  iterate_init corpus damping
  = Ok ((1 - damping) / len corpus, 1 / len corpus,
        map (fun k => (k, (1 - damping) / len corpus)) (dict_keys corpus),
        map (fun k => (k, None)) (dict_keys corpus)).
Proof.
  intros G. unfold iterate_init.
  pose proof (graph_nonempty corpus G) as Hne.
  pose proof (keys_nodup corpus G) as Hnd.
  rewrite !pydiv_len by assumption. simpl bind.
  pose proof (pair_fold ((1 - damping) / len corpus) (@None Q)
                (dict_keys corpus) [] []) as Hfold.
  rewrite !init_loop in Hfold by (simpl; assumption).
  simpl app in Hfold.
  match goal with
  | |- context [fold_left ?f ?l ?a] =>
      replace (fold_left f l a)
        with (map (fun k : page => (k, (1 - damping) / len corpus)) (dict_keys corpus),
              map (fun k : page => (k, @None Q)) (dict_keys corpus))
        by (symmetry; exact Hfold)
  end.
  reflexivity.
Qed.

Lemma iterate_init_inv (corpus : Corpus) (damping prob_random prob_all : Q)
    (pr0 : Dict Q) (npr0 : Dict (option Q)) :
  Graph_ok corpus ->
  iterate_init corpus damping = Ok (prob_random, prob_all, pr0, npr0) ->
  prob_random = (1 - damping) / len corpus
  /\ prob_all = 1 / len corpus
  /\ pr0 = map (fun k => (k, (1 - damping) / len corpus)) (dict_keys corpus)
  /\ npr0 = map (fun k => (k, None)) (dict_keys corpus).
Proof.
  intros G H. rewrite iterate_init_closed in H by assumption.
  inversion H. auto.
Qed.

(** ** The claims on one round of [iterate_pagerank] *)

Lemma rank_of_next_table (corpus : Corpus) (damping prob_random prob_all : Q)
    (PR : Dict Q) (p : page) :
  In p (dict_keys corpus) ->
  rank_of (next_table corpus damping prob_random prob_all PR) p
  = new_rank corpus damping prob_random prob_all PR p
    / total_prob_of corpus damping prob_random prob_all PR.
Proof.
  intros Hp. unfold next_table.
  now rewrite (rank_of_map _
    (fun k => new_rank corpus damping prob_random prob_all PR k
              / total_prob_of corpus damping prob_random prob_all PR)).
Qed.

(** C1. In every round the update pass gives each page [p] the value
    [(1 - damping)/N + damping * sum over q of contribution(q, p)], computed
    from the table of the previous round whatever [new_pagerank] holds; and
    when that table sums to [1] this is the rank the round leaves for [p]. *)
Theorem update_pass_equation (corpus : Corpus) (damping prob_random prob_all : Q)
    (pr0 : Dict Q) (npr0 : Dict (option Q))
    (pagerank : Dict Q) (new_pagerank : Dict (option Q)) (max_change : Q) :
  Graph_ok corpus ->
  0 <= damping <= 1 ->
  iterate_init corpus damping = Ok (prob_random, prob_all, pr0, npr0) ->
  dict_keys pagerank = dict_keys corpus ->
  dict_keys new_pagerank = dict_keys corpus ->
  (exists updated,
      update_pass corpus damping prob_random prob_all pagerank new_pagerank
        = Ok updated
      /\ forall p, In p (dict_keys corpus) ->
           exists v, dict_get updated p = Ok (Some v)
             /\ v == pagerank_equation corpus damping pagerank p)
  /\ (sumQ (dict_values pagerank) == 1 ->
      exists table npr mc,
        round corpus damping prob_random prob_all
              (pagerank, new_pagerank, max_change) = Ok (table, npr, mc)
        /\ forall p, In p (dict_keys corpus) ->
             rank_of table p == pagerank_equation corpus damping pagerank p).
Proof.
  intros G _ Hinit Hkeys Hnkeys.
  destruct (iterate_init_inv _ _ _ _ _ _ G Hinit) as [-> [-> _]].
  pose proof (graph_nonempty corpus G) as Hne.
  pose proof (keys_nodup corpus G) as Hnd.
  split.
  - rewrite update_pass_closed by assumption.
    eexists. split; [reflexivity|].
    intros p Hp.
    rewrite (get_of_map _ (fun k => Some (new_rank corpus damping
               ((1 - damping) / len corpus) (1 / len corpus) pagerank k)))
      by assumption.
    eexists. split; [reflexivity|]. now apply new_rank_equation.
  - intros Hsum.
    assert (Htot : total_prob_of corpus damping ((1 - damping) / len corpus)
                     (1 / len corpus) pagerank == 1).
    { rewrite total_prob_value by assumption.
      assert (Hv : dict_values pagerank = map (rank_of pagerank) (dict_keys corpus)).
      { rewrite <- Hkeys. unfold dict_values, dict_keys. rewrite map_map.
        apply map_ext_in. intros [k v] Hin. simpl.
        unfold rank_of. rewrite (dict_get_in pagerank k v); auto.
        now rewrite Hkeys. }
      rewrite <- Hv, Hsum. ring. }
    rewrite round_closed by assumption.
    destruct (Qeq_bool _ 0) eqn:E.
    { apply Qeq_bool_eq in E. rewrite Htot in E. discriminate. }
    cbv zeta. do 3 eexists. split; [reflexivity|].
    intros p Hp. rewrite rank_of_next_table by assumption.
    rewrite Htot, new_rank_equation by assumption. field.
Qed.

Lemma update_pass_equation_witness :
  (exists updated,
      update_pass corpus2 (85 # 100) (15 # 200) (1 # 2)
        [("1.html", 1 # 2); ("2.html", 1 # 2)]%string
        [("1.html", None); ("2.html", None)]%string = Ok updated
      /\ forall p, In p (dict_keys corpus2) ->
           exists v, dict_get updated p = Ok (Some v)
             /\ v == pagerank_equation corpus2 (85 # 100)
                      [("1.html", 1 # 2); ("2.html", 1 # 2)]%string p)
  /\ (sumQ (dict_values [("1.html", 1 # 2); ("2.html", 1 # 2)]%string) == 1 ->
      exists table npr mc,
        round corpus2 (85 # 100) (15 # 200) (1 # 2)
              ([("1.html", 1 # 2); ("2.html", 1 # 2)]%string,
               [("1.html", None); ("2.html", None)]%string, 1)
          = Ok (table, npr, mc)
        /\ forall p, In p (dict_keys corpus2) ->
             rank_of table p
             == pagerank_equation corpus2 (85 # 100)
                  [("1.html", 1 # 2); ("2.html", 1 # 2)]%string p).
Proof.
  apply (update_pass_equation corpus2 (85 # 100) (15 # 200) (1 # 2)
           [("1.html", 15 # 200); ("2.html", 15 # 200)]%string
           [("1.html", None); ("2.html", None)]%string).
  - apply check_graph_sound. reflexivity.
  - split; vm_compute; discriminate.
  - reflexivity.
  - reflexivity.
  - reflexivity.
Defined.

(** ** Rounds keep rank tables *)

Section Rounds.
Variable corpus : Corpus.
Variable damping : Q.
Hypothesis G : Graph_ok corpus.

Let ks := dict_keys corpus.
Let prob_random := (1 - damping) / len corpus.
Let prob_all := 1 / len corpus.
Let next := next_table corpus damping prob_random prob_all.
Let total := total_prob_of corpus damping prob_random prob_all.

Lemma len_corpus_pos : 0 < len corpus.
Proof. apply len_pos. apply (graph_nonempty corpus G). Qed.

Lemma values_by_rank (t : Dict Q) :
  dict_keys t = ks -> dict_values t = map (rank_of t) ks.
Proof.
  intros Hkeys. unfold ks in *. rewrite <- Hkeys.
  unfold dict_values, dict_keys. rewrite map_map.
  apply map_ext_in. intros [k v] Hin. simpl.
  unfold rank_of. rewrite (dict_get_in t k v); auto.
  rewrite Hkeys. apply (keys_nodup corpus G).
Qed.

Lemma sum_new_rank (t : Dict Q) :
  sumQ (map (new_rank corpus damping prob_random prob_all t) ks) == total t.
Proof.
  unfold total, total_prob_of. rewrite fold_left_Qplus. fold ks. ring.
Qed.

Lemma next_keys (t : Dict Q) : dict_keys (next t) = ks.
Proof. unfold next, next_table. apply keys_of_map. Qed.

Lemma next_sum (t : Dict Q) :
  ~ total t == 0 -> sumQ (map (rank_of (next t)) ks) == 1.
Proof.
  intros Ht.
  rewrite (sumQ_map_ext _
    (fun k => / total t * new_rank corpus damping prob_random prob_all t k)).
  - rewrite sumQ_map_scal, sum_new_rank. field. exact Ht.
  - intros k Hk. unfold next. rewrite rank_of_next_table by assumption.
    fold total. field. exact Ht.
Qed.

Lemma equation_nonneg (t : Dict Q) (p : page) :
  0 <= damping <= 1 ->
  table_ok corpus t ->
  0 <= pagerank_equation corpus damping t p.
Proof.
  intros [Hd0 Hd1] [_ Hpos]. pose proof len_corpus_pos as HN.
  rewrite pagerank_equation_flow by apply (graph_nonempty corpus G).
  assert (0 <= (1 - damping) / len corpus) by (apply Qle_shift_div_l; lra).
  assert (0 <= sumQ (map (fun q => rank_of t q * weight corpus q p) ks)).
  { apply sumQ_map_nonneg. intros q Hq.
    apply Qmult_le_0_compat; [now apply Hpos | apply weight_nonneg]. }
  fold ks.
  assert (0 <= damping * sumQ (map (fun q => rank_of t q * weight corpus q p) ks))
    by now apply Qmult_le_0_compat.
  lra.
Qed.

Lemma total_pos (t : Dict Q) :
  0 <= damping < 1 -> table_ok corpus t -> 0 < total t.
Proof.
  intros [Hd0 Hd1] [_ Hpos]. unfold total, prob_random, prob_all.
  rewrite total_prob_value by assumption.
  assert (0 <= sumQ (map (rank_of t) ks)) by now apply sumQ_map_nonneg.
  fold ks.
  assert (0 <= damping * sumQ (map (rank_of t) ks))
    by now apply Qmult_le_0_compat.
  lra.
Qed.

Lemma total_one (t : Dict Q) : stochastic corpus t -> total t == 1.
Proof.
  intros [_ Hsum]. unfold total, prob_random, prob_all.
  rewrite total_prob_value, Hsum by assumption. ring.
Qed.

Lemma next_stochastic (t : Dict Q) :
  0 <= damping < 1 -> table_ok corpus t -> stochastic corpus (next t).
Proof.
  intros Hd Ht. pose proof (total_pos t Hd Ht) as Htot.
  split; [split|].
  - apply next_keys.
  - intros k Hk. unfold next. rewrite rank_of_next_table by assumption.
    fold total. apply Qle_shift_div_l; [assumption|].
    unfold prob_random, prob_all.
    rewrite new_rank_equation by apply (graph_nonempty corpus G).
    assert (0 <= pagerank_equation corpus damping t k).
    { apply equation_nonneg; [lra | assumption]. }
    lra.
  - apply next_sum. lra.
Qed.

Lemma next_rank_equation (t : Dict Q) (p : page) :
  stochastic corpus t -> In p ks ->
  rank_of (next t) p == pagerank_equation corpus damping t p.
Proof.
  intros Ht Hp. unfold next. rewrite rank_of_next_table by assumption.
  fold total. rewrite (total_one t Ht).
  unfold prob_random, prob_all.
  rewrite new_rank_equation by apply (graph_nonempty corpus G). field.
Qed.

Lemma round_ok (t : Dict Q) (npr : Dict (option Q)) (mc : Q) :
  0 <= damping < 1 ->
  table_ok corpus t ->
  dict_keys npr = ks ->
  round corpus damping prob_random prob_all (t, npr, mc)
  = Ok (next t, map (fun e => (fst e, Some (snd e))) (next t),
        max_change_val ks t (next t)).
Proof.
  intros Hd Ht Hnpr. pose proof (total_pos t Hd Ht) as Htot.
  rewrite round_closed; [|assumption|apply Ht|assumption].
  fold total. destruct (Qeq_bool (total t) 0) eqn:E; [|reflexivity].
  apply Qeq_bool_eq in E. lra.
Qed.

(** *** The contraction *)

Lemma next_difference (a b : Dict Q) (p : page) :
  stochastic corpus a -> stochastic corpus b -> In p ks ->
  rank_of (next a) p - rank_of (next b) p
  == damping * sumQ (map (fun q => (rank_of a q - rank_of b q)
                                   * weight corpus q p) ks).
Proof.
  intros Ha Hb Hp.
  rewrite !next_rank_equation by assumption.
  rewrite !pagerank_equation_flow by apply (graph_nonempty corpus G).
  fold ks.
  rewrite (sumQ_map_ext (fun q => (rank_of a q - rank_of b q) * weight corpus q p)
             (fun q => rank_of a q * weight corpus q p
                       - rank_of b q * weight corpus q p)).
  - rewrite sumQ_map_minus. ring.
  - intros q _. ring.
Qed.

Lemma next_contracts (a b : Dict Q) :
  0 <= damping ->
  stochastic corpus a -> stochastic corpus b ->
  dist1 ks (next a) (next b) <= damping * dist1 ks a b.
Proof.
  intros Hd Ha Hb. unfold dist1.
  assert (Hflow := flow_sum corpus (fun q => Qabs (rank_of a q - rank_of b q)) G).
  fold ks in Hflow. rewrite <- Hflow, <- sumQ_map_scal.
  apply sumQ_map_le. intros p Hp.
  rewrite next_difference by assumption.
  rewrite Qabs_Qmult, (Qabs_pos damping) by assumption.
  apply Qmult_le_nonneg_l; [assumption|].
  eapply Qle_trans; [apply sumQ_map_abs|].
  apply sumQ_map_le. intros q _.
  rewrite Qabs_Qmult, (Qabs_pos (weight corpus q p)) by apply weight_nonneg.
  apply Qle_refl.
Qed.
End Rounds.

(** ** [max_change] and the distance between tables *)

Lemma py_max_cases (a b : Q) :
  (b <= a /\ py_max a b = a) \/ (a < b /\ py_max a b = b).
Proof.
  unfold py_max. destruct (Qle_bool b a) eqn:E.
  - left. split; [now apply Qle_bool_iff | reflexivity].
  - right. split; [|reflexivity].
    apply Qnot_le_lt. intros H. apply Qle_bool_iff in H. congruence.
Qed.

Lemma max_loop_bounds {A : Type} (g : A -> Q) (l : list A) (m0 : Q) :
  0 <= m0 ->
  (forall x, In x l -> 0 <= g x) ->
  let m := fold_left (fun m x => py_max m (g x)) l m0 in
  m0 <= m
  /\ (forall x, In x l -> g x <= m)
  /\ m <= m0 + sumQ (map g l).
Proof.
  revert m0. induction l as [|x l IH]; intros m0 Hm0 Hg; simpl.
  - repeat split; try lra. intros x [].
  - assert (Hx : 0 <= g x) by (apply Hg; now left).
    assert (Hm1 : 0 <= py_max m0 (g x)).
    { destruct (py_max_cases m0 (g x)) as [[_ ->]|[_ ->]]; assumption. }
    destruct (IH (py_max m0 (g x)) Hm1) as [H1 [H2 H3]].
    { intros y Hy. apply Hg. now right. }
    destruct (py_max_cases m0 (g x)) as [[Hle Heq]|[Hlt Heq]];
      rewrite Heq in *.
    + repeat split; try lra.
      intros y [<-|Hy]; [lra | now apply H2].
    + repeat split; try lra.
      intros y [<-|Hy]; [lra | now apply H2].
Qed.

Lemma max_change_le_dist (ks : list page) (a b : Dict Q) :
  max_change_val ks a b <= dist1 ks a b.
Proof.
  unfold max_change_val, dist1.
  destruct (max_loop_bounds (fun k => Qabs (rank_of a k - rank_of b k)) ks 0)
    as [_ [_ H]].
  - apply Qle_refl.
  - intros x _. apply Qabs_nonneg.
  - lra.
Qed.

Lemma change_le_max_change (ks : list page) (a b : Dict Q) (p : page) :
  In p ks -> Qabs (rank_of a p - rank_of b p) <= max_change_val ks a b.
Proof.
  intros Hp. unfold max_change_val.
  destruct (max_loop_bounds (fun k => Qabs (rank_of a k - rank_of b k)) ks 0)
    as [_ [H _]].
  - apply Qle_refl.
  - intros x _. apply Qabs_nonneg.
  - now apply H.
Qed.

Lemma dist1_stochastic (corpus : Corpus) (a b : Dict Q) :
  stochastic corpus a -> stochastic corpus b ->
  dist1 (dict_keys corpus) a b <= 2.
Proof.
  intros [[_ Ha] Hsa] [[_ Hb] Hsb]. unfold dist1.
  eapply Qle_trans.
  - apply (sumQ_map_le _ (fun k => rank_of a k + rank_of b k)).
    intros k Hk. specialize (Ha k Hk). specialize (Hb k Hk).
    apply Qabs_Qle_condition. split; lra.
  - rewrite sumQ_map_plus, Hsa, Hsb. lra.
Qed.

(** ** Powers of the damping factor *)

Lemma qpow_nonneg (d : Q) (k : nat) : 0 <= d -> 0 <= qpow d k.
Proof.
  intros Hd. induction k as [|k IH]; simpl.
  - lra.
  - now apply Qmult_le_0_compat.
Qed.

(** Bernoulli's bound, in the form that needs no division. *)
Lemma qpow_bernoulli (d : Q) (k : nat) :
  0 <= d <= 1 ->
  qpow d k * (1 + inject_Z (Z.of_nat k) * (1 - d)) <= 1.
Proof.
  intros [Hd0 Hd1]. induction k as [|k IH].
  - change (inject_Z (Z.of_nat 0)) with 0. simpl qpow. lra.
  - rewrite Nat2Z.inj_succ, <- Z.add_1_r, inject_Z_plus.
    simpl qpow. set (n := inject_Z (Z.of_nat k)) in *.
    assert (Hn : 0 <= n).
    { unfold n. change 0 with (inject_Z 0). rewrite <- Zle_Qle. lia. }
    pose proof (qpow_nonneg d k Hd0) as Hp.
    set (x := qpow d k) in *.
    change (inject_Z 1) with 1.
    eapply Qle_trans; [|exact IH].
    setoid_replace (d * x * (1 + (n + 1) * (1 - d)))
      with (x * (d * (1 + (n + 1) * (1 - d)))) by ring.
    apply Qmult_le_nonneg_l; [assumption|].
    assert (0 <= (n + 1) * ((1 - d) * (1 - d))).
    { apply Qmult_le_0_compat; [lra|]. apply Qmult_le_0_compat; lra. }
    setoid_replace (d * (1 + (n + 1) * (1 - d)))
      with (1 + n * (1 - d) - (n + 1) * ((1 - d) * (1 - d))) by ring.
    lra.
Qed.

Lemma archimedes (e : Q) :
  0 < e -> exists m : nat, 2000 <= inject_Z (Z.of_nat m) * e.
Proof.
  intros He. destruct e as [n den].
  assert (Hn : (0 < n)%Z).
  { unfold Qlt in He. simpl in He. lia. }
  exists (Z.to_nat (2000 * Z.pos den)).
  rewrite Z2Nat.id by lia.
  unfold Qle, Qmult, inject_Z. cbn [Qnum Qden].
  rewrite Pos.mul_1_l. nia.
Qed.

Lemma qpow_small (d : Q) :
  0 <= d < 1 -> exists m : nat, 2 * qpow d m <= tolerance.
Proof.
  intros [Hd0 Hd1].
  destruct (archimedes (1 - d)) as [m Hm]; [lra|].
  exists m.
  pose proof (qpow_bernoulli d m (conj Hd0 (Qlt_le_weak _ _ Hd1))) as Hb.
  pose proof (qpow_nonneg d m Hd0) as Hp.
  set (x := qpow d m) in *. set (n := inject_Z (Z.of_nat m)) in *.
  assert (Hx : x * 2001 <= x * (1 + n * (1 - d))).
  { apply Qmult_le_nonneg_l; [assumption | lra]. }
  unfold tolerance. lra.
Qed.

(** ** The convergence loop *)

Lemma iterate_loop_exit (fuel : nat) (corpus : Corpus) (d pr pa : Q)
    (t : Dict Q) (npr : Dict (option Q)) (mc : Q) :
  Qle_bool mc tolerance = true ->
  iterate_loop fuel corpus d pr pa (t, npr, mc) = Returned t.
Proof.
  intros H. destruct fuel; simpl; now rewrite H.
Qed.

Lemma iterate_loop_more (fuel : nat) (corpus : Corpus) (d pr pa : Q)
    (t : Dict Q) (npr : Dict (option Q)) (mc : Q) (st' : loop_state) :
  Qle_bool mc tolerance = false ->
  round corpus d pr pa (t, npr, mc) = Ok st' ->
  iterate_loop (S fuel) corpus d pr pa (t, npr, mc)
  = iterate_loop fuel corpus d pr pa st'.
Proof.
  intros H Hr. simpl iterate_loop. rewrite H.
  change (match round corpus d pr pa (t, npr, mc) with
          | Ok st'0 => iterate_loop fuel corpus d pr pa st'0
          | Raise e => Raised e
          end = iterate_loop fuel corpus d pr pa st').
  now rewrite Hr.
Qed.

Lemma iterate_loop_raise (fuel : nat) (corpus : Corpus) (d pr pa : Q)
    (t : Dict Q) (npr : Dict (option Q)) (mc : Q) (e : exn) :
  Qle_bool mc tolerance = false ->
  round corpus d pr pa (t, npr, mc) = Raise e ->
  iterate_loop (S fuel) corpus d pr pa (t, npr, mc) = Raised e.
Proof.
  intros H Hr. simpl iterate_loop. rewrite H.
  change (match round corpus d pr pa (t, npr, mc) with
          | Ok st'0 => iterate_loop fuel corpus d pr pa st'0
          | Raise e => Raised e
          end = Raised e).
  now rewrite Hr.
Qed.

Lemma iterate_loop_starved (corpus : Corpus) (d pr pa : Q)
    (t : Dict Q) (npr : Dict (option Q)) (mc : Q) :
  Qle_bool mc tolerance = false ->
  iterate_loop 0 corpus d pr pa (t, npr, mc) = OutOfFuel.
Proof.
  intros H. simpl. now rewrite H.
Qed.

Lemma rounds_succ (k : nat) (corpus : Corpus) (d pr pa : Q) (st : loop_state) :
  rounds (S k) corpus d pr pa st
  = (st' <- round corpus d pr pa st ;; rounds k corpus d pr pa st').
Proof. reflexivity. Qed.

Section Convergence.
Variable corpus : Corpus.
Variable damping : Q.
Hypothesis G : Graph_ok corpus.
Hypothesis Hd : 0 <= damping < 1.

Let ks := dict_keys corpus.
Let prob_random := (1 - damping) / len corpus.
Let prob_all := 1 / len corpus.
Let next := next_table corpus damping prob_random prob_all.
Let after := fun k => table_after k corpus damping prob_random prob_all.

Lemma after_next (k : nat) (t : Dict Q) : after (S k) t = next (after k t).
Proof.
  revert t. induction k as [|k IH]; intros t.
  - reflexivity.
  - change (after (S (S k)) t) with (after (S k) (next t)).
    rewrite IH. reflexivity.
Qed.

Lemma stochastic_table_ok (t : Dict Q) : stochastic corpus t -> table_ok corpus t.
Proof. now intros [H _]. Qed.

Lemma after_stochastic (k : nat) (t : Dict Q) :
  stochastic corpus t -> stochastic corpus (after k t).
Proof.
  revert t. induction k as [|k IH]; intros t Ht.
  - exact Ht.
  - change (after (S k) t) with (after k (next t)).
    apply IH. apply next_stochastic; auto using stochastic_table_ok.
Qed.

Lemma after_table_ok (k : nat) (t : Dict Q) :
  table_ok corpus t -> table_ok corpus (after k t).
Proof.
  intros Ht. destruct k as [|k]; [exact Ht|].
  change (after (S k) t) with (after k (next t)).
  apply stochastic_table_ok, after_stochastic.
  now apply next_stochastic.
Qed.

Lemma after_contracts (i : nat) (a b : Dict Q) :
  stochastic corpus a -> stochastic corpus b ->
  dist1 ks (after i a) (after i b) <= qpow damping i * dist1 ks a b.
Proof.
  revert a b. induction i as [|i IH]; intros a b Ha Hb.
  - simpl qpow. change (after 0 a) with a. change (after 0 b) with b. lra.
  - change (after (S i) a) with (after i (next a)).
    change (after (S i) b) with (after i (next b)).
    eapply Qle_trans.
    + apply IH; apply next_stochastic; auto using stochastic_table_ok.
    + simpl qpow.
      setoid_replace (damping * qpow damping i * dist1 ks a b)
        with (qpow damping i * (damping * dist1 ks a b)) by ring.
      apply Qmult_le_nonneg_l; [apply qpow_nonneg; lra|].
      apply next_contracts; auto. lra.
Qed.

(** The change of round [m + 2] is at most [2 * damping ^ m]. *)
Lemma change_bound (m : nat) (t : Dict Q) :
  table_ok corpus t ->
  max_change_val ks (after (S m) t) (after (S (S m)) t) <= 2 * qpow damping m.
Proof.
  intros Ht.
  eapply Qle_trans; [apply max_change_le_dist|].
  change (after (S (S m)) t) with (after m (next (next t))).
  change (after (S m) t) with (after m (next t)).
  assert (H1 : stochastic corpus (next t)) by now apply next_stochastic.
  assert (H2 : stochastic corpus (next (next t))).
  { apply next_stochastic; auto using stochastic_table_ok. }
  eapply Qle_trans; [apply after_contracts; assumption|].
  pose proof (dist1_stochastic corpus _ _ H1 H2) as Hdist.
  pose proof (qpow_nonneg damping m (proj1 Hd)) as Hp.
  fold ks in Hdist.
  setoid_replace (2 * qpow damping m) with (qpow damping m * 2) by ring.
  now apply Qmult_le_nonneg_l.
Qed.

Lemma some_round_converges (t : Dict Q) :
  table_ok corpus t ->
  exists m, max_change_val ks (after m t) (after (S m) t) <= tolerance.
Proof.
  intros Ht. destruct (qpow_small damping Hd) as [m Hm].
  exists (S m). eapply Qle_trans; [now apply change_bound | exact Hm].
Qed.

Lemma rounds_after (k : nat) (t : Dict Q) (npr : Dict (option Q)) (mc : Q) :
  table_ok corpus t ->
  dict_keys npr = ks ->
  exists npr' mc',
    rounds k corpus damping prob_random prob_all (t, npr, mc)
    = Ok (after k t, npr', mc')
    /\ dict_keys npr' = ks.
Proof.
  revert t npr mc. induction k as [|k IH]; intros t npr mc Ht Hnpr.
  - exists npr, mc. split; [reflexivity | assumption].
  - rewrite rounds_succ. unfold prob_random, prob_all.
    rewrite round_ok by assumption. simpl bind.
    change (after (S k) t) with (after k (next t)).
    apply IH.
    + apply stochastic_table_ok. now apply next_stochastic.
    + rewrite (keys_map_values Some). apply next_keys.
Qed.

(** The loop leaves at the first round whose change is within the
    tolerance, and at no other. *)
Lemma loop_converges (m : nat) :
  forall (t : Dict Q) (npr : Dict (option Q)) (mc : Q),
  table_ok corpus t ->
  dict_keys npr = ks ->
  Qle_bool mc tolerance = false ->
  max_change_val ks (after m t) (after (S m) t) <= tolerance ->
  exists k,
    (1 <= k <= S m)%nat
    /\ (forall fuel, (k <= fuel)%nat ->
          iterate_loop fuel corpus damping prob_random prob_all (t, npr, mc)
          = Returned (after k t))
    /\ (forall fuel, (fuel < k)%nat ->
          iterate_loop fuel corpus damping prob_random prob_all (t, npr, mc)
          = OutOfFuel)
    /\ max_change_val ks (after (k - 1) t) (after k t) <= tolerance.
Proof.
  induction m as [|m IH]; intros t npr mc Ht Hnpr Hmc Hconv.
  - exists 1%nat. split; [lia|].
    assert (Hround := round_ok corpus damping G t npr mc Hd Ht Hnpr).
    split; [|split].
    + intros [|fuel] Hf; [lia|].
      rewrite (iterate_loop_more _ _ _ _ _ _ _ _ _ Hmc Hround).
      apply iterate_loop_exit. now apply Qle_bool_iff.
    + intros fuel Hf. assert (fuel = 0)%nat as -> by lia.
      now apply iterate_loop_starved.
    + exact Hconv.
  - assert (Hround := round_ok corpus damping G t npr mc Hd Ht Hnpr).
    fold prob_random prob_all next ks in Hround.
    destruct (Qle_bool (max_change_val ks t (next t)) tolerance) eqn:E.
    + exists 1%nat. split; [lia|]. split; [|split].
      * intros [|fuel] Hf; [lia|].
        rewrite (iterate_loop_more _ _ _ _ _ _ _ _ _ Hmc Hround).
        now apply iterate_loop_exit.
      * intros fuel Hf. assert (fuel = 0)%nat as -> by lia.
        now apply iterate_loop_starved.
      * now apply Qle_bool_iff.
    + destruct (IH (next t) (map (fun e => (fst e, Some (snd e))) (next t))
                  (max_change_val ks t (next t)))
        as [k [Hk [Hret [Hout Hlast]]]]; try assumption.
      * apply stochastic_table_ok. now apply next_stochastic.
      * rewrite (keys_map_values Some). apply next_keys.
      * exists (S k). split; [lia|]. split; [|split].
        -- intros [|fuel] Hf; [lia|].
           rewrite (iterate_loop_more _ _ _ _ _ _ _ _ _ Hmc Hround).
           apply Hret. lia.
        -- intros [|fuel] Hf.
           ++ now apply iterate_loop_starved.
           ++ rewrite (iterate_loop_more _ _ _ _ _ _ _ _ _ Hmc Hround).
              apply Hout. lia.
        -- destruct k as [|k]; [lia|].
           replace (S (S k) - 1)%nat with (S k) by lia.
           replace (S k - 1)%nat with k in Hlast by lia.
           exact Hlast.
Qed.
End Convergence.

(** ** The claims on the loop of [iterate_pagerank] *)

Lemma init_table_ok (corpus : Corpus) (damping : Q) :
  Graph_ok corpus -> 0 <= damping <= 1 ->
  table_ok corpus
    (map (fun k => (k, (1 - damping) / len corpus)) (dict_keys corpus)).
Proof.
  intros G [Hd0 Hd1]. split.
  - apply keys_of_const.
  - intros k Hk. rewrite (rank_of_map _ (fun _ => (1 - damping) / len corpus))
      by assumption.
    pose proof (len_corpus_pos corpus G). apply Qle_shift_div_l; lra.
Qed.

(** The state after at least one round: its table, and the change of its
    last round. *)
Lemma rounds_after_change (corpus : Corpus) (damping : Q) :
  Graph_ok corpus ->
  0 <= damping < 1 ->
  forall (j : nat) (t : Dict Q) (npr : Dict (option Q)) (mc : Q),
  table_ok corpus t ->
  dict_keys npr = dict_keys corpus ->
  exists npr',
    rounds (S j) corpus damping ((1 - damping) / len corpus) (1 / len corpus)
           (t, npr, mc)
    = Ok (table_after (S j) corpus damping ((1 - damping) / len corpus)
            (1 / len corpus) t,
          npr',
          max_change_val (dict_keys corpus)
            (table_after j corpus damping ((1 - damping) / len corpus)
               (1 / len corpus) t)
            (table_after (S j) corpus damping ((1 - damping) / len corpus)
               (1 / len corpus) t)).
Proof.
  intros G Hd. induction j as [|j IH]; intros t npr mc Ht Hnpr.
  - rewrite rounds_succ, (round_ok corpus damping G t npr mc Hd Ht Hnpr).
    eexists. reflexivity.
  - rewrite rounds_succ, (round_ok corpus damping G t npr mc Hd Ht Hnpr).
    simpl bind.
    destruct (IH (next_table corpus damping ((1 - damping) / len corpus)
                    (1 / len corpus) t)
                 (map (fun e => (fst e, Some (snd e)))
                      (next_table corpus damping ((1 - damping) / len corpus)
                         (1 / len corpus) t))
                 (max_change_val (dict_keys corpus) t
                    (next_table corpus damping ((1 - damping) / len corpus)
                       (1 / len corpus) t)))
      as [npr' Hrun].
    + apply stochastic_table_ok. now apply next_stochastic.
    + rewrite (keys_map_values Some). apply next_keys.
    + exists npr'. exact Hrun.
Qed.

(** C9, in exact arithmetic.  On a graph and for a damping factor in [0,1),
    with ranks and loop test read as rationals, the loop of
    [iterate_pagerank] ends: there is a round [k] after which the function
    returns, the ranks of that round are within the tolerance of those of
    the round before, every earlier round moved some rank by more than the
    tolerance, and the loop runs that long whatever [k] is (with less than
    [k] passes allowed it is still running). *)
Theorem iterate_pagerank_terminates (corpus : Corpus) (damping : Q) :
  Graph_ok corpus ->
  0 <= damping < 1 ->
  exists (k : nat) (table : Dict Q),
    (1 <= k)%nat
    /\ (forall fuel, (k <= fuel)%nat ->
          iterate_pagerank fuel corpus damping = Returned table)
    /\ (forall fuel, (fuel < k)%nat ->
          iterate_pagerank fuel corpus damping = OutOfFuel)
    /\ exists prob_random prob_all pr0 npr0 prev npr mc npr' mc',
         iterate_init corpus damping = Ok (prob_random, prob_all, pr0, npr0)
         /\ rounds (k - 1) corpus damping prob_random prob_all (pr0, npr0, 1)
            = Ok (prev, npr, mc)
         /\ round corpus damping prob_random prob_all (prev, npr, mc)
            = Ok (table, npr', mc')
         /\ mc' <= tolerance
         /\ (forall p, In p (dict_keys corpus) ->
               Qabs (rank_of prev p - rank_of table p) <= tolerance)
         /\ forall j, (1 <= j < k)%nat ->
              exists pr_j npr_j mc_j,
                rounds j corpus damping prob_random prob_all (pr0, npr0, 1)
                = Ok (pr_j, npr_j, mc_j)
                /\ tolerance < mc_j.
Proof.
  intros G Hd.
  assert (Hd' : 0 <= damping <= 1) by (split; lra).
  pose proof (init_table_ok corpus damping G Hd') as Ht0.
  set (t0 := map (fun k => (k, (1 - damping) / len corpus)) (dict_keys corpus)) in *.
  set (n0 := map (fun k : page => (k, @None Q)) (dict_keys corpus)).
  assert (Hn0 : dict_keys n0 = dict_keys corpus) by apply keys_of_const.
  destruct (some_round_converges corpus damping G Hd t0 Ht0) as [m Hm].
  destruct (loop_converges corpus damping G Hd m t0 n0 1 Ht0 Hn0 eq_refl Hm)
    as [k [Hk [Hret [Hout Hlast]]]].
  exists k, (table_after k corpus damping ((1 - damping) / len corpus)
               (1 / len corpus) t0).
  split; [lia|].
  split.
  { intros fuel Hf. unfold iterate_pagerank.
    rewrite iterate_init_closed by assumption. now apply Hret. }
  split.
  { intros fuel Hf. unfold iterate_pagerank.
    rewrite iterate_init_closed by assumption. now apply Hout. }
  destruct (rounds_after corpus damping G Hd (k - 1) t0 n0 1 Ht0 Hn0)
    as [npr [mc [Hrounds Hnpr]]].
  pose proof (after_table_ok corpus damping G Hd (k - 1) t0 Ht0) as Hprev.
  pose proof (round_ok corpus damping G _ npr mc Hd Hprev Hnpr) as Hround.
  rewrite <- (after_next corpus damping) in Hround.
  replace (S (k - 1)) with k in Hround by lia.
  do 9 eexists.
  split; [now apply iterate_init_closed|].
  split; [exact Hrounds|].
  split; [exact Hround|].
  split; [exact Hlast|].
  split.
  { intros p Hp. eapply Qle_trans; [|exact Hlast].
    now apply change_le_max_change. }
  intros j Hj.
  destruct (rounds_after_change corpus damping G Hd (j - 1) t0 n0 1 Ht0 Hn0)
    as [npr_j Hrj].
  replace (S (j - 1)) with j in Hrj by lia.
  do 3 eexists. split; [exact Hrj|].
  apply Qnot_le_lt. intros Hle.
  destruct (loop_converges corpus damping G Hd (j - 1) t0 n0 1 Ht0 Hn0 eq_refl)
    as [k' [Hk' [Hret' _]]].
  { replace (S (j - 1)) with j by lia. exact Hle. }
  assert (Hlt : (k' < k)%nat) by lia.
  specialize (Hout k' Hlt). rewrite (Hret' k' (Nat.le_refl k')) in Hout.
  discriminate.
Qed.

Lemma iterate_pagerank_terminates_witness :
  exists (k : nat) (table : Dict Q),
    (1 <= k)%nat
    /\ (forall fuel, (k <= fuel)%nat ->
          iterate_pagerank fuel corpus3 (85 # 100) = Returned table)
    /\ (forall fuel, (fuel < k)%nat ->
          iterate_pagerank fuel corpus3 (85 # 100) = OutOfFuel)
    /\ exists prob_random prob_all pr0 npr0 prev npr mc npr' mc',
         iterate_init corpus3 (85 # 100) = Ok (prob_random, prob_all, pr0, npr0)
         /\ rounds (k - 1) corpus3 (85 # 100) prob_random prob_all (pr0, npr0, 1)
            = Ok (prev, npr, mc)
         /\ round corpus3 (85 # 100) prob_random prob_all (prev, npr, mc)
            = Ok (table, npr', mc')
         /\ mc' <= tolerance
         /\ (forall p, In p (dict_keys corpus3) ->
               Qabs (rank_of prev p - rank_of table p) <= tolerance)
         /\ forall j, (1 <= j < k)%nat ->
              exists pr_j npr_j mc_j,
                rounds j corpus3 (85 # 100) prob_random prob_all (pr0, npr0, 1)
                = Ok (pr_j, npr_j, mc_j)
                /\ tolerance < mc_j.
Proof.
  apply (iterate_pagerank_terminates corpus3 (85 # 100)).
  - apply check_graph_sound. reflexivity.
  - split; vm_compute; [discriminate | reflexivity].
Defined.

(** ** The loop on binary64 *)

Lemma float_loop_step (fuel : nat)
    (sum : list PrimFloat.float -> PrimFloat.float) (corpus : Corpus)
    (d pr pa : PrimFloat.float) (st st' : F64.loop_state) :
  PrimFloat.ltb F64.tolerance (snd st) = true ->
  F64.round sum corpus d pr pa st = Ok st' ->
  F64.iterate_loop (S fuel) sum corpus d pr pa st
  = F64.iterate_loop fuel sum corpus d pr pa st'.
Proof.
  destruct st as [[p n] mc]. intros Hmc Hr. cbn [snd] in Hmc.
  cbn [F64.iterate_loop]. rewrite Hmc, Hr. reflexivity.
Qed.

Lemma float_loop_starved (sum : list PrimFloat.float -> PrimFloat.float)
    (corpus : Corpus) (d pr pa : PrimFloat.float) (st : F64.loop_state) :
  PrimFloat.ltb F64.tolerance (snd st) = true ->
  F64.iterate_loop 0 sum corpus d pr pa st = OutOfFuel.
Proof.
  destruct st as [[p n] mc]. intros Hmc. cbn [snd] in Hmc.
  cbn [F64.iterate_loop]. rewrite Hmc. reflexivity.
Qed.

(** A state that comes back after three rounds, each of them changing some
    rank by more than the tolerance, is never left. *)
Lemma float_loop_cycle (sum : list PrimFloat.float -> PrimFloat.float)
    (corpus : Corpus) (d pr pa : PrimFloat.float) (s a b : F64.loop_state) :
  F64.round sum corpus d pr pa s = Ok a ->
  F64.round sum corpus d pr pa a = Ok b ->
  F64.round sum corpus d pr pa b = Ok s ->
  PrimFloat.ltb F64.tolerance (snd s) = true ->
  PrimFloat.ltb F64.tolerance (snd a) = true ->
  PrimFloat.ltb F64.tolerance (snd b) = true ->
  forall fuel, F64.iterate_loop fuel sum corpus d pr pa s = OutOfFuel.
Proof.
  intros Hs Ha Hb Ms Ma Mb.
  assert (H : forall fuel,
             F64.iterate_loop fuel sum corpus d pr pa s = OutOfFuel
             /\ F64.iterate_loop fuel sum corpus d pr pa a = OutOfFuel
             /\ F64.iterate_loop fuel sum corpus d pr pa b = OutOfFuel).
  { induction fuel as [|fuel [IHs [IHa IHb]]].
    - repeat split; apply float_loop_starved; assumption.
    - repeat split.
      + rewrite (float_loop_step fuel sum corpus d pr pa s a Ms Hs).
        exact IHa.
      + rewrite (float_loop_step fuel sum corpus d pr pa a b Ma Ha).
        exact IHb.
      + rewrite (float_loop_step fuel sum corpus d pr pa b s Mb Hb).
        exact IHs. }
  intros fuel. apply H.
Qed.

Ltac float_step :=
  erewrite float_loop_step;
  [ | vm_compute; reflexivity | vm_compute; reflexivity ].

Ltac float_cycle :=
  eapply float_loop_cycle; vm_compute; reflexivity.

(** On [corpus4] at the damping factor [1 - 2**-53] the state after four
    rounds is the state after seven. *)
Lemma float_rounds_repeat (sum : list PrimFloat.float -> PrimFloat.float) :
  sum = F64.sum_left \/ sum = F64.sum_neumaier ->
  exists pr pa p n s,
    F64.iterate_init corpus4 F64.below_one = Ok (pr, pa, p, n)
    /\ F64.rounds 4 sum corpus4 F64.below_one pr pa (p, n, PrimFloat.one)
       = Ok s
    /\ F64.rounds 3 sum corpus4 F64.below_one pr pa s = Ok s
    /\ snd s = PrimFloat.div PrimFloat.one (F64.float_of_nat 8).
Proof.
  intros [-> | ->]; do 5 eexists;
    (split; [vm_compute; reflexivity|]);
    (split; [vm_compute; reflexivity|]);
    split; vm_compute; reflexivity.
Qed.

Lemma float_never_returns_left (fuel : nat) :
  F64.iterate_pagerank fuel F64.sum_left corpus4 F64.below_one = OutOfFuel.
Proof.
  destruct fuel as [|[|[|[|fuel]]]]; try (vm_compute; reflexivity).
  unfold F64.iterate_pagerank.
  let v := eval vm_compute in (F64.iterate_init corpus4 F64.below_one) in
  change (F64.iterate_init corpus4 F64.below_one) with v.
  cbv iota beta.
  do 4 float_step.
  float_cycle.
Qed.

Lemma float_never_returns_neumaier (fuel : nat) :
  F64.iterate_pagerank fuel F64.sum_neumaier corpus4 F64.below_one
  = OutOfFuel.
Proof.
  destruct fuel as [|[|[|[|fuel]]]]; try (vm_compute; reflexivity).
  unfold F64.iterate_pagerank.
  let v := eval vm_compute in (F64.iterate_init corpus4 F64.below_one) in
  change (F64.iterate_init corpus4 F64.below_one) with v.
  cbv iota beta.
  do 4 float_step.
  float_cycle.
Qed.

(** C9, on binary64: [corpus4] is a graph and [1 - 2**-53] is a damping
    factor in [0,1), and [iterate_pagerank] does not terminate on them.
    From the fourth round on the loop repeats three tables, one rank moving
    by [0.125] in each round, so however many passes are allowed the loop
    is still running; this with either way of adding up [sum]. *)
Lemma iterate_pagerank_float_never_returns :
  Graph_ok corpus4
  /\ PrimFloat.leb PrimFloat.zero F64.below_one = true
  /\ PrimFloat.ltb F64.below_one PrimFloat.one = true
  /\ (forall fuel,
        F64.iterate_pagerank fuel F64.sum_left corpus4 F64.below_one
        = OutOfFuel)
  /\ (forall fuel,
        F64.iterate_pagerank fuel F64.sum_neumaier corpus4 F64.below_one
        = OutOfFuel).
Proof.
  split; [apply check_graph_sound; reflexivity|].
  split; [vm_compute; reflexivity|].
  split; [vm_compute; reflexivity|].
  split; intros fuel.
  - apply float_never_returns_left.
  - apply float_never_returns_neumaier.
Qed.

(** In exact arithmetic the same input is within the tolerance after
    finitely many rounds ([iterate_pagerank_terminates]); on binary64 at the
    damping factor 0.85 of [main] the loop returns on [corpus4] after 31
    rounds, and at damping factor 1 the first round divides by zero. *)
Example float_damping_main :
  exists table,
    F64.iterate_pagerank 31 F64.sum_left corpus4 F64.DAMPING
    = Returned table
    /\ F64.iterate_pagerank 30 F64.sum_left corpus4 F64.DAMPING
       = OutOfFuel
    /\ dict_keys table = dict_keys corpus4
    /\ forallb (fun rank => PrimFloat.ltb PrimFloat.zero rank
                            && PrimFloat.leb rank PrimFloat.one)
         (dict_values table) = true.
Proof.
  eexists.
  split; [vm_compute; reflexivity|].
  split; [vm_compute; reflexivity|].
  split; vm_compute; reflexivity.
Qed.

(** The rank of [D], a page nobody links to, is the share of the random
    jump in exact arithmetic; the float returned for it is below
    [prob_random]. *)
Example float_rank_below_floor :
  exists prob_random prob_all pagerank new_pagerank table rank,
    F64.iterate_init corpus4 F64.DAMPING
    = Ok (prob_random, prob_all, pagerank, new_pagerank)
    /\ F64.iterate_pagerank 31 F64.sum_left corpus4 F64.DAMPING
       = Returned table
    /\ dict_get table "D"%string = Ok rank
    /\ PrimFloat.ltb rank prob_random = true
    /\ PrimFloat.ltb PrimFloat.zero rank = true.
Proof.
  do 6 eexists.
  split; [vm_compute; reflexivity|].
  split; [vm_compute; reflexivity|].
  split; [vm_compute; reflexivity|].
  split; vm_compute; reflexivity.
Qed.

Example float_damping_one :
  F64.iterate_pagerank 1 F64.sum_left corpus3 PrimFloat.one
  = Raised ZeroDivisionError
  /\ F64.iterate_pagerank 1 F64.sum_neumaier corpus3 PrimFloat.one
     = Raised ZeroDivisionError.
Proof.
  split; vm_compute; reflexivity.
Qed.

(** A round that ends leaves a table that sums to [1], whatever the damping
    factor. *)
Lemma round_sum (corpus : Corpus) (damping prob_random prob_all : Q)
    (pagerank : Dict Q) (new_pagerank : Dict (option Q)) (mc : Q)
    (table : Dict Q) (npr' : Dict (option Q)) (mc' : Q) :
  Graph_ok corpus ->
  dict_keys pagerank = dict_keys corpus ->
  dict_keys new_pagerank = dict_keys corpus ->
  round corpus damping prob_random prob_all (pagerank, new_pagerank, mc)
    = Ok (table, npr', mc') ->
  sumQ (dict_values table) == 1
  /\ dict_keys table = dict_keys corpus
  /\ dict_keys npr' = dict_keys corpus.
Proof.
  intros G Hkeys Hnkeys Hround.
  rewrite round_closed in Hround by assumption.
  destruct (Qeq_bool _ 0) eqn:E; [discriminate|].
  apply Qeq_bool_neq in E. cbv zeta in Hround.
  inversion Hround; subst; clear Hround.
  assert (Hk : dict_keys (next_table corpus damping prob_random prob_all pagerank)
               = dict_keys corpus) by apply keys_of_map.
  split; [|split].
  - rewrite (values_by_rank corpus G _ Hk).
    rewrite (sumQ_map_ext _
      (fun k => / total_prob_of corpus damping prob_random prob_all pagerank
                * new_rank corpus damping prob_random prob_all pagerank k)).
    + assert (Hs : sumQ (map (new_rank corpus damping prob_random prob_all pagerank)
                             (dict_keys corpus))
                   == total_prob_of corpus damping prob_random prob_all pagerank).
      { unfold total_prob_of. rewrite fold_left_Qplus. ring. }
      rewrite sumQ_map_scal, Hs. field. exact E.
    + intros k Hin. rewrite rank_of_next_table by assumption. field. exact E.
  - exact Hk.
  - rewrite (keys_map_values Some). exact Hk.
Qed.

Lemma loop_sum (corpus : Corpus) (damping prob_random prob_all : Q) (fuel : nat) :
  Graph_ok corpus ->
  forall (pagerank : Dict Q) (new_pagerank : Dict (option Q)) (mc : Q)
         (table : Dict Q),
  dict_keys pagerank = dict_keys corpus ->
  dict_keys new_pagerank = dict_keys corpus ->
  (Qle_bool mc tolerance = true -> sumQ (dict_values pagerank) == 1) ->
  iterate_loop fuel corpus damping prob_random prob_all
               (pagerank, new_pagerank, mc) = Returned table ->
  sumQ (dict_values table) == 1.
Proof.
  intros G. induction fuel as [|fuel IH];
    intros pagerank new_pagerank mc table Hkeys Hnkeys Hsum Hrun;
    destruct (Qle_bool mc tolerance) eqn:E.
  - rewrite iterate_loop_exit in Hrun by assumption.
    inversion Hrun; subst. now apply Hsum.
  - rewrite iterate_loop_starved in Hrun by assumption. discriminate.
  - rewrite iterate_loop_exit in Hrun by assumption.
    inversion Hrun; subst. now apply Hsum.
  - destruct (round corpus damping prob_random prob_all
                    (pagerank, new_pagerank, mc)) as [[[t' n'] mc']|e] eqn:Hr.
    + rewrite (iterate_loop_more _ _ _ _ _ _ _ _ _ E Hr) in Hrun.
      destruct (round_sum _ _ _ _ _ _ _ _ _ _ G Hkeys Hnkeys Hr)
        as [Hs [Hk Hn]].
      apply (IH t' n' mc' table); auto.
    + rewrite (iterate_loop_raise _ _ _ _ _ _ _ _ _ E Hr) in Hrun.
      discriminate.
Qed.

(** What [iterate_pagerank] returns is the table after some number of
    rounds, at least one. *)
Lemma returned_table (corpus : Corpus) (damping : Q) (fuel : nat)
    (table : Dict Q) :
  Graph_ok corpus ->
  0 <= damping < 1 ->
  iterate_pagerank fuel corpus damping = Returned table ->
  exists k,
    table = table_after (S k) corpus damping ((1 - damping) / len corpus)
              (1 / len corpus)
              (map (fun k => (k, (1 - damping) / len corpus)) (dict_keys corpus))
    /\ max_change_val (dict_keys corpus)
         (table_after k corpus damping ((1 - damping) / len corpus)
            (1 / len corpus)
            (map (fun k => (k, (1 - damping) / len corpus)) (dict_keys corpus)))
         table <= tolerance.
Proof.
  intros G Hd Hrun.
  assert (Hd' : 0 <= damping <= 1) by (split; lra).
  pose proof (init_table_ok corpus damping G Hd') as Ht0.
  set (t0 := map (fun k => (k, (1 - damping) / len corpus)) (dict_keys corpus)) in *.
  set (n0 := map (fun k : page => (k, @None Q)) (dict_keys corpus)).
  assert (Hn0 : dict_keys n0 = dict_keys corpus) by apply keys_of_const.
  destruct (some_round_converges corpus damping G Hd t0 Ht0) as [m Hm].
  destruct (loop_converges corpus damping G Hd m t0 n0 1 Ht0 Hn0 eq_refl Hm)
    as [k [Hk [Hret [Hout Hlast]]]].
  unfold iterate_pagerank in Hrun.
  rewrite iterate_init_closed in Hrun by assumption.
  fold t0 n0 in Hrun.
  destruct (Nat.lt_ge_cases fuel k) as [Hlt|Hge].
  - rewrite (Hout fuel Hlt) in Hrun. discriminate.
  - rewrite (Hret fuel Hge) in Hrun. inversion Hrun; subst.
    destruct k as [|k]; [lia|]. exists k.
    replace (S k - 1)%nat with k in Hlast by lia.
    split; [reflexivity | exact Hlast].
Qed.

Lemma round_bound (corpus : Corpus) (damping : Q) (m : nat) :
  Graph_ok corpus ->
  0 <= damping < 1 ->
  2 * qpow damping m <= tolerance ->
  exists k table,
    (1 <= k <= m + 2)%nat
    /\ (forall fuel, (k <= fuel)%nat ->
          iterate_pagerank fuel corpus damping = Returned table)
    /\ forall fuel, (fuel < k)%nat ->
         iterate_pagerank fuel corpus damping = OutOfFuel.
Proof.
  intros G Hd Hm.
  assert (Hd' : 0 <= damping <= 1) by (split; lra).
  pose proof (init_table_ok corpus damping G Hd') as Ht0.
  set (t0 := map (fun k => (k, (1 - damping) / len corpus)) (dict_keys corpus)) in *.
  set (n0 := map (fun k : page => (k, @None Q)) (dict_keys corpus)).
  assert (Hn0 : dict_keys n0 = dict_keys corpus) by apply keys_of_const.
  assert (Hconv : max_change_val (dict_keys corpus)
            (table_after (S m) corpus damping ((1 - damping) / len corpus)
               (1 / len corpus) t0)
            (table_after (S (S m)) corpus damping ((1 - damping) / len corpus)
               (1 / len corpus) t0) <= tolerance).
  { eapply Qle_trans; [now apply change_bound | exact Hm]. }
  destruct (loop_converges corpus damping G Hd (S m) t0 n0 1 Ht0 Hn0 eq_refl Hconv)
    as [k [Hk [Hret [Hout _]]]].
  exists k. eexists. split; [lia|]. split.
  - intros fuel Hf. unfold iterate_pagerank.
    rewrite iterate_init_closed by assumption. now apply Hret.
  - intros fuel Hf. unfold iterate_pagerank.
    rewrite iterate_init_closed by assumption. now apply Hout.
Qed.

Lemma returned_shape (corpus : Corpus) (damping : Q) (fuel : nat)
    (table : Dict Q) :
  Graph_ok corpus ->
  0 <= damping < 1 ->
  iterate_pagerank fuel corpus damping = Returned table ->
  dict_keys table = dict_keys corpus /\ sumQ (dict_values table) == 1.
Proof.
  intros G Hd Hrun. split.
  - destruct (returned_table corpus damping fuel table G Hd Hrun) as [k [Ht _]].
    rewrite Ht, (after_next corpus damping). apply next_keys.
  - unfold iterate_pagerank in Hrun.
    rewrite iterate_init_closed in Hrun by assumption.
    eapply (loop_sum _ _ _ _ fuel G); [| | |exact Hrun].
    + apply keys_of_const.
    + apply keys_of_const.
    + intros H. discriminate.
Qed.

(** What a round that ends has done: the update pass filled every slot,
    the sum of the slots is not zero, and each rank of the table is the slot
    divided by that sum. *)
Lemma round_divides (corpus : Corpus) (damping prob_random prob_all : Q)
    (pagerank : Dict Q) (new_pagerank : Dict (option Q)) (mc : Q)
    (table : Dict Q) (npr' : Dict (option Q)) (mc' : Q) :
  Graph_ok corpus ->
  dict_keys pagerank = dict_keys corpus ->
  dict_keys new_pagerank = dict_keys corpus ->
  round corpus damping prob_random prob_all (pagerank, new_pagerank, mc)
    = Ok (table, npr', mc') ->
  exists updated total_prob,
    update_pass corpus damping prob_random prob_all pagerank new_pagerank
      = Ok updated
    /\ py_sum (dict_values updated) = Ok total_prob
    /\ ~ total_prob == 0
    /\ (forall p, In p (dict_keys corpus) ->
          exists rank,
            dict_get updated p = Ok (Some rank)
            /\ dict_get table p = Ok (rank / total_prob)).
Proof.
  intros G Hkeys Hnkeys Hround.
  pose proof (keys_nodup corpus G) as Hnd.
  rewrite update_pass_closed by assumption.
  eexists. exists (total_prob_of corpus damping prob_random prob_all pagerank).
  split; [reflexivity|]. split.
  { rewrite (values_of_map _
      (fun k => Some (new_rank corpus damping prob_random prob_all pagerank k))).
    rewrite <- (map_map (new_rank corpus damping prob_random prob_all pagerank) Some).
    apply py_sum_closed. }
  rewrite round_closed in Hround by assumption.
  destruct (Qeq_bool _ 0) eqn:E; [discriminate|].
  apply Qeq_bool_neq in E. cbv zeta in Hround.
  inversion Hround; subst; clear Hround.
  split; [exact E|].
  intros p Hp. eexists. split.
  - apply (get_of_map _
      (fun k => Some (new_rank corpus damping prob_random prob_all pagerank k))).
    exact Hp.
  - unfold next_table.
    apply (get_of_map _
      (fun k => new_rank corpus damping prob_random prob_all pagerank k
                / total_prob_of corpus damping prob_random prob_all pagerank)).
    exact Hp.
Qed.

(** What holds of the table of every round that ends holds of the table
    the loop returns, when the loop starts with [max_change] above the
    tolerance. *)
Lemma loop_last_round (corpus : Corpus) (damping prob_random prob_all : Q)
    (P : Dict Q -> Prop) (fuel : nat) :
  Graph_ok corpus ->
  (forall pagerank new_pagerank mc table npr' mc',
      dict_keys pagerank = dict_keys corpus ->
      dict_keys new_pagerank = dict_keys corpus ->
      round corpus damping prob_random prob_all (pagerank, new_pagerank, mc)
        = Ok (table, npr', mc') ->
      P table) ->
  forall (pagerank : Dict Q) (new_pagerank : Dict (option Q)) (mc : Q)
         (table : Dict Q),
  dict_keys pagerank = dict_keys corpus ->
  dict_keys new_pagerank = dict_keys corpus ->
  (Qle_bool mc tolerance = true -> P pagerank) ->
  iterate_loop fuel corpus damping prob_random prob_all
               (pagerank, new_pagerank, mc) = Returned table ->
  P table.
Proof.
  intros G HP. induction fuel as [|fuel IH];
    intros pagerank new_pagerank mc table Hkeys Hnkeys Hstart Hrun;
    destruct (Qle_bool mc tolerance) eqn:E.
  - rewrite iterate_loop_exit in Hrun by assumption.
    inversion Hrun; subst. now apply Hstart.
  - rewrite iterate_loop_starved in Hrun by assumption. discriminate.
  - rewrite iterate_loop_exit in Hrun by assumption.
    inversion Hrun; subst. now apply Hstart.
  - destruct (round corpus damping prob_random prob_all
                    (pagerank, new_pagerank, mc)) as [[[t' n'] mc']|e] eqn:Hr.
    + rewrite (iterate_loop_more _ _ _ _ _ _ _ _ _ E Hr) in Hrun.
      destruct (round_sum _ _ _ _ _ _ _ _ _ _ G Hkeys Hnkeys Hr)
        as [_ [Hk Hn]].
      apply (IH t' n' mc' table); auto.
      intros _. apply (HP pagerank new_pagerank mc t' n' mc' Hkeys Hnkeys Hr).
    + rewrite (iterate_loop_raise _ _ _ _ _ _ _ _ _ E Hr) in Hrun.
      discriminate.
Qed.

(** C6. In exact arithmetic.  Every round that ends has divided every new
    rank by the sum of the new ranks, a sum that is not zero, so its table
    sums to [1], whatever the damping factor.  Every table
    [iterate_pagerank] returns is the table of such a round.  For a damping
    factor in [0,1) every round from a table without negative entries ends,
    and at the damping factor 0.85 of [main] a table is returned. *)
Theorem renormalization_invariant (corpus : Corpus) (damping : Q) :
  Graph_ok corpus ->
  (forall prob_random prob_all pagerank new_pagerank mc table npr' mc',
      dict_keys pagerank = dict_keys corpus ->
      dict_keys new_pagerank = dict_keys corpus ->
      round corpus damping prob_random prob_all (pagerank, new_pagerank, mc)
        = Ok (table, npr', mc') ->
      (exists updated total_prob,
          update_pass corpus damping prob_random prob_all pagerank new_pagerank
            = Ok updated
          /\ py_sum (dict_values updated) = Ok total_prob
          /\ ~ total_prob == 0
          /\ (forall p, In p (dict_keys corpus) ->
                exists rank,
                  dict_get updated p = Ok (Some rank)
                  /\ dict_get table p = Ok (rank / total_prob)))
      /\ dict_keys table = dict_keys corpus
      /\ sumQ (dict_values table) == 1)
  /\ (forall fuel table,
        iterate_pagerank fuel corpus damping = Returned table ->
        sumQ (dict_values table) == 1
        /\ exists prob_random prob_all pr0 npr0 pagerank new_pagerank mc npr' mc',
             iterate_init corpus damping = Ok (prob_random, prob_all, pr0, npr0)
             /\ dict_keys pagerank = dict_keys corpus
             /\ dict_keys new_pagerank = dict_keys corpus
             /\ round corpus damping prob_random prob_all
                      (pagerank, new_pagerank, mc) = Ok (table, npr', mc'))
  /\ (0 <= damping < 1 ->
      forall pagerank new_pagerank mc,
        table_ok corpus pagerank ->
        dict_keys new_pagerank = dict_keys corpus ->
        exists st,
          round corpus damping ((1 - damping) / len corpus) (1 / len corpus)
                (pagerank, new_pagerank, mc) = Ok st)
  /\ (damping = DAMPING ->
      exists table,
        iterate_pagerank 49 corpus damping = Returned table
        /\ sumQ (dict_values table) == 1).
Proof.
  intros G.
  assert (Hret : forall fuel table,
    iterate_pagerank fuel corpus damping = Returned table ->
    sumQ (dict_values table) == 1).
  { intros fuel table Hrun. unfold iterate_pagerank in Hrun.
    rewrite iterate_init_closed in Hrun by assumption.
    eapply (loop_sum _ _ _ _ fuel G); [| |
      |exact Hrun].
    - apply keys_of_const.
    - apply keys_of_const.
    - intros H. discriminate. }
  split; [|split; [|split]].
  - intros prob_random prob_all pagerank new_pagerank mc table npr' mc'
      Hkeys Hnkeys Hround.
    split.
    + eapply round_divides; eassumption.
    + destruct (round_sum _ _ _ _ _ _ _ _ _ _ G Hkeys Hnkeys Hround)
        as [Hs [Hk _]].
      split; assumption.
  - intros fuel table Hrun. split; [now apply (Hret fuel)|].
    unfold iterate_pagerank in Hrun.
    rewrite iterate_init_closed in Hrun by assumption.
    exists ((1 - damping) / len corpus), (1 / len corpus),
      (map (fun k => (k, (1 - damping) / len corpus)) (dict_keys corpus)),
      (map (fun k : page => (k, @None Q)) (dict_keys corpus)).
    apply (loop_last_round corpus damping ((1 - damping) / len corpus)
             (1 / len corpus)
             (fun t => exists pagerank new_pagerank mc npr' mc',
                iterate_init corpus damping
                = Ok ((1 - damping) / len corpus, 1 / len corpus,
                      map (fun k => (k, (1 - damping) / len corpus))
                          (dict_keys corpus),
                      map (fun k : page => (k, @None Q)) (dict_keys corpus))
                /\ dict_keys pagerank = dict_keys corpus
                /\ dict_keys new_pagerank = dict_keys corpus
                /\ round corpus damping ((1 - damping) / len corpus)
                         (1 / len corpus) (pagerank, new_pagerank, mc)
                   = Ok (t, npr', mc'))
             fuel G)
      with (pagerank := map (fun k => (k, (1 - damping) / len corpus))
                            (dict_keys corpus))
           (new_pagerank := map (fun k : page => (k, @None Q)) (dict_keys corpus))
           (mc := 1).
    + intros pagerank new_pagerank mc t npr' mc' Hkeys Hnkeys Hround.
      exists pagerank, new_pagerank, mc, npr', mc'.
      split; [now apply iterate_init_closed|]. auto.
    + apply keys_of_const.
    + apply keys_of_const.
    + intros H. discriminate.
    + exact Hrun.
  - intros Hd pagerank new_pagerank mc Ht Hnkeys.
    eexists. now apply round_ok.
  - intros ->.
    assert (Hd : 0 <= DAMPING < 1).
    { split; vm_compute; [discriminate | reflexivity]. }
    destruct (round_bound corpus DAMPING 47 G Hd) as [k [table [Hk [Hrun _]]]].
    { vm_compute. discriminate. }
    exists table.
    assert (Hrun' : iterate_pagerank 49 corpus DAMPING = Returned table).
    { apply Hrun. lia. }
    split; [exact Hrun'|].
    destruct (returned_shape corpus DAMPING 49 table G Hd Hrun') as [_ Hs].
    exact Hs.
Qed.

Lemma renormalization_invariant_witness :
  (forall prob_random prob_all pagerank new_pagerank mc table npr' mc',
      dict_keys pagerank = dict_keys corpus2 ->
      dict_keys new_pagerank = dict_keys corpus2 ->
      round corpus2 DAMPING prob_random prob_all (pagerank, new_pagerank, mc)
        = Ok (table, npr', mc') ->
      (exists updated total_prob,
          update_pass corpus2 DAMPING prob_random prob_all pagerank new_pagerank
            = Ok updated
          /\ py_sum (dict_values updated) = Ok total_prob
          /\ ~ total_prob == 0
          /\ (forall p, In p (dict_keys corpus2) ->
                exists rank,
                  dict_get updated p = Ok (Some rank)
                  /\ dict_get table p = Ok (rank / total_prob)))
      /\ dict_keys table = dict_keys corpus2
      /\ sumQ (dict_values table) == 1)
  /\ (forall fuel table,
        iterate_pagerank fuel corpus2 DAMPING = Returned table ->
        sumQ (dict_values table) == 1
        /\ exists prob_random prob_all pr0 npr0 pagerank new_pagerank mc npr' mc',
             iterate_init corpus2 DAMPING = Ok (prob_random, prob_all, pr0, npr0)
             /\ dict_keys pagerank = dict_keys corpus2
             /\ dict_keys new_pagerank = dict_keys corpus2
             /\ round corpus2 DAMPING prob_random prob_all
                      (pagerank, new_pagerank, mc) = Ok (table, npr', mc'))
  /\ (forall pagerank new_pagerank mc,
        table_ok corpus2 pagerank ->
        dict_keys new_pagerank = dict_keys corpus2 ->
        exists st,
          round corpus2 DAMPING ((1 - DAMPING) / len corpus2) (1 / len corpus2)
                (pagerank, new_pagerank, mc) = Ok st)
  /\ (exists table,
        iterate_pagerank 49 corpus2 DAMPING = Returned table
        /\ sumQ (dict_values table) == 1).
Proof.
  destruct (renormalization_invariant corpus2 DAMPING) as [H1 [H2 [H3 H4]]].
  - apply check_graph_sound. reflexivity.
  - split; [exact H1|]. split; [exact H2|]. split.
    + apply H3. split; vm_compute; [discriminate | reflexivity].
    + apply H4. reflexivity.
Defined.

(** The run of C6 on the test graph: two rounds, and a table that sums
    to [1]. *)
Example iterate_pagerank_corpus2 :
  exists table,
    iterate_pagerank 2 corpus2 (85 # 100) = Returned table
    /\ rank_of table "1.html"%string == 1 # 2
    /\ rank_of table "2.html"%string == 1 # 2.
Proof.
  eexists. split; [vm_compute; reflexivity|]. split; vm_compute; reflexivity.
Qed.

(** C4 as stated fails: at damping 0.85 on two pages every rank starts at
    3/40, not at 1/2. *)
Lemma iterate_init_not_uniform :
  exists prob_random prob_all pr0 npr0,
    iterate_init corpus2 (85 # 100) = Ok (prob_random, prob_all, pr0, npr0)
    /\ (forall p, In p (dict_keys corpus2) -> rank_of pr0 p == 3 # 40)
    /\ (forall p, In p (dict_keys corpus2) -> ~ rank_of pr0 p == 1 / len corpus2).
Proof.
  do 4 eexists. split; [reflexivity|].
  split; intros p [<-|[<-|[]]]; vm_compute; congruence.
Qed.

(** C4, as the code has it.  Before the first round [iterate_pagerank] gives
    every page the rank [prob_random = (1 - damping) / |graph|]; the loop
    starts from that table. *)
Theorem iterate_init_prior (corpus : Corpus) (damping : Q) :
  Graph_ok corpus ->
  0 <= damping <= 1 ->
  exists prob_random prob_all pr0 npr0,
    iterate_init corpus damping = Ok (prob_random, prob_all, pr0, npr0)
    /\ dict_keys pr0 = dict_keys corpus
    /\ (forall p, In p (dict_keys corpus) ->
          dict_get pr0 p = Ok ((1 - damping) / len corpus))
    /\ forall fuel,
         iterate_pagerank fuel corpus damping
         = iterate_loop fuel corpus damping prob_random prob_all (pr0, npr0, 1).
Proof.
  intros G _. do 4 eexists.
  split; [now apply iterate_init_closed|].
  split; [apply keys_of_const|].
  split.
  - intros p Hp.
    now rewrite (get_of_map _ (fun _ => (1 - damping) / len corpus)).
  - intros fuel. unfold iterate_pagerank.
    now rewrite iterate_init_closed.
Qed.

Lemma iterate_init_prior_witness :
  exists prob_random prob_all pr0 npr0,
    iterate_init corpus3 (85 # 100) = Ok (prob_random, prob_all, pr0, npr0)
    /\ dict_keys pr0 = dict_keys corpus3
    /\ (forall p, In p (dict_keys corpus3) ->
          dict_get pr0 p = Ok ((1 - (85 # 100)) / len corpus3))
    /\ forall fuel,
         iterate_pagerank fuel corpus3 (85 # 100)
         = iterate_loop fuel corpus3 (85 # 100) prob_random prob_all (pr0, npr0, 1).
Proof.
  apply (iterate_init_prior corpus3 (85 # 100)).
  - apply check_graph_sound. reflexivity.
  - split; vm_compute; discriminate.
Defined.

(** At damping 1 the tables start at zero, the first [total_prob] is zero,
    and the first round raises. *)
Example iterate_pagerank_damping_one :
  forall fuel, iterate_pagerank (S fuel) corpus2 1 = Raised ZeroDivisionError.
Proof.
  intros fuel. unfold iterate_pagerank.
  change (iterate_init corpus2 1)
    with (Ok (0 # 2, 1 # 2, [("1.html"%string, 0 # 2); ("2.html"%string, 0 # 2)],
              [("1.html"%string, @None Q); ("2.html"%string, @None Q)])).
  apply iterate_loop_raise; vm_compute; reflexivity.
Qed.

(** * Further properties of the code *)

(** ** [transition_model] outside the Graph invariants *)

Lemma dict_get_not_key {V : Type} (d : Dict V) (k : page) :
  ~ In k (dict_keys d) -> dict_get d k = Raise KeyError.
Proof.
  induction d as [|[k0 v0] d IH]; simpl; intros H.
  - reflexivity.
  - destruct (String.eqb_spec k k0) as [->|Hne]; [tauto|].
    apply IH. tauto.
Qed.

Lemma dict_add_keys (pr : Dict Q) (k : page) (c : Q) (pr' : Dict Q) :
  dict_add pr k c = Ok pr' -> dict_keys pr' = dict_keys pr.
Proof.
  unfold dict_add. destruct (dict_get pr k) as [v|e] eqn:E; simpl; [|discriminate].
  intros H. inversion H; subst. apply dict_set_keys.
  eapply dict_get_ok_key. exact E.
Qed.

(** A [+=] loop that meets a name which is no key raises [KeyError]. *)
Lemma add_loop_dangling (l : list page) (c : Q) (pr : Dict Q) :
  (exists x, In x l /\ ~ In x (dict_keys pr)) ->
  for_each l (fun page_name pr => dict_add pr page_name c) pr = Raise KeyError.
Proof.
  revert pr. induction l as [|y l IH]; intros pr [x [Hin Hx]].
  - contradiction.
  - rewrite for_each_cons.
    destruct (in_dec string_dec y (dict_keys pr)) as [Hy|Hy].
    + destruct (dict_add pr y c) as [pr'|e] eqn:E.
      * simpl bind. apply IH. exists x.
        rewrite (dict_add_keys _ _ _ _ E). split; [|assumption].
        destruct Hin as [->|Hin]; [contradiction | assumption].
      * unfold dict_add in E. rewrite (rank_of_get pr y Hy) in E. discriminate.
    + unfold dict_add. rewrite (dict_get_not_key pr y Hy). reflexivity.
Qed.

(** X1. [transition_model] raises [KeyError] when the page is no key of the
    corpus, and when one of its links leads to a page that is no key. *)
Theorem transition_model_key_error (corpus : Corpus) (pg : page) (damping : Q) :
  NoDup (dict_keys corpus) ->
  (~ In pg (dict_keys corpus) ->
   transition_model corpus pg damping = Raise KeyError)
  /\ (forall links target,
        dict_get corpus pg = Ok links ->
        In target links ->
        ~ In target (dict_keys corpus) ->
        transition_model corpus pg damping = Raise KeyError).
Proof.
  intros Hnd. split.
  - intros Hpg. unfold transition_model.
    now rewrite (dict_get_not_key corpus pg Hpg).
  - intros links target Hget Hin Hout. unfold transition_model.
    rewrite Hget. simpl bind.
    destruct (Nat.eqb (List.length links) 0) eqn:E.
    { apply length_eqb_nil in E. subst. contradiction. }
    rewrite pydiv_len by (intros ->; contradiction). simpl bind.
    rewrite init_loop by (simpl; assumption). simpl app.
    rewrite add_loop_dangling; [reflexivity|].
    exists target. split; [assumption|]. now rewrite keys_of_const.
Qed.

Lemma transition_model_key_error_witness :
  transition_model [("A", ["B"; "Z"]); ("B", [])]%string "Q"%string (85 # 100)
  = Raise KeyError
  /\ transition_model [("A", ["B"; "Z"]); ("B", [])]%string "A"%string (85 # 100)
     = Raise KeyError.
Proof.
  split.
  - apply (transition_model_key_error
             [("A", ["B"; "Z"]); ("B", [])]%string "Q"%string (85 # 100)).
    + apply nodupb_sound. reflexivity.
    + simpl. intros [H|[H|[]]]; discriminate.
  - apply (transition_model_key_error
             [("A", ["B"; "Z"]); ("B", [])]%string "A"%string (85 # 100))
      with (links := ["B"; "Z"]%string) (target := "Z"%string).
    + apply nodupb_sound. reflexivity.
    + reflexivity.
    + simpl. auto.
    + simpl. intros [H|[H|[]]]; discriminate.
Defined.

(** ** The values of [transition_model] *)

Lemma transition_value_sum (corpus : Corpus) (pg : page) (links : list page)
    (damping : Q) :
  Graph_ok corpus ->
  In (pg, links) corpus ->
  sumQ (map (transition_value corpus links damping) (dict_keys corpus)) == 1.
Proof.
  intros G Hin. pose proof (len_corpus_pos corpus G) as HN.
  unfold transition_value.
  destruct (Nat.eqb (List.length links) 0) eqn:E.
  - rewrite sumQ_map_const, len_keys. field. lra.
  - assert (Hl : links <> []) by (intros ->; discriminate).
    pose proof (len_pos links Hl) as HL.
    rewrite sumQ_map_plus, sumQ_map_const, len_keys.
    rewrite (sumQ_indicator (dict_keys corpus) links).
    + field. split; lra.
    + apply (keys_nodup corpus G).
    + apply (links_nodup corpus G pg links Hin).
    + intros p Hp. apply (links_closed corpus G pg links p Hin Hp).
Qed.

(** X2. For a damping factor in [0,1] every page of the graph gets at least
    the random-jump share [(1 - damping) / |graph|] from every page; below
    damping 1 no transition probability is zero. *)
Theorem transition_model_floor (corpus : Corpus) (pg : page) (damping : Q) :
  Graph_ok corpus ->
  In pg (dict_keys corpus) ->
  0 <= damping <= 1 ->
  exists dist,
    transition_model corpus pg damping = Ok dist
    /\ (forall p v, In (p, v) dist -> (1 - damping) / len corpus <= v)
    /\ (damping < 1 -> forall p v, In (p, v) dist -> 0 < v).
Proof.
  intros G Hpg [Hd0 Hd1].
  destruct (dict_get_key corpus pg Hpg) as [links [Hget Hin]].
  rewrite (transition_model_closed_form corpus pg links damping G Hget).
  eexists. split; [reflexivity|].
  pose proof (len_corpus_pos corpus G) as HN.
  assert (Hfloor : forall p v,
    In (p, v) (map (fun k => (k, transition_value corpus links damping k))
                   (dict_keys corpus)) ->
    (1 - damping) / len corpus <= v).
  { intros p v Hv. apply in_map_iff in Hv. destruct Hv as [k [Heq _]].
    inversion Heq; subst. unfold transition_value.
    destruct (Nat.eqb (List.length links) 0) eqn:E.
    - setoid_replace (0 + 1 / len corpus)
        with ((1 - damping) / len corpus + damping / len corpus)
        by (field; lra).
      assert (0 <= damping / len corpus) by (apply Qle_shift_div_l; lra).
      lra.
    - assert (Hl : links <> []) by (intros ->; discriminate).
      pose proof (len_pos links Hl) as HL.
      assert (0 <= damping / len links) by (apply Qle_shift_div_l; lra).
      destruct (mem p links); lra. }
  split; [exact Hfloor|].
  intros Hlt p v Hv. specialize (Hfloor p v Hv).
  assert (0 < (1 - damping) / len corpus).
  { apply Qlt_shift_div_l; lra. }
  lra.
Qed.

Lemma transition_model_floor_witness :
  exists dist,
    transition_model corpus3 "A"%string (85 # 100) = Ok dist
    /\ (forall p v, In (p, v) dist -> (1 - (85 # 100)) / len corpus3 <= v)
    /\ (85 # 100 < 1 -> forall p v, In (p, v) dist -> 0 < v).
Proof.
  apply (transition_model_floor corpus3 "A"%string (85 # 100)).
  - apply check_graph_sound. reflexivity.
  - simpl. auto.
  - split; vm_compute; discriminate.
Defined.

(** ** The cumulative draw *)

Lemma cumulative_cons (prob : Q) (k : page) (v : Q) (w : Dict Q) :
  cumulative prob ((k, v) :: w) = cumulative (prob + v) w.
Proof. reflexivity. Qed.

Lemma scan_none_total (w : Dict Q) (r prob : Q) :
  scan w r prob = None -> w <> [] -> cumulative prob w < r.
Proof.
  revert prob. induction w as [|[k v] w IH]; intros prob Hscan Hne.
  - congruence.
  - simpl in Hscan. destruct (Qle_bool r (prob + v)) eqn:E; [discriminate|].
    rewrite cumulative_cons. destruct w as [|e w].
    + unfold cumulative. simpl. apply Qnot_le_lt. intros H.
      apply Qle_bool_iff in H. congruence.
    + apply IH; [assumption | discriminate].
Qed.

(** X3. The first-match rule of the draw: the page the scan selects is the
    first whose running sum reaches the draw; every page before it fell
    short. *)
Theorem scan_first_match (w : Dict Q) (r prob : Q) (p : page) :
  scan w r prob = Some p ->
  exists w1 v w2,
    w = w1 ++ (p, v) :: w2
    /\ r <= cumulative prob (w1 ++ [(p, v)])
    /\ forall u1 k x u2,
         w1 = u1 ++ (k, x) :: u2 -> cumulative prob (u1 ++ [(k, x)]) < r.
Proof.
  revert prob. induction w as [|[k v] w IH]; intros prob Hscan.
  - discriminate.
  - simpl in Hscan. destruct (Qle_bool r (prob + v)) eqn:E.
    + inversion Hscan; subst. exists [], v, w.
      split; [reflexivity|]. split.
      * unfold cumulative. simpl. now apply Qle_bool_iff.
      * intros u1 k0 x u2 H. destruct u1; discriminate.
    + destruct (IH (prob + v) Hscan) as [w1 [v' [w2 [Hw [Hle Hlt]]]]].
      exists ((k, v) :: w1), v', w2.
      split; [simpl; now rewrite Hw|]. split.
      * simpl app. now rewrite cumulative_cons.
      * intros u1 k0 x u2 H. destruct u1 as [|e u1].
        -- simpl in H. inversion H; subst.
           unfold cumulative. simpl. apply Qnot_le_lt. intros Hc.
           apply Qle_bool_iff in Hc. congruence.
        -- simpl in H. inversion H; subst. simpl app.
           rewrite cumulative_cons. eapply Hlt. reflexivity.
Qed.

Lemma scan_first_match_witness :
  exists w1 v w2,
    [("A", 1 # 4); ("B", 1 # 2); ("C", 1 # 4)]%string = w1 ++ ("B"%string, v) :: w2
    /\ (1 # 2) <= cumulative 0 (w1 ++ [("B"%string, v)])
    /\ forall u1 k x u2,
         w1 = u1 ++ (k, x) :: u2 -> cumulative 0 (u1 ++ [(k, x)]) < 1 # 2.
Proof.
  apply (scan_first_match [("A", 1 # 4); ("B", 1 # 2); ("C", 1 # 4)]%string
           (1 # 2) 0 "B"%string).
  reflexivity.
Defined.

(** X4. In exact arithmetic the scan never runs to its end: on a graph the
    weights sum to [1], so every draw of at most [1] selects a page of the
    graph, whatever the damping factor. *)
Theorem scan_selects (corpus : Corpus) (curr : page) (damping r : Q) :
  Graph_ok corpus ->
  In curr (dict_keys corpus) ->
  r <= 1 ->
  exists weight p,
    transition_model corpus curr damping = Ok weight
    /\ scan weight r 0 = Some p
    /\ In p (dict_keys corpus).
Proof.
  intros G Hcurr Hr.
  destruct (dict_get_key corpus curr Hcurr) as [links [Hget Hin]].
  rewrite (transition_model_closed_form corpus curr links damping G Hget).
  set (weight := map (fun k => (k, transition_value corpus links damping k))
                     (dict_keys corpus)).
  destruct (scan weight r 0) as [p|] eqn:E.
  - exists weight, p. split; [reflexivity|]. split; [exact E|].
    apply scan_in in E. unfold weight in E. now rewrite keys_of_map in E.
  - exfalso. apply scan_none_total in E.
    + unfold cumulative, weight in E.
      rewrite (values_of_map _ (transition_value corpus links damping)) in E.
      rewrite fold_left_Qplus, (transition_value_sum corpus curr links) in E
        by assumption.
      lra.
    + unfold weight. pose proof (graph_nonempty corpus G).
      destruct corpus; [congruence | discriminate].
Qed.

Lemma scan_selects_witness :
  exists weight p,
    transition_model corpus3 "B"%string (85 # 100) = Ok weight
    /\ scan weight (999 # 1000) 0 = Some p
    /\ In p (dict_keys corpus3).
Proof.
  apply (scan_selects corpus3 "B"%string (85 # 100) (999 # 1000)).
  - apply check_graph_sound. reflexivity.
  - simpl. auto.
  - vm_compute. discriminate.
Defined.

(** ** The ranks of [sample_pagerank] *)

Lemma entry_le_sum (d : Dict Z) (k : page) (c : Z) :
  (forall k' c', In (k', c') d -> (0 <= c')%Z) ->
  In (k, c) d ->
  (c <= sumZ (dict_values d))%Z.
Proof.
  induction d as [|[k0 c0] d IH]; simpl; intros Hpos Hin.
  - contradiction.
  - assert (Hrest : (0 <= sumZ (dict_values d))%Z).
    { clear IH Hin. induction d as [|[k1 c1] d IHd]; simpl; [lia|].
      assert (0 <= c1)%Z by (apply (Hpos k1 c1); right; now left).
      assert (0 <= sumZ (dict_values d))%Z.
      { apply IHd. intros k' c' [H'|H']; apply (Hpos k' c'); auto.
        right. now right. }
      lia. }
    assert (0 <= c0)%Z by (apply (Hpos k0 c0); now left).
    destruct Hin as [Heq|Hin].
    + inversion Heq; subst. lia.
    + assert (c <= sumZ (dict_values d))%Z.
      { apply IH; [|assumption]. intros k' c' H'. apply (Hpos k' c'). now right. }
      unfold dict_values in *. lia.
Qed.

Lemma counts_nonneg_entries (corpus : Corpus) (d : Dict Z) :
  NoDup (dict_keys corpus) ->
  dict_keys d = dict_keys corpus ->
  counts_nonneg d ->
  forall k c, In (k, c) d -> (0 <= c)%Z.
Proof.
  intros Hnd Hkeys Hpos k c Hin.
  specialize (Hpos k). unfold count_of in Hpos.
  rewrite (dict_get_in d k c) in Hpos; [assumption | now rewrite Hkeys | assumption].
Qed.

(** X5. On a graph and for [n >= 1], every rank [sample_pagerank] returns
    lies between 0 and 1, whatever the damping factor and the draws. *)
Theorem sample_pagerank_range (corpus : Corpus) (damping : Q) (n : Z)
    (start : nat) (rnd : nat -> Q) :
  Graph_ok corpus ->
  (1 <= n)%Z ->
  exists ranks,
    sample_pagerank corpus damping n start rnd = Ok ranks
    /\ forall p v, In (p, v) ranks -> 0 <= v <= 1.
Proof.
  intros G Hn.
  destruct (sample_counts_spec corpus damping n start rnd G)
    as [last [counters [Hrun [Hkeys [Hpos Hsum]]]]].
  rewrite Z.max_l in Hsum by lia.
  unfold sample_pagerank. rewrite Hrun. simpl bind.
  rewrite divide_counts_ok by lia.
  eexists. split; [reflexivity|].
  intros p v Hv. apply in_map_iff in Hv. destruct Hv as [[k c] [Heq Hin]].
  simpl in Heq. inversion Heq; subst.
  pose proof (counts_nonneg_entries corpus counters (keys_nodup corpus G)
                Hkeys Hpos) as Hentries.
  pose proof (Hentries p c Hin) as Hc0.
  pose proof (entry_le_sum counters p c Hentries Hin) as Hc1.
  assert (Hn0 : 0 < inject_Z (sumZ (dict_values counters))).
  { change 0 with (inject_Z 0). rewrite <- Zlt_Qlt. lia. }
  split.
  - apply Qle_shift_div_l; [assumption|].
    rewrite Qmult_0_l. change 0 with (inject_Z 0). now rewrite <- Zle_Qle.
  - apply Qle_shift_div_r; [assumption|].
    rewrite Qmult_1_l. now rewrite <- Zle_Qle.
Qed.

Lemma sample_pagerank_range_witness :
  exists ranks,
    sample_pagerank corpus3 (85 # 100) 5 2 (fun i => inject_Z (Z.of_nat i) / 4)
    = Ok ranks
    /\ forall p v, In (p, v) ranks -> 0 <= v <= 1.
Proof.
  apply (sample_pagerank_range corpus3 (85 # 100) 5 2
           (fun i => inject_Z (Z.of_nat i) / 4)).
  - apply check_graph_sound. reflexivity.
  - lia.
Defined.

(** X6. With [n = 1] no transition is ever computed: on any non-empty dict,
    also one with dangling links, [sample_pagerank] returns rank 1 for the
    page [random.choice] picked and 0 for every other page. *)
Theorem sample_pagerank_single (corpus : Corpus) (damping : Q) (start : nat)
    (rnd : nat -> Q) :
  NoDup (dict_keys corpus) ->
  corpus <> [] ->
  exists chosen ranks,
    random_choice start (dict_keys corpus) = Ok chosen
    /\ sample_pagerank corpus damping 1 start rnd = Ok ranks
    /\ dict_keys ranks = dict_keys corpus
    /\ forall p, In p (dict_keys corpus) ->
         rank_of ranks p == (if String.eqb p chosen then 1 else 0).
Proof.
  intros Hnd Hne.
  destruct (random_choice_in start (dict_keys corpus)) as [c0 [Hc0 Hin0]].
  { destruct corpus; simpl; congruence. }
  exists c0.
  unfold sample_pagerank, sample_counts.
  rewrite init_loop by (simpl; assumption). simpl app.
  rewrite keys_of_const, Hc0. simpl bind.
  set (p0 := map (fun k => (k, 0%Z)) (dict_keys corpus)).
  destruct (dict_incr_spec p0 c0) as [p1 [Hinc [Hk1 [Hc1 [Hc2 _]]]]].
  { unfold p0. now rewrite keys_of_const. }
  rewrite Hinc. simpl. rewrite divide_counts_ok by lia.
  eexists. split; [reflexivity|]. split; [reflexivity|].
  assert (Hkeys1 : dict_keys p1 = dict_keys corpus).
  { rewrite Hk1. apply keys_of_const. }
  split.
  - now rewrite (keys_map_values (fun c => inject_Z c / inject_Z 1)).
  - intros p Hp. unfold rank_of.
    rewrite (dict_get_map_values (fun c => inject_Z c / inject_Z 1)).
    rewrite count_of_get by now rewrite Hkeys1. simpl bind.
    destruct (String.eqb_spec p c0) as [->|Hneq].
    + rewrite Hc1. unfold p0. rewrite count_of_zero. reflexivity.
    + rewrite Hc2 by assumption. unfold p0. rewrite count_of_zero. reflexivity.
Qed.

Lemma sample_pagerank_single_witness :
  exists chosen ranks,
    random_choice 4 (dict_keys [("A", ["B"; "Z"]); ("B", [])]%string) = Ok chosen
    /\ sample_pagerank [("A", ["B"; "Z"]); ("B", [])]%string (85 # 100) 1 4
         (fun _ => 0) = Ok ranks
    /\ dict_keys ranks = dict_keys [("A", ["B"; "Z"]); ("B", [])]%string
    /\ forall p, In p (dict_keys [("A", ["B"; "Z"]); ("B", [])]%string) ->
         rank_of ranks p == (if String.eqb p chosen then 1 else 0).
Proof.
  apply (sample_pagerank_single [("A", ["B"; "Z"]); ("B", [])]%string
           (85 # 100) 4 (fun _ => 0)).
  - apply nodupb_sound. reflexivity.
  - discriminate.
Defined.

(** ** The exceptions of [iterate_pagerank] *)

Lemma init_table_sum (corpus : Corpus) (damping : Q) :
  Graph_ok corpus ->
  sumQ (map (rank_of (map (fun k => (k, (1 - damping) / len corpus))
                          (dict_keys corpus)))
            (dict_keys corpus))
  == 1 - damping.
Proof.
  intros G. pose proof (len_corpus_pos corpus G) as HN.
  rewrite (sumQ_map_ext _ (fun _ => (1 - damping) / len corpus)).
  - rewrite sumQ_map_const, len_keys. field. lra.
  - intros k Hk.
    now rewrite (rank_of_map _ (fun _ => (1 - damping) / len corpus)).
Qed.

Lemma first_total (corpus : Corpus) (damping : Q) :
  Graph_ok corpus ->
  total_prob_of corpus damping ((1 - damping) / len corpus) (1 / len corpus)
    (map (fun k => (k, (1 - damping) / len corpus)) (dict_keys corpus))
  == (1 - damping) * (1 + damping).
Proof.
  intros G. rewrite total_prob_value, init_table_sum by assumption. ring.
Qed.

Lemma later_total (corpus : Corpus) (damping : Q) (t : Dict Q) :
  Graph_ok corpus ->
  sumQ (map (rank_of t) (dict_keys corpus)) == 1 ->
  total_prob_of corpus damping ((1 - damping) / len corpus) (1 / len corpus) t
  == 1.
Proof.
  intros G Hsum. rewrite total_prob_value, Hsum by assumption. ring.
Qed.

(** X7. At damping factor 1 the tables start at zero, so the new ranks of
    the first round sum to zero: on every graph [iterate_pagerank] raises
    [ZeroDivisionError] in its first round. *)
Theorem iterate_pagerank_divides_by_zero (corpus : Corpus) (damping : Q) :
  Graph_ok corpus ->
  damping == 1 ->
  forall fuel,
    iterate_pagerank (S fuel) corpus damping = Raised ZeroDivisionError.
Proof.
  intros G Hd fuel. unfold iterate_pagerank.
  rewrite iterate_init_closed by assumption.
  apply iterate_loop_raise; [reflexivity|].
  rewrite round_closed; [|assumption|apply keys_of_const|apply keys_of_const].
  assert (Hz : total_prob_of corpus damping ((1 - damping) / len corpus)
                 (1 / len corpus)
                 (map (fun k => (k, (1 - damping) / len corpus)) (dict_keys corpus))
               == 0).
  { rewrite first_total by assumption. rewrite Hd. ring. }
  apply Qeq_bool_iff in Hz. now rewrite Hz.
Qed.

Lemma iterate_pagerank_divides_by_zero_witness :
  iterate_pagerank 1 corpus3 1 = Raised ZeroDivisionError.
Proof.
  apply (iterate_pagerank_divides_by_zero corpus3 1).
  - apply check_graph_sound. reflexivity.
  - reflexivity.
Defined.

Lemma loop_no_raise (corpus : Corpus) (damping : Q) (fuel : nat) :
  Graph_ok corpus ->
  forall (pagerank : Dict Q) (new_pagerank : Dict (option Q)) (mc : Q) (e : exn),
  dict_keys pagerank = dict_keys corpus ->
  dict_keys new_pagerank = dict_keys corpus ->
  sumQ (map (rank_of pagerank) (dict_keys corpus)) == 1 ->
  iterate_loop fuel corpus damping ((1 - damping) / len corpus) (1 / len corpus)
               (pagerank, new_pagerank, mc) <> Raised e.
Proof.
  intros G. induction fuel as [|fuel IH];
    intros pagerank new_pagerank mc e Hkeys Hnkeys Hsum;
    destruct (Qle_bool mc tolerance) eqn:E.
  - rewrite iterate_loop_exit by assumption. discriminate.
  - rewrite iterate_loop_starved by assumption. discriminate.
  - rewrite iterate_loop_exit by assumption. discriminate.
  - pose proof (later_total corpus damping pagerank G Hsum) as Htot.
    assert (Hnz : ~ total_prob_of corpus damping ((1 - damping) / len corpus)
                      (1 / len corpus) pagerank == 0).
    { rewrite Htot. discriminate. }
    pose proof (round_closed corpus damping ((1 - damping) / len corpus)
                  (1 / len corpus) pagerank new_pagerank mc
                  G Hkeys Hnkeys) as Hround.
    destruct (Qeq_bool _ 0) eqn:Ez in Hround.
    { apply Qeq_bool_eq in Ez. contradiction. }
    cbv zeta in Hround.
    rewrite (iterate_loop_more _ _ _ _ _ _ _ _ _ E Hround).
    apply IH.
    + apply keys_of_map.
    + rewrite (keys_map_values Some). apply keys_of_map.
    + now apply next_sum.
Qed.

(** In exact arithmetic the first sum is zero only at damping 1 and -1,
    and every later sum is 1. *)
Lemma no_raise_but_at_one (corpus : Corpus) (damping : Q) :
  Graph_ok corpus ->
  ~ damping == 1 ->
  ~ damping == -1 ->
  forall fuel e, iterate_pagerank fuel corpus damping <> Raised e.
Proof.
  intros G H1 H2 fuel e. unfold iterate_pagerank.
  rewrite iterate_init_closed by assumption.
  destruct fuel as [|fuel].
  { rewrite iterate_loop_starved by reflexivity. discriminate. }
  set (t0 := map (fun k => (k, (1 - damping) / len corpus)) (dict_keys corpus)).
  set (n0 := map (fun k : page => (k, @None Q)) (dict_keys corpus)).
  assert (Hk0 : dict_keys t0 = dict_keys corpus) by apply keys_of_const.
  assert (Hn0 : dict_keys n0 = dict_keys corpus) by apply keys_of_const.
  assert (Hnz : ~ total_prob_of corpus damping ((1 - damping) / len corpus)
                    (1 / len corpus) t0 == 0).
  { unfold t0. rewrite first_total by assumption. intros Hz.
    assert (Hcases : 1 - damping == 0 \/ 1 + damping == 0).
    { destruct (Qeq_dec (1 - damping) 0) as [Ha|Ha]; [now left|].
      right. apply (Qmult_integral_l _ _ Ha Hz). }
    destruct Hcases as [Ha|Ha]; [apply H1 | apply H2]; lra. }
  pose proof (round_closed corpus damping ((1 - damping) / len corpus)
                (1 / len corpus) t0 n0 1 G Hk0 Hn0) as Hround.
  destruct (Qeq_bool _ 0) eqn:Ez in Hround.
  { apply Qeq_bool_eq in Ez. contradiction. }
  cbv zeta in Hround.
  assert (E1 : Qle_bool 1 tolerance = false) by reflexivity.
  rewrite (iterate_loop_more _ _ _ _ _ _ _ _ _ E1 Hround).
  apply loop_no_raise; try assumption.
  - apply keys_of_map.
  - rewrite (keys_map_values Some). apply keys_of_map.
  - now apply next_sum.
Qed.

(** X8. For a damping factor in [0,1), [iterate_pagerank] raises nothing
    on a graph: every new rank is at least [(1 - damping)/N > 0], so no sum
    is zero; the function returns or is still running. *)
Theorem iterate_pagerank_never_raises (corpus : Corpus) (damping : Q) :
  Graph_ok corpus ->
  0 <= damping < 1 ->
  forall fuel e, iterate_pagerank fuel corpus damping <> Raised e.
Proof.
  intros G [Hd0 Hd1]. apply no_raise_but_at_one; [assumption| |].
  - intros H. rewrite H in Hd1. discriminate.
  - intros H. rewrite H in Hd0. apply Hd0. reflexivity.
Qed.

Lemma iterate_pagerank_never_raises_witness :
  Graph_ok corpus3
  /\ forall fuel e, iterate_pagerank fuel corpus3 DAMPING <> Raised e.
Proof.
  split.
  - apply check_graph_sound. reflexivity.
  - apply (iterate_pagerank_never_raises corpus3 DAMPING).
    + apply check_graph_sound. reflexivity.
    + split; vm_compute; [discriminate | reflexivity].
Defined.

(** X9. A round on a graph raises nothing but [ZeroDivisionError], and that
    exactly when the new ranks sum to zero: the update pass has overwritten
    every slot of [new_pagerank], whatever it held, before the sum reads
    them. *)
Theorem round_exceptions (corpus : Corpus) (damping prob_random prob_all : Q)
    (pagerank : Dict Q) (new_pagerank : Dict (option Q)) (max_change : Q) :
  Graph_ok corpus ->
  dict_keys pagerank = dict_keys corpus ->
  dict_keys new_pagerank = dict_keys corpus ->
  exists updated total_prob,
    update_pass corpus damping prob_random prob_all pagerank new_pagerank
      = Ok updated
    /\ py_sum (dict_values updated) = Ok total_prob
    /\ (total_prob == 0 ->
        round corpus damping prob_random prob_all
              (pagerank, new_pagerank, max_change) = Raise ZeroDivisionError)
    /\ (~ total_prob == 0 ->
        exists st,
          round corpus damping prob_random prob_all
                (pagerank, new_pagerank, max_change) = Ok st).
Proof.
  intros G Hkeys Hnkeys.
  pose proof (keys_nodup corpus G) as Hnd.
  rewrite update_pass_closed by assumption.
  eexists. exists (total_prob_of corpus damping prob_random prob_all pagerank).
  split; [reflexivity|]. split.
  { rewrite (values_of_map _
      (fun k => Some (new_rank corpus damping prob_random prob_all pagerank k))).
    rewrite <- (map_map (new_rank corpus damping prob_random prob_all pagerank) Some).
    apply py_sum_closed. }
  rewrite round_closed by assumption.
  split; intros Ht.
  - apply Qeq_bool_iff in Ht. now rewrite Ht.
  - destruct (Qeq_bool _ 0) eqn:E.
    + apply Qeq_bool_eq in E. contradiction.
    + eexists. reflexivity.
Qed.

Lemma round_exceptions_witness :
  exists updated total_prob,
    update_pass corpus2 (85 # 100) (15 # 200) (1 # 2)
      [("1.html", 1 # 2); ("2.html", 1 # 2)]%string
      [("1.html", None); ("2.html", Some 7)]%string = Ok updated
    /\ py_sum (dict_values updated) = Ok total_prob
    /\ (total_prob == 0 ->
        round corpus2 (85 # 100) (15 # 200) (1 # 2)
              ([("1.html", 1 # 2); ("2.html", 1 # 2)]%string,
               [("1.html", None); ("2.html", Some 7)]%string, 1)
        = Raise ZeroDivisionError)
    /\ (~ total_prob == 0 ->
        exists st,
          round corpus2 (85 # 100) (15 # 200) (1 # 2)
                ([("1.html", 1 # 2); ("2.html", 1 # 2)]%string,
                 [("1.html", None); ("2.html", Some 7)]%string, 1) = Ok st).
Proof.
  apply (round_exceptions corpus2 (85 # 100) (15 # 200) (1 # 2)).
  - apply check_graph_sound. reflexivity.
  - reflexivity.
  - reflexivity.
Defined.

(** ** The table [iterate_pagerank] returns *)

Lemma sumQ_member_le {A : Type} (f : A -> Q) (l : list A) (x : A) :
  (forall y, In y l -> 0 <= f y) -> In x l -> f x <= sumQ (map f l).
Proof.
  induction l as [|y l IH]; simpl; intros Hpos Hin.
  - contradiction.
  - assert (0 <= f y) by (apply Hpos; now left).
    assert (0 <= sumQ (map f l)).
    { apply sumQ_map_nonneg. intros; apply Hpos; now right. }
    destruct Hin as [->|Hin]; [lra|].
    assert (f x <= sumQ (map f l)).
    { apply IH; [|assumption]. intros; apply Hpos; now right. }
    lra.
Qed.

(** A round from a table that sums to at most 1 leaves every page at least
    the random-jump share. *)
Lemma next_floor (corpus : Corpus) (damping : Q) (t : Dict Q) (p : page) :
  Graph_ok corpus ->
  0 <= damping < 1 ->
  table_ok corpus t ->
  sumQ (map (rank_of t) (dict_keys corpus)) <= 1 ->
  In p (dict_keys corpus) ->
  (1 - damping) / len corpus
  <= rank_of (next_table corpus damping ((1 - damping) / len corpus)
                (1 / len corpus) t) p.
Proof.
  intros G [Hd0 Hd1] Ht Hsum Hp.
  pose proof (len_corpus_pos corpus G) as HN.
  pose proof (total_pos corpus damping G t (conj Hd0 Hd1) Ht) as Htot.
  rewrite rank_of_next_table by assumption.
  apply Qle_shift_div_l; [assumption|].
  rewrite new_rank_equation by apply (graph_nonempty corpus G).
  rewrite pagerank_equation_flow by apply (graph_nonempty corpus G).
  assert (Hflow : 0 <= sumQ (map (fun q => rank_of t q * weight corpus q p)
                                 (dict_keys corpus))).
  { apply sumQ_map_nonneg. intros q Hq.
    apply Qmult_le_0_compat; [now apply Ht | apply weight_nonneg]. }
  assert (0 <= damping * sumQ (map (fun q => rank_of t q * weight corpus q p)
                                   (dict_keys corpus)))
    by now apply Qmult_le_0_compat.
  assert (Hshare : 0 <= (1 - damping) / len corpus)
    by (apply Qle_shift_div_l; lra).
  assert (Hle : total_prob_of corpus damping ((1 - damping) / len corpus)
                  (1 / len corpus) t <= 1).
  { rewrite total_prob_value by assumption.
    assert (damping * sumQ (map (rank_of t) (dict_keys corpus)) <= damping * 1)
      by now apply Qmult_le_nonneg_l.
    lra. }
  assert ((1 - damping) / len corpus
          * total_prob_of corpus damping ((1 - damping) / len corpus)
              (1 / len corpus) t
          <= (1 - damping) / len corpus * 1)
    by now apply Qmult_le_nonneg_l.
  lra.
Qed.

Lemma after_sum_le (corpus : Corpus) (damping : Q) (j : nat) :
  Graph_ok corpus ->
  0 <= damping < 1 ->
  sumQ (map (rank_of (table_after j corpus damping ((1 - damping) / len corpus)
                        (1 / len corpus)
                        (map (fun k => (k, (1 - damping) / len corpus))
                             (dict_keys corpus))))
            (dict_keys corpus)) <= 1.
Proof.
  intros G Hd. destruct j as [|j].
  - simpl table_after. rewrite init_table_sum by assumption. lra.
  - simpl table_after.
    assert (Hd' : 0 <= damping <= 1) by (split; lra).
    pose proof (init_table_ok corpus damping G Hd') as Ht0.
    pose proof (next_stochastic corpus damping G _ Hd Ht0) as H1.
    destruct (after_stochastic corpus damping G Hd j _ H1) as [_ Hs].
    rewrite Hs. lra.
Qed.

(** X10. On a graph and for a damping factor in [0,1), every table
    [iterate_pagerank] returns has the pages of the corpus as its keys, in
    their order, and every rank in it is above 0 and at most 1.  In exact
    arithmetic no rank is below [(1 - damping)/N], the share of the random
    jump; on binary64 a rank can end one rounding below that floor
    ([float_rank_below_floor]). *)
Theorem iterate_pagerank_range (corpus : Corpus) (damping : Q) (fuel : nat)
    (table : Dict Q) :
  Graph_ok corpus ->
  0 <= damping < 1 ->
  iterate_pagerank fuel corpus damping = Returned table ->
  dict_keys table = dict_keys corpus
  /\ forall p, In p (dict_keys corpus) ->
       0 < rank_of table p <= 1
       /\ (1 - damping) / len corpus <= rank_of table p.
Proof.
  intros G Hd Hrun.
  destruct (returned_table corpus damping fuel table G Hd Hrun) as [k [Ht _]].
  assert (Hd' : 0 <= damping <= 1) by (split; lra).
  pose proof (init_table_ok corpus damping G Hd') as Ht0.
  rewrite (after_next corpus damping) in Ht.
  pose proof (after_table_ok corpus damping G Hd k _ Ht0) as Hprev.
  pose proof (next_stochastic corpus damping G _ Hd Hprev) as Hst.
  rewrite <- Ht in Hst. destruct Hst as [[Hkeys Hpos] Hsum].
  split; [exact Hkeys|].
  intros p Hp.
  assert (Hfloor : (1 - damping) / len corpus <= rank_of table p).
  { rewrite Ht. apply next_floor; auto. now apply after_sum_le. }
  assert (Hgt : 0 < (1 - damping) / len corpus).
  { apply Qlt_shift_div_l; [apply (len_corpus_pos corpus G) | lra]. }
  split; [split|exact Hfloor].
  - lra.
  - rewrite <- Hsum. now apply (sumQ_member_le (rank_of table)).
Qed.

Lemma iterate_pagerank_range_witness :
  exists table,
    iterate_pagerank 2 corpus2 (85 # 100) = Returned table
    /\ dict_keys table = dict_keys corpus2
    /\ forall p, In p (dict_keys corpus2) ->
         0 < rank_of table p <= 1
         /\ (1 - (85 # 100)) / len corpus2 <= rank_of table p.
Proof.
  eexists. split.
  - vm_compute. reflexivity.
  - apply (iterate_pagerank_range corpus2 (85 # 100) 2).
    + apply check_graph_sound. reflexivity.
    + split; vm_compute; [discriminate | reflexivity].
    + vm_compute. reflexivity.
Defined.





(** X13. A bound on the number of rounds at the damping factor 0.85 of
    [main]: on every graph [iterate_pagerank] returns after at most 49
    rounds ([2 * 0.85 ^ 47] is within the tolerance). *)
Theorem iterate_pagerank_round_bound (corpus : Corpus) :
  Graph_ok corpus ->
  exists k table,
    (1 <= k <= 49)%nat
    /\ (forall fuel, (k <= fuel)%nat ->
          iterate_pagerank fuel corpus DAMPING = Returned table)
    /\ forall fuel, (fuel < k)%nat ->
         iterate_pagerank fuel corpus DAMPING = OutOfFuel.
Proof.
  intros G. apply (round_bound corpus DAMPING 47 G).
  - split; vm_compute; [discriminate | reflexivity].
  - vm_compute. discriminate.
Qed.

Lemma iterate_pagerank_round_bound_witness :
  exists k table,
    (1 <= k <= 49)%nat
    /\ (forall fuel, (k <= fuel)%nat ->
          iterate_pagerank fuel corpus3 DAMPING = Returned table)
    /\ forall fuel, (fuel < k)%nat ->
         iterate_pagerank fuel corpus3 DAMPING = OutOfFuel.
Proof.
  apply (iterate_pagerank_round_bound corpus3).
  apply check_graph_sound. reflexivity.
Defined.



(** ** The two tables, for [main] *)

Lemma sample_sum (corpus : Corpus) (damping : Q) (n : Z) (start : nat)
    (rnd : nat -> Q) :
  Graph_ok corpus ->
  (1 <= n)%Z ->
  exists ranks,
    sample_pagerank corpus damping n start rnd = Ok ranks
    /\ dict_keys ranks = dict_keys corpus
    /\ sumQ (dict_values ranks) == 1.
Proof.
  intros G Hn.
  destruct (sample_counts_spec corpus damping n start rnd G)
    as [last [counters [Hrun [Hkeys [_ Hsum]]]]].
  rewrite Z.max_l in Hsum by lia.
  unfold sample_pagerank. rewrite Hrun. simpl bind.
  rewrite divide_counts_ok by lia.
  eexists. split; [reflexivity|]. split.
  - now rewrite (keys_map_values (fun c => inject_Z c / inject_Z n)).
  - rewrite sumQ_divided, Hsum. field.
    change 0 with (inject_Z 0). rewrite inject_Z_injective. lia.
Qed.

(** ** [crawl] *)

Lemma endswith_unfold (s suffix : string) :
  endswith s suffix
  = if String.eqb s suffix then true
    else match s with
         | EmptyString => false
         | String _ s' => endswith s' suffix
         end.
Proof. destruct s; reflexivity. Qed.

Lemma endswith_spec (s suffix : string) :
  endswith s suffix = true <-> exists pre, s = (pre ++ suffix)%string.
Proof.
  split.
  - induction s as [|a s IH]; rewrite endswith_unfold.
    + destruct (String.eqb_spec EmptyString suffix) as [<-|Hne].
      * intros _. exists EmptyString. reflexivity.
      * intros H. discriminate H.
    + destruct (String.eqb_spec (String a s) suffix) as [<-|Hne].
      * intros _. exists EmptyString. reflexivity.
      * intros H. destruct (IH H) as [pre ->].
        exists (String a pre). reflexivity.
  - intros [pre ->]. induction pre as [|a pre IH].
    + rewrite endswith_unfold. change (EmptyString ++ suffix)%string with suffix.
      now rewrite String.eqb_refl.
    + rewrite endswith_unfold.
      change (String a pre ++ suffix)%string with (String a (pre ++ suffix)).
      destruct (String.eqb (String a (pre ++ suffix)) suffix);
        [reflexivity | exact IH].
Qed.

Lemma dict_set_in {V : Type} (d : Dict V) (k : page) (v : V) (k' : page) (v' : V) :
  In (k', v') (dict_set d k v) -> (k' = k /\ v' = v) \/ In (k', v') d.
Proof.
  induction d as [|[k0 v0] d IH]; simpl.
  - intros [H|[]]. inversion H. auto.
  - destruct (String.eqb_spec k k0) as [->|Hne]; simpl.
    + intros [H|H]; [inversion H; auto | auto].
    + intros [H|H]; [auto|]. destruct (IH H); auto.
Qed.

Lemma dict_set_keys_in {V : Type} (d : Dict V) (k : page) (v : V) (k' : page) :
  In k' (dict_keys (dict_set d k v)) <-> k' = k \/ In k' (dict_keys d).
Proof.
  induction d as [|[k0 v0] d IH]; simpl.
  - intuition auto.
  - destruct (String.eqb_spec k k0) as [->|Hne]; simpl.
    + intuition auto.
    + rewrite IH. intuition auto.
Qed.

Lemma dict_set_nodup {V : Type} (d : Dict V) (k : page) (v : V) :
  NoDup (dict_keys d) -> NoDup (dict_keys (dict_set d k v)).
Proof.
  induction d as [|[k0 v0] d IH]; simpl; intros Hnd.
  - constructor; [intros [] | constructor].
  - inversion Hnd as [|? ? Hk0 Hnd']; subst.
    destruct (String.eqb_spec k k0) as [->|Hne]; simpl.
    + now constructor.
    + constructor; [|auto].
      intros H. apply (dict_set_keys_in d k v k0) in H.
      destruct H; [congruence | contradiction].
Qed.

Lemma dict_ext {V : Type} (a b : Dict V) :
  NoDup (dict_keys a) ->
  dict_keys a = dict_keys b ->
  (forall k, In k (dict_keys a) -> dict_get a k = dict_get b k) ->
  a = b.
Proof.
  revert b. induction a as [|[k v] a IH]; intros [|[k' v'] b] Hnd Hkeys Hget;
    simpl in *; try discriminate.
  - reflexivity.
  - inversion Hkeys; subst. inversion Hnd as [|? ? Hk Hnd']; subst.
    pose proof (Hget k' (or_introl eq_refl)) as H0.
    rewrite String.eqb_refl in H0. inversion H0; subst.
    f_equal. apply IH; auto.
    intros k Hin. specialize (Hget k (or_intror Hin)).
    destruct (String.eqb_spec k k') as [Heq|Hne]; [|assumption].
    rewrite Heq in Hin. contradiction.
Qed.

Lemma fold_left_cons {A B : Type} (f : A -> B -> A) (x : B) (l : list B) (a : A) :
  fold_left f (x :: l) a = fold_left f l (f a x).
Proof. reflexivity. Qed.

Section Crawl.
Variable findall : string -> list string.

Let step := fun (pages : Corpus) (entry : string * string) =>
  let '(filename, contents) := entry in
  if negb (endswith filename ".html") then pages
  else dict_set pages filename (set_remove filename (set_of (findall contents))).

(** What the first loop keeps of a file. *)
Let extracted := fun (filename contents : string) =>
  set_remove filename (set_of (findall contents)).

Lemma extracted_nodup (f c : string) : NoDup (extracted f c).
Proof.
  unfold extracted, set_remove, set_of. apply NoDup_filter, NoDup_nodup.
Qed.

Lemma extracted_in (f c l : string) :
  In l (extracted f c) <-> In l (findall c) /\ l <> f.
Proof.
  unfold extracted, set_remove, set_of. rewrite filter_In, nodup_In.
  destruct (String.eqb_spec l f); simpl; intuition congruence.
Qed.

Lemma html_files_cons (f c : string) (directory : list (string * string)) :
  html_files ((f, c) :: directory)
  = if endswith f ".html" then f :: html_files directory
    else html_files directory.
Proof. reflexivity. Qed.

Lemma step_html (acc : Corpus) (f c : string) :
  endswith f ".html" = true ->
  step acc (f, c) = dict_set acc f (extracted f c).
Proof. intros E. unfold step. now rewrite E. Qed.

Lemma step_other (acc : Corpus) (f c : string) :
  endswith f ".html" = false -> step acc (f, c) = acc.
Proof. intros E. unfold step. now rewrite E. Qed.

Lemma extract_loop_ok (directory : list (string * string)) (acc : Corpus) :
  extract_ok acc -> extract_ok (fold_left step directory acc).
Proof.
  revert acc. induction directory as [|[f c] directory IH]; intros acc Hacc.
  - exact Hacc.
  - rewrite fold_left_cons. apply IH.
    destruct (endswith f ".html") eqn:E;
      [rewrite step_html by assumption | now rewrite step_other].
    destruct Hacc as [Hnd Hentries]. split.
    + now apply dict_set_nodup.
    + intros f' links Hin. apply dict_set_in in Hin.
      destruct Hin as [[-> ->]|Hin]; [|now apply Hentries].
      split; [apply extracted_nodup|].
      rewrite extracted_in. tauto.
Qed.

Lemma extract_loop_keys (directory : list (string * string)) (acc : Corpus) :
  NoDup (dict_keys acc ++ map fst directory) ->
  dict_keys (fold_left step directory acc)
  = dict_keys acc ++ html_files directory.
Proof.
  revert acc. induction directory as [|[f c] directory IH]; intros acc Hnd.
  - unfold html_files. simpl. now rewrite app_nil_r.
  - rewrite fold_left_cons. rewrite html_files_cons.
    destruct (endswith f ".html") eqn:E.
    + assert (Hf : ~ In f (dict_keys acc)).
      { apply NoDup_remove_2 in Hnd. intros H. apply Hnd.
        apply in_or_app. now left. }
      rewrite step_html by assumption.
      rewrite IH.
      * rewrite dict_set_keys_new by assumption.
        unfold dict_keys at 1. rewrite map_app. simpl.
        rewrite <- app_assoc. reflexivity.
      * rewrite dict_set_keys_new by assumption.
        unfold dict_keys. rewrite map_app. simpl. rewrite <- app_assoc.
        exact Hnd.
    + rewrite step_other by assumption.
      apply IH. simpl in Hnd. now apply NoDup_remove_1 in Hnd.
Qed.

Lemma extract_loop_get_other (directory : list (string * string)) (acc : Corpus)
    (f : string) :
  ~ In f (map fst directory) ->
  dict_get (fold_left step directory acc) f = dict_get acc f.
Proof.
  revert acc. induction directory as [|[f0 c0] directory IH]; intros acc Hf.
  - reflexivity.
  - rewrite fold_left_cons. rewrite IH by (simpl in Hf; tauto).
    destruct (endswith f0 ".html") eqn:E;
      [rewrite step_html by assumption | now rewrite step_other].
    apply dict_get_set_other. simpl in Hf. intros ->. tauto.
Qed.

Lemma extract_loop_get (directory : list (string * string)) (acc : Corpus)
    (f c : string) :
  NoDup (map fst directory) ->
  In (f, c) directory ->
  endswith f ".html" = true ->
  dict_get (fold_left step directory acc) f = Ok (extracted f c).
Proof.
  revert acc. induction directory as [|[f0 c0] directory IH];
    intros acc Hnd Hin Hhtml.
  - contradiction.
  - simpl in Hnd. inversion Hnd as [|? ? Hf0 Hnd']; subst.
    rewrite fold_left_cons. destruct Hin as [Heq|Hin].
    + inversion Heq; subst.
      rewrite extract_loop_get_other by assumption.
      rewrite step_html by assumption.
      apply dict_get_set_same.
    + now apply IH.
Qed.

(** The second loop, with the key set [ks] it tests against. *)
Let restricted := fun (ks links : list page) =>
  set_of (filter (fun link => mem link ks) links).

Lemma restricted_in (ks links : list page) (l : page) :
  In l (restricted ks links) <-> In l links /\ In l ks.
Proof.
  unfold restricted, set_of. rewrite nodup_In, filter_In, mem_true_iff.
  reflexivity.
Qed.

Lemma restrict_loop (ks l : list page) (d : Corpus) :
  dict_keys d = ks ->
  NoDup l ->
  incl l ks ->
  exists d',
    for_each l
      (fun filename pages =>
         links <- dict_get pages filename ;;
         Ok (dict_set pages filename
               (set_of (filter (fun link => mem link (dict_keys pages)) links))))
      d = Ok d'
    /\ dict_keys d' = ks
    /\ (forall k, In k l ->
          dict_get d' k = (v <- dict_get d k ;; Ok (restricted ks v)))
    /\ (forall k, ~ In k l -> dict_get d' k = dict_get d k).
Proof.
  revert d. induction l as [|x l IH]; intros d Hkeys Hnd Hincl.
  - exists d. simpl. repeat split; auto. intros k [].
  - inversion Hnd as [|? ? Hx Hnd']; subst.
    assert (Hxk : In x (dict_keys d)) by (apply Hincl; now left).
    destruct (dict_get_key d x Hxk) as [v [Hv _]].
    rewrite for_each_cons, Hv. simpl bind.
    set (d1 := dict_set d x (set_of (filter (fun link => mem link (dict_keys d)) v))).
    assert (Hk1 : dict_keys d1 = dict_keys d) by now apply dict_set_keys.
    destruct (IH d1) as [d' [Hrun [Hk' [Hin Hout]]]]; auto.
    { intros y Hy. apply Hincl. now right. }
    exists d'. split; [exact Hrun|]. split; [exact Hk'|]. split.
    + intros k [->|Hk].
      * rewrite Hout by assumption. unfold d1. rewrite dict_get_set_same, Hv.
        reflexivity.
      * rewrite Hin by assumption. unfold d1.
        rewrite dict_get_set_other; [reflexivity|]. intros ->. contradiction.
    + intros k Hk. rewrite Hout by (intros H; apply Hk; now right).
      unfold d1. apply dict_get_set_other. intros ->. apply Hk. now left.
Qed.

Lemma crawl_restrict_closed (pages : Corpus) :
  NoDup (dict_keys pages) ->
  crawl_restrict pages
  = Ok (map (fun e => (fst e, restricted (dict_keys pages) (snd e))) pages).
Proof.
  intros Hnd. unfold crawl_restrict.
  destruct (restrict_loop (dict_keys pages) (dict_keys pages) pages eq_refl Hnd
              (incl_refl _)) as [d' [Hrun [Hkeys [Hin _]]]].
  rewrite Hrun. f_equal. apply dict_ext.
  - now rewrite Hkeys.
  - rewrite Hkeys. symmetry.
    apply (keys_map_values (restricted (dict_keys pages))).
  - intros k Hk. rewrite Hkeys in Hk. rewrite Hin by assumption.
    now rewrite (dict_get_map_values (restricted (dict_keys pages))).
Qed.

Lemma crawl_shape (directory : list (string * string)) :
  exists corpus,
    crawl_pure findall directory = Ok corpus
    /\ NoDup (dict_keys corpus)
    /\ (forall q links, In (q, links) corpus -> NoDup links)
    /\ (forall q links p,
          In (q, links) corpus -> In p links -> In p (dict_keys corpus))
    /\ (forall q links, In (q, links) corpus -> ~ In q links).
Proof.
  destruct (extract_loop_ok directory []) as [Hnd Hentries].
  { split; [constructor | intros f links []]. }
  unfold crawl_pure.
  change (crawl_fold findall directory) with (fold_left step directory []).
  set (pages := fold_left step directory []) in *.
  rewrite crawl_restrict_closed by assumption.
  eexists. split; [reflexivity|].
  assert (Hk : dict_keys (map (fun e => (fst e, restricted (dict_keys pages) (snd e)))
                              pages) = dict_keys pages)
    by apply (keys_map_values (restricted (dict_keys pages))).
  split; [now rewrite Hk|].
  split; [|split].
  - intros q links Hin. apply in_map_iff in Hin.
    destruct Hin as [[q0 l0] [Heq _]]. inversion Heq; subst.
    unfold restricted, set_of. apply NoDup_nodup.
  - intros q links p Hin Hp. apply in_map_iff in Hin.
    destruct Hin as [[q0 l0] [Heq _]]. inversion Heq; subst.
    rewrite Hk. simpl in Hp. now apply restricted_in in Hp.
  - intros q links Hin. apply in_map_iff in Hin.
    destruct Hin as [[q0 l0] [Heq Hin0]]. inversion Heq; subst.
    simpl. rewrite restricted_in. intros [Hself _].
    now apply (Hentries q l0 Hin0).
Qed.

Lemma crawl_pure_links (directory : list (string * string)) :
  NoDup (map fst directory) ->
  exists corpus,
    crawl_pure findall directory = Ok corpus
    /\ dict_keys corpus = html_files directory
    /\ forall f contents,
         In (f, contents) directory ->
         endswith f ".html" = true ->
         exists links,
           dict_get corpus f = Ok links
           /\ forall l, In l links <->
                (In l (findall contents) /\ l <> f /\ In l (html_files directory)).
Proof.
  intros Hnames.
  destruct (extract_loop_ok directory []) as [Hnd _].
  { split; [constructor | intros f links []]. }
  pose proof (extract_loop_keys directory [] Hnames) as Hkeys.
  simpl app in Hkeys.
  unfold crawl_pure.
  change (crawl_fold findall directory) with (fold_left step directory []).
  set (pages := fold_left step directory []) in *.
  rewrite crawl_restrict_closed by assumption.
  eexists. split; [reflexivity|]. split.
  - rewrite (keys_map_values (restricted (dict_keys pages))). exact Hkeys.
  - intros f contents Hin Hhtml.
    rewrite (dict_get_map_values (restricted (dict_keys pages))).
    unfold pages at 1. rewrite (extract_loop_get directory [] f contents)
      by assumption.
    simpl bind. eexists. split; [reflexivity|].
    intros l. rewrite restricted_in, extracted_in, Hkeys. tauto.
Qed.
(** *** [crawl] followed by the two algorithms *)

Lemma extract_key_kept (directory : list (string * string)) (acc : Corpus)
    (f : string) :
  In f (dict_keys acc) -> In f (dict_keys (fold_left step directory acc)).
Proof.
  revert acc. induction directory as [|[f0 c0] directory IH]; intros acc Hin.
  - exact Hin.
  - rewrite fold_left_cons. apply IH.
    destruct (endswith f0 ".html") eqn:E;
      [rewrite step_html by assumption | now rewrite step_other].
    apply dict_set_keys_in. now right.
Qed.

Lemma extract_key_in (directory : list (string * string)) (acc : Corpus)
    (f : string) :
  In f (html_files directory) ->
  In f (dict_keys (fold_left step directory acc)).
Proof.
  revert acc. induction directory as [|[f0 c0] directory IH]; intros acc Hin.
  - contradiction.
  - rewrite fold_left_cons. rewrite html_files_cons in Hin.
    destruct (endswith f0 ".html") eqn:E.
    + rewrite step_html by assumption. destruct Hin as [->|Hin].
      * apply extract_key_kept. apply dict_set_keys_in. now left.
      * now apply IH.
    + rewrite step_other by assumption. now apply IH.
Qed.

Lemma extract_no_html (directory : list (string * string)) (acc : Corpus) :
  html_files directory = [] -> fold_left step directory acc = acc.
Proof.
  revert acc. induction directory as [|[f0 c0] directory IH]; intros acc H.
  - reflexivity.
  - rewrite fold_left_cons. rewrite html_files_cons in H.
    destruct (endswith f0 ".html") eqn:E; [discriminate|].
    rewrite step_other by assumption. now apply IH.
Qed.

Lemma crawl_graph (directory : list (string * string)) :
  html_files directory <> [] ->
  exists corpus, crawl_pure findall directory = Ok corpus /\ Graph_ok corpus.
Proof.
  intros Hhtml.
  destruct (crawl_shape directory) as [corpus [Hrun [H1 [H2 [H3 H4]]]]].
  exists corpus. split; [exact Hrun|].
  constructor; auto.
  intros ->. unfold crawl_pure in Hrun.
  change (crawl_fold findall directory)
    with (fold_left step directory []) in Hrun.
  destruct (html_files directory) as [|f fs] eqn:E; [congruence|].
  assert (Hf : In f (dict_keys (fold_left step directory []))).
  { apply extract_key_in. rewrite E. now left. }
  destruct (extract_loop_ok directory []) as [Hnd _].
  { split; [constructor | intros f' links []]. }
  rewrite crawl_restrict_closed in Hrun by assumption.
  inversion Hrun as [Hmap].
  destruct (fold_left step directory []); [contradiction | discriminate].
Qed.

Lemma crawl_no_html (directory : list (string * string)) :
  html_files directory = [] -> crawl_pure findall directory = Ok [].
Proof.
  intros H. unfold crawl_pure.
  change (crawl_fold findall directory) with (fold_left step directory []).
  now rewrite extract_no_html.
Qed.

(** *** Reading the files *)

Lemma for_each_app {A S : Type} (l1 l2 : list A) (body : A -> S -> result S)
    (s : S) :
  for_each (l1 ++ l2) body s = (s' <- for_each l1 body s ;; for_each l2 body s').
Proof.
  revert s. induction l1 as [|x l1 IH]; intros s; simpl.
  - reflexivity.
  - destruct (body x s) as [s'|e]; simpl; [apply IH | reflexivity].
Qed.

Lemma texts_names (directory : list dir_entry) :
  map fst (texts directory) = map fst directory.
Proof.
  unfold texts. rewrite map_map. reflexivity.
Qed.

Lemma texts_html (directory : list dir_entry) :
  html_files (texts directory) = html_files directory.
Proof.
  unfold html_files. now rewrite texts_names.
Qed.

Lemma texts_in (directory : list dir_entry) (f contents : string) :
  In (f, Ok contents) directory -> In (f, contents) (texts directory).
Proof.
  intros H. unfold texts. apply in_map_iff. exists (f, Ok contents). auto.
Qed.

Lemma readable_cons (entry : dir_entry) (directory : list dir_entry) :
  readable (entry :: directory) -> readable directory.
Proof.
  intros H f e Hin. apply (H f e). now right.
Qed.

Lemma extract_loop_readable (directory : list dir_entry) (acc : Corpus) :
  readable directory ->
  for_each directory
    (fun entry pages =>
       let '(filename, file) := entry in
       if negb (endswith filename ".html") then Ok pages
       else
         contents <- file ;;
         let links := findall contents in
         Ok (dict_set pages filename (set_remove filename (set_of links))))
    acc
  = Ok (fold_left step (texts directory) acc).
Proof.
  revert acc. induction directory as [|[f file] directory IH]; intros acc Hr.
  - reflexivity.
  - rewrite for_each_cons.
    change (texts ((f, file) :: directory))
      with ((f, match file with Ok c => c | Raise _ => EmptyString end)
            :: texts directory).
    rewrite fold_left_cons.
    destruct (endswith f ".html") eqn:E.
    + destruct file as [contents|e].
      * rewrite step_html by assumption. simpl negb. cbv iota. simpl bind.
        apply IH. now apply readable_cons in Hr.
      * specialize (Hr f e (or_introl eq_refl)). congruence.
    + rewrite step_other by assumption. simpl negb. cbv iota. simpl bind.
      apply IH. now apply readable_cons in Hr.
Qed.

Lemma crawl_readable (directory : list dir_entry) :
  readable directory ->
  crawl findall (Ok directory) = crawl_pure findall (texts directory).
Proof.
  intros Hr. unfold crawl, crawl_pure, crawl_extract. simpl bind.
  rewrite extract_loop_readable by assumption. reflexivity.
Qed.

Lemma crawl_unreadable (pre post : list dir_entry) (f : string) (e : exn) :
  readable pre ->
  endswith f ".html" = true ->
  crawl findall (Ok (pre ++ (f, Raise e) :: post)) = Raise e.
Proof.
  intros Hr Hf. unfold crawl, crawl_extract. simpl bind.
  rewrite for_each_app, extract_loop_readable by assumption.
  simpl. rewrite Hf. reflexivity.
Qed.

Lemma no_html_readable (directory : list dir_entry) :
  html_files directory = [] -> readable directory.
Proof.
  intros H f e Hin. destruct (endswith f ".html") eqn:E; [|reflexivity].
  assert (Hf : In f (html_files directory)).
  { unfold html_files. apply filter_In. split; [|assumption].
    apply in_map_iff. exists (f, Raise e). auto. }
  rewrite H in Hf. contradiction.
Qed.

(** X15. [crawl] fails only where the operating system fails: when
    [os.listdir] raises, and when a name ending in [.html] cannot be opened
    and read, with the exception of the first such name.  Otherwise it
    returns a dict that meets the Graph invariants but for emptiness: every
    key once, every link once, no link out of the key set, no page linked
    to itself. *)
Theorem crawl_invariants (directory : list dir_entry) :
  (forall e, crawl findall (Raise e) = Raise e)
  /\ (forall pre f e post,
        directory = pre ++ (f, Raise e) :: post ->
        readable pre ->
        endswith f ".html" = true ->
        crawl findall (Ok directory) = Raise e)
  /\ (readable directory ->
      exists corpus,
        crawl findall (Ok directory) = Ok corpus
        /\ NoDup (dict_keys corpus)
        /\ (forall q links, In (q, links) corpus -> NoDup links)
        /\ (forall q links p,
              In (q, links) corpus -> In p links -> In p (dict_keys corpus))
        /\ (forall q links, In (q, links) corpus -> ~ In q links)).
Proof.
  split; [reflexivity|]. split.
  - intros pre f e post -> Hr Hf. now apply crawl_unreadable.
  - intros Hr. rewrite crawl_readable by assumption. apply crawl_shape.
Qed.

(** X16. With distinct file names, all of which can be read where [crawl]
    opens them, the keys of the corpus are the names ending in [.html], in
    directory order, and a page links to exactly the matches of the pattern
    in its file that are other [.html] files of the directory. *)
Theorem crawl_links (directory : list dir_entry) :
  NoDup (map fst directory) ->
  readable directory ->
  exists corpus,
    crawl findall (Ok directory) = Ok corpus
    /\ dict_keys corpus = html_files directory
    /\ forall f contents,
         In (f, Ok contents) directory ->
         endswith f ".html" = true ->
         exists links,
           dict_get corpus f = Ok links
           /\ forall l, In l links <->
                (In l (findall contents) /\ l <> f /\ In l (html_files directory)).
Proof.
  intros Hnames Hr. rewrite crawl_readable by assumption.
  destruct (crawl_pure_links (texts directory)) as [corpus [Hrun [Hkeys Hlinks]]].
  { now rewrite texts_names. }
  exists corpus. split; [exact Hrun|]. split.
  - now rewrite Hkeys, texts_html.
  - intros f contents Hin Hf.
    destruct (Hlinks f contents (texts_in directory f contents Hin) Hf)
      as [links [Hget Hl]].
    exists links. split; [exact Hget|].
    intros l. rewrite Hl, texts_html. reflexivity.
Qed.

(** X17. A directory with at least one name ending in [.html], where every
    such name can be opened and read, gives a corpus that satisfies all
    Graph invariants, so [crawl] hands both algorithms an input they
    accept. *)
Theorem crawl_graph_ok (directory : list dir_entry) :
  html_files directory <> [] ->
  readable directory ->
  exists corpus, crawl findall (Ok directory) = Ok corpus /\ Graph_ok corpus.
Proof.
  intros Hhtml Hr. rewrite crawl_readable by assumption.
  apply crawl_graph. now rewrite texts_html.
Qed.

(** X18. [main] on a directory with at least one name ending in [.html],
    where every such name can be opened and read: both computations return
    a table over the pages of the corpus that sums to [1] in exact
    arithmetic, the iteration within 49 rounds.  When such a name cannot be read, [main] ends with
    its exception. *)
Theorem main_ranks_ok (directory : list dir_entry) (start : nat)
    (rnd : nat -> Q) (fuel : nat) :
  (readable directory ->
   html_files directory <> [] ->
   (49 <= fuel)%nat ->
   exists corpus sampled iterated,
     crawl findall (Ok directory) = Ok corpus
     /\ main_ranks fuel findall (Ok directory) start rnd
        = Returned (sampled, iterated)
     /\ dict_keys sampled = dict_keys corpus
     /\ dict_keys iterated = dict_keys corpus
     /\ sumQ (dict_values sampled) == 1
     /\ sumQ (dict_values iterated) == 1)
  /\ (forall pre f e post,
        directory = pre ++ (f, Raise e) :: post ->
        readable pre ->
        endswith f ".html" = true ->
        main_ranks fuel findall (Ok directory) start rnd = Raised e).
Proof.
  split.
  - intros Hr Hhtml Hfuel.
    assert (Hg : exists corpus,
               crawl findall (Ok directory) = Ok corpus /\ Graph_ok corpus).
    { rewrite crawl_readable by assumption.
      apply crawl_graph. now rewrite texts_html. }
    destruct Hg as [corpus [Hcrawl G]].
    destruct (sample_sum corpus DAMPING SAMPLES start rnd G)
      as [sampled [Hs [Hsk Hss]]].
    { unfold SAMPLES. lia. }
    assert (Hd : 0 <= DAMPING < 1).
    { split; vm_compute; [discriminate | reflexivity]. }
    destruct (round_bound corpus DAMPING 47 G Hd) as [k [iterated [Hk [Hret _]]]].
    { vm_compute. discriminate. }
    assert (Hrun : iterate_pagerank fuel corpus DAMPING = Returned iterated).
    { apply Hret. lia. }
    exists corpus, sampled, iterated.
    split; [exact Hcrawl|]. split.
    { unfold main_ranks. now rewrite Hcrawl, Hs, Hrun. }
    split; [exact Hsk|].
    destruct (returned_shape corpus DAMPING fuel iterated G Hd Hrun) as [Hik His].
    auto.
  - intros pre f e post -> Hr Hf. unfold main_ranks.
    now rewrite crawl_unreadable.
Qed.

(** X19. [main] on a directory without any [.html] file: the corpus is
    empty and [sample_pagerank] raises [IndexError] from [random.choice]. *)
Theorem main_ranks_no_html (directory : list dir_entry) (start : nat)
    (rnd : nat -> Q) (fuel : nat) :
  html_files directory = [] ->
  crawl findall (Ok directory) = Ok []
  /\ main_ranks fuel findall (Ok directory) start rnd = Raised IndexError.
Proof.
  intros H.
  assert (Hcrawl : crawl findall (Ok directory) = Ok []).
  { rewrite crawl_readable by now apply no_html_readable.
    apply crawl_no_html. now rewrite texts_html. }
  split; [exact Hcrawl|].
  unfold main_ranks. rewrite Hcrawl.
  unfold sample_pagerank, sample_counts. simpl.
  now rewrite random_choice_empty.
Qed.
End Crawl.

Lemma crawl_invariants_witness :
  crawl (fun contents => [contents; "1.html"]%string)
        (Ok [("1.html", Ok "2.html"); ("sub.html", Raise (Exception "IsADirectoryError"));
             ("2.html", Ok "1.html")]%string)
    = Raise (Exception "IsADirectoryError")
  /\ exists corpus,
       crawl (fun contents => [contents; "1.html"]%string)
             (Ok [("1.html", Ok "2.html"); ("notes", Raise (Exception "IsADirectoryError"));
                  ("2.html", Ok "1.html")]%string) = Ok corpus
       /\ NoDup (dict_keys corpus)
       /\ (forall q links, In (q, links) corpus -> NoDup links)
       /\ (forall q links p,
             In (q, links) corpus -> In p links -> In p (dict_keys corpus))
       /\ (forall q links, In (q, links) corpus -> ~ In q links).
Proof.
  split.
  - destruct (crawl_invariants (fun contents => [contents; "1.html"]%string)
                [("1.html", Ok "2.html");
                 ("sub.html", Raise (Exception "IsADirectoryError"));
                 ("2.html", Ok "1.html")]%string) as [_ [H _]].
    apply (H [("1.html", Ok "2.html")]%string "sub.html"%string
             (Exception "IsADirectoryError") [("2.html", Ok "1.html")]%string).
    + reflexivity.
    + intros f e [H0|[]]. discriminate H0.
    + reflexivity.
  - destruct (crawl_invariants (fun contents => [contents; "1.html"]%string)
                [("1.html", Ok "2.html");
                 ("notes", Raise (Exception "IsADirectoryError"));
                 ("2.html", Ok "1.html")]%string) as [_ [_ H]].
    apply H. intros f e [H0|[H0|[H0|[]]]]; inversion H0. reflexivity.
Defined.

Lemma crawl_links_witness :
  exists corpus,
    crawl (fun contents => [contents; "1.html"; "notes.txt"]%string)
          (Ok [("1.html", Ok "2.html"); ("notes.txt", Ok "1.html");
               ("2.html", Ok "2.html")]%string)
      = Ok corpus
    /\ dict_keys corpus
       = html_files
           [("1.html", Ok "2.html"); ("notes.txt", Ok "1.html");
            ("2.html", Ok "2.html")]%string
    /\ forall f contents,
         In (f, Ok contents)
            [("1.html", Ok "2.html"); ("notes.txt", Ok "1.html");
             ("2.html", Ok "2.html")]%string ->
         endswith f ".html" = true ->
         exists links,
           dict_get corpus f = Ok links
           /\ forall l, In l links <->
                (In l [contents; "1.html"; "notes.txt"]%string /\ l <> f
                 /\ In l (html_files
                      [("1.html", Ok "2.html"); ("notes.txt", Ok "1.html");
                       ("2.html", Ok "2.html")]%string)).
Proof.
  apply (crawl_links (fun contents => [contents; "1.html"; "notes.txt"]%string)).
  - apply nodupb_sound. reflexivity.
  - intros f e [H|[H|[H|[]]]]; discriminate H.
Defined.

Lemma crawl_graph_ok_witness :
  exists corpus,
    crawl (fun contents => [contents; "1.html"; "notes.txt"]%string)
          (Ok [("1.html", Ok "2.html"); ("notes.txt", Raise (Exception "PermissionError"));
               ("2.html", Ok "2.html")]%string)
      = Ok corpus
    /\ Graph_ok corpus.
Proof.
  apply (crawl_graph_ok (fun contents => [contents; "1.html"; "notes.txt"]%string)).
  - vm_compute. discriminate.
  - intros f e [H|[H|[H|[]]]]; inversion H. reflexivity.
Defined.

Lemma main_ranks_ok_witness :
  (exists corpus sampled iterated,
     crawl (fun contents => [contents; "1.html"]%string)
           (Ok [("1.html", Ok "2.html"); ("2.html", Ok "2.html")]%string)
       = Ok corpus
     /\ main_ranks 49 (fun contents => [contents; "1.html"]%string)
          (Ok [("1.html", Ok "2.html"); ("2.html", Ok "2.html")]%string)
          0 (fun _ => 1 # 2) = Returned (sampled, iterated)
     /\ dict_keys sampled = dict_keys corpus
     /\ dict_keys iterated = dict_keys corpus
     /\ sumQ (dict_values sampled) == 1
     /\ sumQ (dict_values iterated) == 1)
  /\ main_ranks 49 (fun contents => [contents; "1.html"]%string)
       (Ok [("1.html", Ok "2.html");
            ("sub.html", Raise (Exception "IsADirectoryError"))]%string)
       0 (fun _ => 1 # 2) = Raised (Exception "IsADirectoryError").
Proof.
  split.
  - destruct (main_ranks_ok (fun contents => [contents; "1.html"]%string)
                [("1.html", Ok "2.html"); ("2.html", Ok "2.html")]%string
                0 (fun _ => 1 # 2) 49) as [H _].
    apply H.
    + intros f e [H0|[H0|[]]]; discriminate H0.
    + vm_compute. discriminate.
    + lia.
  - destruct (main_ranks_ok (fun contents => [contents; "1.html"]%string)
                [("1.html", Ok "2.html");
                 ("sub.html", Raise (Exception "IsADirectoryError"))]%string
                0 (fun _ => 1 # 2) 49) as [_ H].
    apply (H [("1.html", Ok "2.html")]%string "sub.html"%string
             (Exception "IsADirectoryError") (@nil dir_entry)).
    + reflexivity.
    + intros f e [H0|[]]. discriminate H0.
    + reflexivity.
Defined.

Lemma main_ranks_no_html_witness :
  crawl (fun contents => [contents]) (Ok [("notes.txt", Ok "1.html")]%string) = Ok []
  /\ main_ranks 49 (fun contents => [contents])
       (Ok [("notes.txt", Ok "1.html")]%string) 0 (fun _ => 1 # 2)
     = Raised IndexError.
Proof.
  apply (main_ranks_no_html (fun contents => [contents])).
  reflexivity.
Defined.
